(** * Retrieval backend: chunking, term-frequency vectors, cosine ranking

    A shallow embedding of [main.py] (the handlers [ingest],
    [delete_document] and [semantic_search], with the nested [score]) and
    of the record shapes of [schemas.py].

    Conventions.
    - A Python [str] is a list of characters; characters are the code
      points below 256 (the Latin-1 block), carried by [ascii].
    - A Python [float] is a binary64 number: the kernel's primitive
      floats, specified by [FloatAxioms] against [SpecFloat].
    - A Python [dict] is an association list in insertion order.
    - Exceptions are values of [exn] in a small error monad. *)

From Stdlib Require Import String Ascii.
From Stdlib Require Import ZArith NArith List Bool Lia Uint63 Floats.
From Stdlib Require Import Permutation Sorted.
Import ListNotations.

#[local] Set Warnings "-register-all".

(* ================================================================== *)
(** * Exceptions *)
(* ================================================================== *)

Inductive exn : Type :=
| AttributeError
| TypeError
| ValueError
| ZeroDivisionError
| InvalidId
| HTTPException (status_code : nat).

Inductive result (A : Type) : Type :=
| Ok (a : A)
| Raise (e : exn).

Arguments Ok {A} a.
Arguments Raise {A} e.

Definition bind {A B} (m : result A) (k : A -> result B) : result B :=
  match m with
  | Ok a => k a
  | Raise e => Raise e
  end.

Notation "x <- m ;; k" := (bind m (fun x => k))
  (at level 61, m at next level, right associativity).

Fixpoint mapM {A B} (f : A -> result B) (l : list A) : result (list B) :=
  match l with
  | [] => Ok []
  | a :: l' => b <- f a ;; bs <- mapM f l' ;; Ok (b :: bs)
  end.

(* ================================================================== *)
(** * Python strings *)
(* ================================================================== *)

(** A Python [str]. *)
Definition str := list ascii.

Module Str.

Definition lit (s : string) : str := list_ascii_of_string s.

Definition code (c : ascii) : N := N_of_ascii c.

Definition between (lo hi n : N) : bool := ((lo <=? n) && (n <=? hi))%N.

(** [str.isspace] / the separators of [str.split()] below U+0100. *)
Definition isspace (c : ascii) : bool :=
  let n := code c in
  (between 9 13 n || between 28 32 n || (n =? 133) || (n =? 160))%N.

(** Letters (categories Lu, Ll, Lo) below U+0100. *)
Definition isalpha_char (c : ascii) : bool :=
  let n := code c in
  (between 65 90 n || between 97 122 n
   || (n =? 170) || (n =? 181) || (n =? 186)
   || between 192 214 n || between 216 246 n || between 248 255 n)%N.

(** Decimal digits, the superscripts 1-3 and the vulgar fractions. *)
Definition isnumeric_char (c : ascii) : bool :=
  let n := code c in
  (between 48 57 n || (n =? 178) || (n =? 179) || (n =? 185)
   || between 188 190 n)%N.

Definition isalnum_char (c : ascii) : bool :=
  isalpha_char c || isnumeric_char c.

(** [t.isalpha()]: at least one character and all of them letters. *)
Definition isalpha (t : str) : bool :=
  match t with
  | [] => false
  | _ => forallb isalpha_char t
  end.

(** [t.isalnum()]. *)
Definition isalnum (t : str) : bool :=
  match t with
  | [] => false
  | _ => forallb isalnum_char t
  end.

Definition lower_char (c : ascii) : ascii :=
  let n := code c in
  if (between 65 90 n || between 192 214 n || between 216 222 n)%N
  then ascii_of_N (n + 32)
  else c.

(** [s.lower()]. *)
Definition lower (s : str) : str := map lower_char s.

(** [s.split()]: maximal runs of non-whitespace characters. [cur] is
    the run being read, most recent character first. *)
Fixpoint split_aux (s : str) (cur : str) : list str :=
  match s with
  | [] => match cur with [] => [] | _ => [rev cur] end
  | c :: s' =>
    if isspace c
    then match cur with
         | [] => split_aux s' []
         | _ => rev cur :: split_aux s' []
         end
    else split_aux s' (c :: cur)
  end.

Definition split (s : str) : list str := split_aux s [].

(** [s[i:j]] for [0 <= i <= j]. *)
Definition slice (s : str) (i j : nat) : str := firstn (j - i) (skipn i s).

Fixpoint eqb (a b : str) : bool :=
  match a, b with
  | [], [] => true
  | x :: a', y :: b' => Ascii.eqb x y && eqb a' b'
  | _, _ => false
  end.

(** [" ".join(l)]. *)
Fixpoint join_space (l : list str) : str :=
  match l with
  | [] => []
  | [s] => s
  | s :: l' => s ++ " "%char :: join_space l'
  end.

(** [range(start, stop, step)] for a positive [step]: the fuel bounds
    the number of elements, since each one advances by at least 1. *)
Fixpoint range_aux (fuel i stop step : nat) : list nat :=
  match fuel with
  | 0 => []
  | S fuel' =>
    if i <? stop then i :: range_aux fuel' (i + step) stop step else []
  end.

Definition range (start stop step : nat) : list nat :=
  range_aux (stop - start) start stop step.

End Str.

(* ================================================================== *)
(** * Python dictionaries with string keys *)
(* ================================================================== *)

Module Dict.

Definition dict (V : Type) := list (str * V).

Fixpoint lookup {V} (d : dict V) (k : str) : option V :=
  match d with
  | [] => None
  | (k', v) :: d' => if Str.eqb k' k then Some v else lookup d' k
  end.

(** [d.get(k, default)]. *)
Definition get {V} (d : dict V) (k : str) (default : V) : V :=
  match lookup d k with
  | Some v => v
  | None => default
  end.

(** [d[k] = v]: an existing key keeps its position, a new one goes last. *)
Fixpoint set {V} (d : dict V) (k : str) (v : V) : dict V :=
  match d with
  | [] => [(k, v)]
  | (k', v') :: d' =>
    if Str.eqb k' k then (k', v) :: d' else (k', v') :: set d' k v
  end.

Definition keys {V} (d : dict V) : list str := map fst d.
Definition values {V} (d : dict V) : list V := map snd d.

(** [not d]. *)
Definition is_empty {V} (d : dict V) : bool :=
  match d with [] => true | _ => false end.

End Dict.

(* ================================================================== *)
(** * Python floats and stored values *)
(* ================================================================== *)

Module Num.

(** Truth value of a float: everything but the two zeros. *)
Definition truthy (x : float) : bool := negb (x =? 0)%float.

(** [sum(...)] over floats: additions from the left, starting at [0].
    (The compensated summation of later CPython versions gives the
    same float whenever the additions are exact, as they are on the
    integer-valued weights the vectorizer produces.) *)
Definition sum (l : list float) : float := fold_left PrimFloat.add l 0%float.

(** [math.sqrt]: a negative argument is a domain error. *)
Definition math_sqrt (x : float) : result float :=
  if (x <? 0)%float then Raise ValueError else Ok (PrimFloat.sqrt x).

(** [x / y] on floats. *)
Definition div (x y : float) : result float :=
  if (y =? 0)%float then Raise ZeroDivisionError else Ok (x / y)%float.

End Num.

(** What a field of a stored record can hold. *)
Inductive pyval : Type :=
| PNone
| PFloat (x : float)
| PStr (s : str)
| PList (l : list pyval)
| PDict (d : list (str * pyval)).

Module Val.

(** [bool(v)]. *)
Definition truthy (v : pyval) : bool :=
  match v with
  | PNone => false
  | PFloat x => Num.truthy x
  | PStr s => negb (Nat.eqb (length s) 0)
  | PList l => negb (Nat.eqb (length l) 0)
  | PDict d => negb (Dict.is_empty d)
  end.

(** [v.get(k, default)]: only a dict has the method. *)
Definition get (v : pyval) (k : str) (default : pyval) : result pyval :=
  match v with
  | PDict d => Ok (Dict.get d k default)
  | _ => Raise AttributeError
  end.

(** [v.values()]. *)
Definition values (v : pyval) : result (list pyval) :=
  match v with
  | PDict d => Ok (Dict.values d)
  | _ => Raise AttributeError
  end.

(** [x * v] for a float [x]. *)
Definition rmul (x : float) (v : pyval) : result float :=
  match v with
  | PFloat y => Ok (x * y)%float
  | _ => Raise TypeError
  end.

(** [v * v]. *)
Definition square (v : pyval) : result float :=
  match v with
  | PFloat y => Ok (y * y)%float
  | _ => Raise TypeError
  end.

(** A term-weight map as a stored value. *)
Definition of_vec (d : Dict.dict float) : pyval :=
  PDict (map (fun kv => (fst kv, PFloat (snd kv))) d).

End Val.

(* ================================================================== *)
(** * Chunking and vectorizing ([ingest], lines 62-70) *)
(* ================================================================== *)

Definition step : nat := 500.

(** [[text[i:i+step] for i in range(0, len(text), step)] or [""]] *)
Definition chunks_of (text : str) : list str :=
  match map (fun i => Str.slice text i (i + step))
            (Str.range 0 (length text) step) with
  | [] => [ [] ]
  | l => l
  end.

(** [[t for t in ch.lower().split() if t.isalpha() or t.isalnum()]] *)
Definition terms_of (ch : str) : list str :=
  filter (fun t => Str.isalpha t || Str.isalnum t) (Str.split (Str.lower ch)).

(** [for t in terms: emb[t] = emb.get(t, 0.0) + 1.0] *)
Definition embedding_of (ch : str) : Dict.dict float :=
  fold_left (fun emb t => Dict.set emb t (Dict.get emb t 0 + 1)%float)
            (terms_of ch) [].

(* ================================================================== *)
(** * Scoring ([semantic_search.score], lines 122-128) *)
(* ================================================================== *)

Definition score (q_vec : Dict.dict float) (d_vec : pyval) : result float :=
  if Dict.is_empty q_vec || negb (Val.truthy d_vec) then Ok 0%float
  else
    prods <- mapM (fun t => d <- Val.get d_vec t (PFloat 0) ;;
                            Val.rmul (Dict.get q_vec t 0%float) d)
                  (Dict.keys q_vec) ;;
    let dot := Num.sum prods in
    qn <- Num.math_sqrt (Num.sum (map (fun v => v * v)%float
                                      (Dict.values q_vec))) ;;
    vs <- Val.values d_vec ;;
    sq <- mapM Val.square vs ;;
    dn <- Num.math_sqrt (Num.sum sq) ;;
    if Num.truthy qn && Num.truthy dn then Num.div dot (qn * dn)%float
    else Ok 0%float.

(* ================================================================== *)
(** * The persistence store *)
(* ================================================================== *)

(** [bson.ObjectId]: a 96-bit value whose string form is its 24
    hexadecimal digits. *)
Module Bson.

Definition ObjectId := N.

Definition hex_digit (n : N) : ascii :=
  nth (N.to_nat n) (Str.lit "0123456789abcdef") "0"%char.

Fixpoint hex (k : nat) (n : N) : str :=
  match k with
  | 0 => []
  | S k' => hex k' (n / 16)%N ++ [hex_digit (n mod 16)%N]
  end.

(** [str(oid)]. *)
Definition to_str (o : ObjectId) : str := hex 24 o.

Definition hex_value (c : ascii) : option N :=
  let n := Str.code c in
  if Str.between 48 57 n then Some (n - 48)%N
  else if Str.between 97 102 n then Some (n - 87)%N
  else if Str.between 65 70 n then Some (n - 55)%N
  else None.

Fixpoint unhex (acc : N) (s : str) : option N :=
  match s with
  | [] => Some acc
  | c :: s' =>
    match hex_value c with
    | Some d => unhex (16 * acc + d)%N s'
    | None => None
    end
  end.

(** [ObjectId(s)] for a string [s]: 24 hexadecimal digits, and
    [InvalidId] for anything else. *)
Definition of_str (s : str) : result ObjectId :=
  if Nat.eqb (length s) 24
  then match unhex 0 s with
       | Some n => Ok n
       | None => Raise InvalidId
       end
  else Raise InvalidId.

End Bson.

(** A value used as an identifier: a native id or a plain string. A
    filter matches a field only when both have the same kind. *)
Inductive ident : Type :=
| IdObject (o : Bson.ObjectId)
| IdStr (s : str).

Definition ident_eqb (a b : ident) : bool :=
  match a, b with
  | IdObject x, IdObject y => N.eqb x y
  | IdStr x, IdStr y => Str.eqb x y
  | _, _ => false
  end.

(** [schemas.Document]; [metadata] holds the one key [size]. *)
Record Document : Type := {
  title : str;
  pages : option Z;
  table_count : option Z;
  metadata_size : nat
}.

(** A record of the collection "document". *)
Record document_record : Type := {
  _id : ident;
  body : Document
}.

(** A record of the collection "chunk" (the dict built at lines 71-77);
    [embedding] is [None] when the key is absent. *)
Record chunk_record : Type := {
  doc_id : ident;
  text : str;
  page : option Z;
  embedding : option pyval;
  metadata_title : str;
  metadata_chunk : nat
}.

Record database : Type := {
  document : list document_record;
  chunk : list chunk_record;
  next_oid : N
}.

Module Mongo.

(** [db["document"].insert_one(d)]: the store assigns the next id. *)
Definition insert_document (st : database) (d : Document)
  : database * Bson.ObjectId :=
  let o := next_oid st in
  ({| document := document st ++ [{| _id := IdObject o; body := d |}];
      chunk := chunk st;
      next_oid := N.succ o |}, o).

(** [db["chunk"].insert_one(c)]. *)
Definition insert_chunk (st : database) (c : chunk_record) : database :=
  {| document := document st;
     chunk := chunk st ++ [c];
     next_oid := next_oid st |}.

(** Removes the first record matching the key; the count removed. *)
Fixpoint remove_first (key : ident) (l : list document_record)
  : list document_record * nat :=
  match l with
  | [] => ([], 0)
  | d :: l' =>
    if ident_eqb (_id d) key then (l', 1)
    else let (r, n) := remove_first key l' in (d :: r, n)
  end.

(** [db["document"].delete_one({"_id": key})] with its
    [deleted_count]. *)
Definition delete_one (st : database) (key : ident) : database * nat :=
  let (r, n) := remove_first key (document st) in
  ({| document := r; chunk := chunk st; next_oid := next_oid st |}, n).

(** [db["chunk"].delete_many({"doc_id": key})]. *)
Definition delete_many (st : database) (key : ident) : database :=
  {| document := document st;
     chunk := filter (fun c => negb (ident_eqb (doc_id c) key)) (chunk st);
     next_oid := next_oid st |}.

(** [db["chunk"].find({}).limit(n)]. *)
Definition find_limit (st : database) (n : nat) : list chunk_record :=
  firstn n (chunk st).

End Mongo.

(** Modelled from the spec: [database.create_document] is imported by
    [main.py] but is not among the sources. The spec's insert-one
    "returns generated id", and [schemas.Chunk.doc_id] is a [str]
    "reference to the parent document _id": the identifier handed back
    is the string form of the id the store assigned. *)
Definition create_document (st : database) (d : Document) : database * str :=
  let (st', o) := Mongo.insert_document st d in (st', Bson.to_str o).

(* ================================================================== *)
(** * Handlers *)
(* ================================================================== *)

(** An uploaded file: its name and raw bytes. *)
Record UploadFile : Type := {
  filename : str;
  content : list Byte.byte
}.

(** [enumerate(l)]. *)
Definition enumerate {A} (l : list A) : list (nat * A) :=
  combine (seq 0 (length l)) l.

Section Ingest.

(** [content.decode("utf-8", errors="ignore")], the codec being the
    interpreter's. *)
Variable decode : list Byte.byte -> str.

(** One turn of the loop over [files] (lines 55-78); the second
    component is the loop's [doc_id]. *)
Definition ingest_file (st : database) (f : UploadFile) : database * str :=
  let text := match content f with [] => [] | _ => decode (content f) end in
  let title := filename f in
  let doc := {| title := title; pages := None; table_count := Some 0%Z;
                metadata_size := length (content f) |} in
  let (st1, doc_id) := create_document st doc in
  (fold_left
     (fun st' ic =>
        let emb := embedding_of (snd ic) in
        Mongo.insert_chunk st'
          {| doc_id := IdStr doc_id;
             text := snd ic;
             page := None;
             embedding := Some (Val.of_vec emb);
             metadata_title := title;
             metadata_chunk := fst ic |})
     (enumerate (chunks_of text)) st1,
   doc_id).

(** [POST /ingest]: the store afterwards and the count [inserted]. *)
Definition ingest (db : option database) (files : list UploadFile)
  : result (database * nat) :=
  match db with
  | None => Raise (HTTPException 500)
  | Some st =>
    Ok (fold_left
          (fun acc f => (fst (ingest_file (fst acc) f), snd acc + 1))
          files (st, 0))
  end.

End Ingest.

(** [DELETE /documents/{doc_id}]: the store afterwards, and the
    response or the exception raised. *)
Definition delete_document (db : option database) (doc_id : str)
  : option database * result bool :=
  match db with
  | None => (None, Raise (HTTPException 500))
  | Some st =>
      let (st1, deleted_count) :=
        match Bson.of_str doc_id with
        | Ok oid => Mongo.delete_one st (IdObject oid)
        | Raise _ => Mongo.delete_one st (IdStr doc_id)
        end in
      let st2 := Mongo.delete_many st1 (IdStr doc_id) in
      if Nat.eqb deleted_count 0
      then (Some st2, Raise (HTTPException 404))
      else (Some st2, Ok true)
  end.

(** An entry of [matches]. *)
Record match_record : Type := {
  m_doc_id : ident;
  m_text : str;
  m_score : float;
  m_metadata : str * nat
}.

Record search_response : Type := {
  matches : list match_record;
  answer : str
}.

(** [ch.get("embedding", {})]. *)
Definition get_embedding (ch : chunk_record) : pyval :=
  match embedding ch with
  | Some e => e
  | None => PDict []
  end.

(** The dict appended to [matches] (lines 140-145). *)
Definition make_match (ch : chunk_record) (s : float) : match_record :=
  {| m_doc_id := doc_id ch;
     m_text := firstn 500 (text ch);
     m_score := s;
     m_metadata := (metadata_title ch, metadata_chunk ch) |}.

(** The loop over the scanned chunks (lines 137-145). *)
Fixpoint scan (q_vec : Dict.dict float) (l : list chunk_record)
  : result (list match_record) :=
  match l with
  | [] => Ok []
  | ch :: l' =>
      s <- score q_vec (get_embedding ch) ;;
      ms <- scan q_vec l' ;;
      Ok (if (0 <? s)%float then make_match ch s :: ms else ms)
  end.

(** [matches.sort(key=lambda x: x["score"], reverse=True)]: a stable
    sort, so an entry moves ahead only of entries with a strictly
    smaller score. *)
Fixpoint insert_desc (m : match_record) (l : list match_record)
  : list match_record :=
  match l with
  | [] => [m]
  | x :: l' =>
      if (m_score m <? m_score x)%float then x :: insert_desc m l'
      else m :: l
  end.

Definition sort_desc (l : list match_record) : list match_record :=
  fold_right insert_desc [] l.

(** [l[:k]] for a Python integer [k]. *)
Definition take {A} (l : list A) (k : Z) : list A :=
  if (0 <=? k)%Z then firstn (Z.to_nat k) l
  else firstn (length l - Z.to_nat (- k)) l.

(** The query vector (lines 131-134). *)
Definition query_vector (query : str) : Dict.dict float :=
  let tokens :=
    filter (fun t => Str.isalpha t || Str.isalnum t)
           (Str.split (Str.lower query)) in
  fold_left (fun q_vec t => Dict.set q_vec t (Dict.get q_vec t 0 + 1)%float)
            tokens [].

(** [GET /search] with [query: str = Query(..., min_length=1)] and
    [top_k: int]. *)
Definition semantic_search (db : option database) (query : str) (top_k : Z)
  : result search_response :=
  if Nat.ltb (length query) 1 then Raise (HTTPException 422)
  else
    match db with
    | None => Raise (HTTPException 500)
    | Some st =>
        let q_vec := query_vector query in
        ms <- scan q_vec (Mongo.find_limit st 2000) ;;
        let ms := sort_desc ms in
        let ms := take ms top_k in
        let answer_text := firstn 800 (Str.join_space (map m_text ms)) in
        Ok {| matches := ms; answer := answer_text |}
    end.

(* ------------------------------------------------------------------ *)
(** ** Running the handlers on small inputs *)

Definition ascii_decode (bs : list Byte.byte) : str :=
  map ascii_of_byte
      (filter (fun b => (Byte.to_N b <? 128)%N) bs).

Definition empty_db : database :=
  {| document := []; chunk := []; next_oid := 0 |}.

Definition cat_file : UploadFile :=
  {| filename := Str.lit "pets.txt";
     content := map byte_of_ascii (Str.lit "cat dog cat") |}.

(** The empty store after ingesting [cat_file] once, and twice. *)
Definition one_cat : database :=
  fst (ingest_file ascii_decode empty_db cat_file).

Definition two_cats : database :=
  fst (ingest_file ascii_decode one_cat cat_file).

(* ================================================================== *)
(** * Notions used to state the properties *)
(* ================================================================== *)

(** [ceil(a / b)] on naturals. *)
Definition ceil_div (a b : nat) : nat := (a + b - 1) / b.

(** The windows of width [w] cut from position [i] on. *)
Definition windows (w fuel i : nat) (text : str) : list str :=
  map (fun j => Str.slice text j (j + w))
      (Str.range_aux fuel i (length text) w).

(** [Tokens s l]: [l] lists, in order, the maximal runs of
    non-whitespace characters of [s]. *)
Inductive Tokens : str -> list str -> Prop :=
| Tokens_nil : Tokens [] []
| Tokens_space c s l :
    Str.isspace c = true -> Tokens s l -> Tokens (c :: s) l
| Tokens_run t s l :
    t <> [] ->
    Forall (fun c => Str.isspace c = false) t ->
    (s = [] \/ exists c s', s = c :: s' /\ Str.isspace c = true) ->
    Tokens s l -> Tokens (t ++ s) (t :: l).

(** Occurrences of the term [t] in [l]. *)
Fixpoint count_term (t : str) (l : list str) : nat :=
  match l with
  | [] => 0
  | x :: l' => (if Str.eqb x t then 1 else 0) + count_term t l'
  end.

(** The float reached from [0.0] by [n] increments of [1.0]. *)
Fixpoint fcount (n : nat) : float :=
  match n with
  | 0 => 0%float
  | S n' => (fcount n' + 1)%float
  end.



(** The native ids of the stored documents lie below the counter the
    next id is taken from. *)
Definition ids_below (st : database) : Prop :=
  forall d o, In d (document st) -> _id d = IdObject o -> (o < next_oid st)%N.

(** The ids handed out lie below the counter, and the counter within
    the 96 bits of an [ObjectId]. *)
Definition store_ok (st : database) : Prop :=
  ids_below st /\ (next_oid st < 2 ^ 96)%N.

(** An integer that orders the floats as [<] does; [None] for NaN. *)
Definition sf_key (x : spec_float) : option Z :=
  match x with
  | S754_nan => None
  | S754_zero _ => Some 0%Z
  | S754_infinity s =>
      Some (if s then - 18446744073709551616 else 18446744073709551616)%Z
  | S754_finite s m e =>
      let v := ((e + 1075) * 9007199254740992 + Zpos m)%Z in
      Some (if s then - v else v)%Z
  end.

Definition key (x : float) : option Z := sf_key (Prim2SF x).

(** ** Classes of binary64 numbers *)

Definition sf_is_nan (x : spec_float) : bool :=
  match x with S754_nan => true | _ => false end.

Definition sf_is_zero (x : spec_float) : bool :=
  match x with S754_zero _ => true | _ => false end.

(** The sign bit is clear and the number is not NaN. *)
Definition sf_pos (x : spec_float) : bool :=
  match x with
  | S754_zero s | S754_infinity s | S754_finite s _ _ => negb s
  | S754_nan => false
  end.

(** NaN, or the sign bit is clear. *)
Definition sf_nonneg (x : spec_float) : bool := sf_is_nan x || sf_pos x.

(** Not a zero, and if finite then with an exponent of at least -589:
    the shape of the non-zero square roots. *)
Definition sf_large (x : spec_float) : bool :=
  match x with
  | S754_zero _ => false
  | S754_finite _ _ e => (-589 <=? e)%Z
  | _ => true
  end.

(** A zero or a finite number. *)
Definition is_finite (x : float) : bool :=
  match Prim2SF x with
  | S754_zero _ | S754_finite _ _ _ => true
  | _ => false
  end.

(** Every weight of the vector is finite. *)
Definition finite_weights (v : Dict.dict float) : Prop :=
  Forall (fun kv => is_finite (snd kv) = true) v.

(** ** The score in closed form *)

(** [sum(v*v for v in vec.values())]. *)
Definition norm_sq (v : Dict.dict float) : float :=
  Num.sum (map (fun x => x * x)%float (Dict.values v)).

(** The Euclidean norm as [score] computes it. *)
Definition norm (v : Dict.dict float) : float := PrimFloat.sqrt (norm_sq v).

(** The dot product as [score] computes it, over the keys of [q]. *)
Definition dot_of (q d : Dict.dict float) : float :=
  Num.sum (map (fun t => Dict.get q t 0 * Dict.get d t 0)%float
               (Dict.keys q)).

(** The value of [score] on two term-weight maps. *)
Definition cosine (q d : Dict.dict float) : float :=
  if Dict.is_empty q || Dict.is_empty d then 0%float
  else if Num.truthy (norm q) && Num.truthy (norm d)
       then (dot_of q d / (norm q * norm d))%float
       else 0%float.

(** A stored embedding that search can score: the key is absent, or
    the value is falsy, or it is a map from terms to floats. *)
Definition embedding_ok (ch : chunk_record) : Prop :=
  match embedding ch with
  | None => True
  | Some v => Val.truthy v = false \/ exists d, v = Val.of_vec d
  end.

(** The candidate a scanned chunk contributes. *)
Definition candidate (q_vec : Dict.dict float) (ch : chunk_record)
  : list match_record :=
  match score q_vec (get_embedding ch) with
  | Ok s => if (0 <? s)%float then [make_match ch s] else []
  | Raise _ => []
  end.

(** [a] may stand before [b] in a descending ranking. *)
Definition score_ge (a b : match_record) : Prop :=
  (m_score b <=? m_score a)%float = true.

(** The entries whose score equals [s]. *)
Definition with_score (s : float) (l : list match_record)
  : list match_record :=
  filter (fun m => (m_score m =? s)%float) l.

(** A chunk with the given [embedding] field, and the store that holds
    just that chunk. *)
Definition chunk_with (e : option pyval) : chunk_record :=
  {| doc_id := IdStr (Str.lit "d"); text := Str.lit "cat";
     page := None; embedding := e;
     metadata_title := Str.lit "t"; metadata_chunk := 0 |}.


(** The store [st] with the chunks [l]. *)
Definition with_chunks (st : database) (l : list chunk_record) : database :=
  {| document := document st; chunk := l; next_oid := next_oid st |}.

(** ** Self-similarity of one-term vectors *)




(* ================================================================== *)
(** * The remaining handlers *)
(* ================================================================== *)

(** A value of a record as the store returns it: a native id, or a
    plain value. *)
Inductive mval : Type :=
| MOid (o : Bson.ObjectId)
| MVal (v : pyval).

(** [MongoJSONEncoder] (lines 22-38), the [bson] import succeeding. *)
Module MongoJSONEncoder.

(** The body of the loop: [str(v)] for an [ObjectId], [v] otherwise. *)
Definition encode_value (v : mval) : mval :=
  match v with
  | MOid o => MVal (PStr (Bson.to_str o))
  | MVal _ => v
  end.

Definition encode (doc : Dict.dict mval) : Dict.dict mval :=
  if Dict.is_empty doc then doc
  else fold_left (fun out kv => Dict.set out (fst kv) (encode_value (snd kv)))
                 doc [].

End MongoJSONEncoder.



Section ListDocuments.

(** [get_documents("document")] of the module [database], which is
    not among the sources: the records of the collection as dicts. *)
Variable get_documents : database -> list (Dict.dict mval).

(** [GET /documents]. *)
Definition list_documents (db : option database)
  : result (list (Dict.dict mval)) :=
  match db with
  | None => Raise (HTTPException 500)
  | Some st => Ok (map MongoJSONEncoder.encode (get_documents st))
  end.

End ListDocuments.

(** The constraints of [schemas.py]. *)
Module Schema.

(** [Field(..., ge=bound)] on an [Optional[int]]. *)
Definition ge_opt (bound : Z) (v : option Z) : bool :=
  match v with
  | None => true
  | Some x => (bound <=? x)%Z
  end.

(** [Document]: [pages] and [table_count] are absent or at least 0. *)
Definition Document_ok (d : Document) : bool :=
  ge_opt 0 (pages d) && ge_opt 0 (table_count d).

(** [Dict[str, float]]. *)
Definition is_weight_map (v : pyval) : bool :=
  match v with
  | PDict d =>
      forallb (fun kv => match snd kv with PFloat _ => true | _ => false end) d
  | _ => false
  end.

(** [Chunk]: [doc_id] is a string, [page] is absent or at least 1, and
    [embedding] is absent (the default applies) or a map to floats. *)
Definition Chunk_ok (c : chunk_record) : bool :=
  match doc_id c with IdStr _ => true | IdObject _ => false end
  && ge_opt 1 (page c)
  && match embedding c with
     | None => true
     | Some v => is_weight_map v
     end.

End Schema.

(* ================================================================== *)
(** * Sequences of requests *)
(* ================================================================== *)

(** A request that changes the store. *)
Inductive request : Type :=
| Ingest (files : list UploadFile)
| Delete (id : str).

Section Requests.

Variable decode : list Byte.byte -> str.

(** The store after a request; a request that raises before touching
    the store leaves it as it is. *)
Definition serve (st : database) (rq : request) : database :=
  match rq with
  | Ingest files =>
      match ingest decode (Some st) files with
      | Ok r => fst r
      | Raise _ => st
      end
  | Delete id =>
      match fst (delete_document (Some st) id) with
      | Some st' => st'
      | None => st
      end
  end.

Definition serve_all (st : database) (rqs : list request) : database :=
  fold_left serve rqs st.

End Requests.

(** The identifier is the string form of the id it converts to, if it
    converts. *)
Definition canonical (id : str) : Prop :=
  forall o, Bson.of_str id = Ok o -> id = Bson.to_str o.

(** Every chunk names, by the string form of its id, a stored
    document. *)
Definition refs_ok (st : database) : Prop :=
  forall c, In c (chunk st) ->
  exists d o, In d (document st) /\ _id d = IdObject o
              /\ doc_id c = IdStr (Bson.to_str o).

(** The sign bit of the weight is clear, or the weight is NaN. *)
Definition not_negative (x : float) : bool := sf_nonneg (Prim2SF x).

Definition nonneg_weights (v : Dict.dict float) : Prop :=
  Forall (fun kv => not_negative (snd kv) = true) v.

(** The value of a stored identifier as a record shows it. *)
Definition mval_of_ident (i : ident) : mval :=
  match i with
  | IdObject o => MOid o
  | IdStr s => MVal (PStr s)
  end.

(** Records that show the [_id] and the title of the stored documents,
    in order. *)
Definition records_of (st : database) : list (Dict.dict mval) :=
  map (fun d => [(Str.lit "_id", mval_of_ident (_id d));
                 (Str.lit "title", MVal (PStr (title (body d))))])
      (document st).

(** A store whose next id has a letter among its digits. *)
Definition store_at_ten : database :=
  {| document := []; chunk := []; next_oid := 10 |}.

(** What every request keeps true of the store: ids below the counter
    and pairwise distinct, documents and chunks within the constraints
    of the schemas, chunk texts of at most 500 characters, embeddings
    that search can score and that are the vectors of the texts. *)
Definition store_inv (st : database) : Prop :=
  ids_below st
  /\ NoDup (map _id (document st))
  /\ Forall (fun d => Schema.Document_ok (body d) = true
                      /\ exists o, _id d = IdObject o)
            (document st)
  /\ Forall (fun c => Schema.Chunk_ok c = true
                      /\ length (text c) <= 500
                      /\ embedding_ok c
                      /\ embedding c
                         = Some (Val.of_vec (embedding_of (text c))))
            (chunk st).

(* ------------------------------------------------------------------ *)
(** ** Integer-valued floats *)

(** The binary64 number nearest to an integer, as [float(n)] gives
    it. *)
Definition sf_of_Z (n : Z) : spec_float :=
  binary_normalize prec emax n 0 false.

(** A positive finite number with an exponent from [lo] to [hi]. *)
Definition sf_mid (lo hi : Z) (x : spec_float) : bool :=
  match x with
  | S754_finite false _ e => (lo <=? e)%Z && (e <=? hi)%Z
  | _ => false
  end.

(** How often the term [t] occurs among the terms of the string [s]. *)
Definition occurrences (s t : str) : Z :=
  Z.of_nat (count_term t (terms_of s)).

(** The sum of [g] over a list. *)
Definition zsum {A} (g : A -> Z) (l : list A) : Z :=
  fold_right (fun a acc => (g a + acc)%Z) 0%Z l.

(** The two strings have a term in common. *)
Definition shares_term (a b : str) : Prop :=
  exists t, In t (terms_of a) /\ In t (terms_of b).

(* ================================================================== *)
(** * Chunking *)
(* ================================================================== *)

Section Chunking.

Variable w : nat.
Hypothesis w_pos : 0 < w.

Lemma ceil_div_zero : ceil_div 0 w = 0.
Proof.
  unfold ceil_div. apply Nat.div_small. lia.
Qed.

Lemma ceil_div_step (n : nat) : 0 < n -> ceil_div n w = S (ceil_div (n - w) w).
Proof.
  intros Hn. unfold ceil_div.
  destruct (Nat.le_gt_cases w n) as [Hle | Hlt].
  - replace (n + w - 1) with ((n - w + w - 1) + 1 * w) by lia.
    rewrite Nat.div_add by lia. lia.
  - replace (n - w) with 0 by lia.
    rewrite (Nat.div_small (0 + w - 1)) by lia.
    replace (n + w - 1) with ((n - 1) + 1 * w) by lia.
    rewrite Nat.div_add by lia.
    rewrite Nat.div_small by lia. reflexivity.
Qed.

Lemma slice_window (text : str) (j : nat) :
  Str.slice text j (j + w) = firstn w (skipn j text).
Proof.
  unfold Str.slice. f_equal. lia.
Qed.

Lemma windows_concat (fuel : nat) : forall i text,
  length text - i <= fuel -> concat (windows w fuel i text) = skipn i text.
Proof.
  induction fuel as [| fuel IH]; intros i text Hfuel; unfold windows; simpl.
  - symmetry. apply skipn_all2. lia.
  - destruct (Nat.ltb_spec i (length text)) as [Hlt | Hge]; simpl.
    + fold (windows w fuel (i + w) text).
      rewrite IH by lia.
      rewrite slice_window.
      replace (i + w) with (w + i) by lia.
      rewrite <- skipn_skipn. apply firstn_skipn.
    + symmetry. apply skipn_all2. lia.
Qed.

Lemma windows_length (fuel : nat) : forall i text,
  length text - i <= fuel ->
  length (windows w fuel i text) = ceil_div (length text - i) w.
Proof.
  induction fuel as [| fuel IH]; intros i text Hfuel; unfold windows; simpl.
  - replace (length text - i) with 0 by lia. now rewrite ceil_div_zero.
  - destruct (Nat.ltb_spec i (length text)) as [Hlt | Hge]; simpl.
    + fold (windows w fuel (i + w) text).
      rewrite IH by lia.
      rewrite (ceil_div_step (length text - i)) by lia.
      do 2 f_equal. lia.
    + replace (length text - i) with 0 by lia. now rewrite ceil_div_zero.
Qed.

Lemma windows_full (fuel : nat) : forall i text k,
  length text - i <= fuel ->
  S k < length (windows w fuel i text) ->
  length (nth k (windows w fuel i text) []) = w.
Proof.
  induction fuel as [| fuel IH]; intros i text k Hfuel; unfold windows; simpl.
  - lia.
  - destruct (Nat.ltb_spec i (length text)) as [Hlt | Hge]; simpl; [| lia].
    fold (windows w fuel (i + w) text). intros Hk.
    destruct k as [| k].
    + rewrite slice_window, length_firstn, length_skipn.
      destruct (Nat.le_gt_cases (length text) (i + w)) as [Hshort | Hlong]; [| lia].
      rewrite windows_length in Hk by lia.
      replace (length text - (i + w)) with 0 in Hk by lia.
      rewrite ceil_div_zero in Hk. lia.
    + apply IH; lia.
Qed.

Lemma windows_nonempty (fuel i : nat) (text : str) :
  length text - i <= fuel -> i < length text -> windows w fuel i text <> [].
Proof.
  intros Hfuel Hlt Hnil. apply (f_equal (@length str)) in Hnil.
  rewrite windows_length in Hnil by assumption.
  rewrite ceil_div_step in Hnil by lia. discriminate.
Qed.

End Chunking.

Lemma chunks_of_windows (text : str) :
  chunks_of text =
  match windows step (length text) 0 text with [] => [[]] | l => l end.
Proof. unfold chunks_of, windows, Str.range. now rewrite Nat.sub_0_r. Qed.

Lemma step_pos : 0 < step.
Proof. unfold step. lia. Qed.

Lemma chunks_of_facts (text : str) :
  length (chunks_of text) = Nat.max 1 (ceil_div (length text) step)
  /\ (forall k, S k < length (chunks_of text) ->
                length (nth k (chunks_of text) []) = step)
  /\ concat (chunks_of text) = text.
Proof.
  rewrite chunks_of_windows.
  pose proof (@windows_length step step_pos (length text) 0 text) as Hlen.
  pose proof (@windows_concat step step_pos (length text) 0 text) as Hcat.
  pose proof (@windows_full step step_pos (length text) 0 text) as Hfull.
  rewrite Nat.sub_0_r in *.
  specialize (Hlen (le_n _)). specialize (Hcat (le_n _)).
  simpl skipn in Hcat.
  destruct (windows step (length text) 0 text) as [| c l] eqn:E.
  - simpl in Hcat. subst text.
    repeat split; try reflexivity. simpl. intros k Hk. lia.
  - repeat split.
    + rewrite Hlen. simpl length in Hlen. lia.
    + intros k Hk. apply Hfull; [lia | assumption].
    + assumption.
Qed.

Lemma chunks_of_nonempty (text : str) : 1 <= length (chunks_of text).
Proof.
  destruct (chunks_of_facts text) as [-> _]. lia.
Qed.

(** C2. Chunking a text of length [L] with the window 500 yields
    [max 1 (ceil (L / 500))] slices; the empty text yields the single
    empty slice; every slice but the last has exactly 500 characters;
    and the slices concatenated in order are the text. *)
Theorem chunks_of_partition (text : str) :
  length (chunks_of text) = Nat.max 1 (ceil_div (length text) 500)
  /\ (text = [] -> chunks_of text = [[]])
  /\ (forall k, S k < length (chunks_of text) ->
                length (nth k (chunks_of text) []) = 500)
  /\ concat (chunks_of text) = text.
Proof.
  destruct (chunks_of_facts text) as (Hlen & Hfull & Hcat).
  split; [exact Hlen |].
  split; [intros ->; reflexivity |].
  split; [exact Hfull | exact Hcat].
Qed.

(* ================================================================== *)
(** * Tokenizing and counting *)
(* ================================================================== *)

Lemma str_eqb_eq (a b : str) : Str.eqb a b = true <-> a = b.
Proof.
  revert b. induction a as [| x a IH]; intros [| y b]; simpl;
    try (split; [discriminate | discriminate]); [tauto |].
  rewrite andb_true_iff, Ascii.eqb_eq, IH.
  split; [intros [-> ->]; reflexivity | intros [= -> ->]; auto].
Qed.

Lemma str_eqb_refl (a : str) : Str.eqb a a = true.
Proof. now apply str_eqb_eq. Qed.

Lemma str_eqb_neq (a b : str) : Str.eqb a b = false <-> a <> b.
Proof.
  rewrite <- str_eqb_eq. destruct (Str.eqb a b); split; congruence.
Qed.

Lemma str_eqb_sym (a b : str) : Str.eqb a b = Str.eqb b a.
Proof.
  destruct (Str.eqb b a) eqn:E.
  - apply str_eqb_eq in E. subst. apply str_eqb_refl.
  - apply str_eqb_neq. apply str_eqb_neq in E. congruence.
Qed.

Section Split.

Let nonspace (t : str) := Forall (fun c => Str.isspace c = false) t.

Lemma rev_cons_nonnil (a : ascii) (l : str) : rev (a :: l) <> [].
Proof.
  intros H. apply (f_equal (@length ascii)) in H.
  rewrite length_rev in H. discriminate.
Qed.

Lemma split_aux_tokens (s : str) : forall cur,
  nonspace cur ->
  Tokens (rev cur ++ s) (Str.split_aux s cur)
  /\ (cur = [] -> Tokens s (Str.split_aux s [])).
Proof.
  induction s as [| c s IH]; intros cur Hcur.
  - simpl. split.
    + destruct cur as [| a cur]; [constructor |].
      apply Tokens_run; [| | now left | constructor].
      * apply rev_cons_nonnil.
      * apply Forall_rev. exact Hcur.
    + intros _. constructor.
  - assert (Tokens (c :: s) (Str.split_aux (c :: s) [])) as Hnil.
    { simpl. destruct (Str.isspace c) eqn:Hc.
      - apply Tokens_space; [exact Hc |].
        apply (IH []); [constructor | reflexivity].
      - destruct (IH [c]) as [H _]; [repeat constructor; exact Hc |].
        exact H. }
    split; [| intros _; exact Hnil].
    destruct cur as [| a cur]; [exact Hnil |].
    cbn [Str.split_aux]. destruct (Str.isspace c) eqn:Hc.
    + apply Tokens_run.
      * apply rev_cons_nonnil.
      * apply (Forall_rev Hcur).
      * right. now exists c, s.
      * apply Tokens_space; [exact Hc |].
        apply (IH []); [constructor | reflexivity].
    + destruct (IH (c :: a :: cur)) as [H _].
      { constructor; [exact Hc | exact Hcur]. }
      change (rev (c :: a :: cur)) with (rev (a :: cur) ++ [c]) in H.
      rewrite <- app_assoc in H. exact H.
Qed.

Lemma split_tokens (s : str) : Tokens s (Str.split s).
Proof.
  unfold Str.split.
  destruct (@split_aux_tokens s []) as [_ H]; [constructor |].
  now apply H.
Qed.

Lemma run_unique (t : str) : forall t' s s',
  nonspace t -> nonspace t' ->
  (s = [] \/ exists c r, s = c :: r /\ Str.isspace c = true) ->
  (s' = [] \/ exists c r, s' = c :: r /\ Str.isspace c = true) ->
  t ++ s = t' ++ s' -> t = t' /\ s = s'.
Proof.
  induction t as [| a t IH]; intros [| a' t'] s s' Ht Ht' Hs Hs' Heq;
    simpl in Heq.
  - auto.
  - subst s. destruct Hs as [E | (c & r & E & Hc)]; [discriminate |].
    injection E as <- _. inversion Ht'; congruence.
  - subst s'. destruct Hs' as [E | (c & r & E & Hc)]; [discriminate |].
    injection E as <- _. inversion Ht; congruence.
  - injection Heq as -> Heq.
    inversion Ht; inversion Ht'; subst.
    destruct (IH t' s s') as [-> ->]; auto.
Qed.

(** [Tokens] determines the list: it is a function of the text. *)
Lemma Tokens_fun (s : str) (l1 : list str) :
  Tokens s l1 -> forall l2, Tokens s l2 -> l1 = l2.
Proof.
  induction 1 as [| c s l1 Hc H1 IH | t s l1 Hne Hns Hend H1 IH];
    intros l2 H2.
  - inversion H2 as [| | t s l Hne Hns Hend H Heq]; [reflexivity |].
    destruct t; [congruence | discriminate].
  - inversion H2 as [| c' s' l Hc' H' | t s' l Hne Hns Hend H' Heq]; subst.
    + now apply IH.
    + destruct t as [| a t]; [congruence |].
      simpl in Heq. injection Heq as -> _.
      inversion Hns; congruence.
  - inversion H2 as [| c' s' l Hc' H' Heq | t' s' l Hne' Hns' Hend' H' Heq].
    + destruct t; [congruence | discriminate].
    + destruct t as [| a t]; [congruence |].
      simpl in Heq. injection Heq as -> _.
      inversion Hns; congruence.
    + destruct (@run_unique t' t s' s Hns' Hns Hend' Hend Heq) as [-> ->].
      f_equal. now apply IH.
Qed.

End Split.





Section Counting.

Lemma lookup_set_same {V} (d : Dict.dict V) (k : str) (v : V) :
  Dict.lookup (Dict.set d k v) k = Some v.
Proof.
  induction d as [| [k' v'] d IH]; simpl.
  - now rewrite str_eqb_refl.
  - destruct (Str.eqb k' k) eqn:E; simpl; rewrite E; auto.
Qed.

Lemma lookup_set_other {V} (d : Dict.dict V) (k k' : str) (v : V) :
  k <> k' -> Dict.lookup (Dict.set d k v) k' = Dict.lookup d k'.
Proof.
  intros Hne. induction d as [| [k0 v0] d IH]; simpl.
  - apply str_eqb_neq in Hne. now rewrite Hne.
  - destruct (Str.eqb k0 k) eqn:E; simpl.
    + apply str_eqb_eq in E. subst k0.
      apply str_eqb_neq in Hne. now rewrite Hne.
    + now rewrite IH.
Qed.

Lemma count_term_app (t : str) (l1 l2 : list str) :
  count_term t (l1 ++ l2) = count_term t l1 + count_term t l2.
Proof.
  induction l1 as [| x l1 IH]; simpl; [reflexivity |]. rewrite IH. lia.
Qed.

Lemma count_term_zero (t : str) (l : list str) :
  count_term t l = 0 <-> ~ In t l.
Proof.
  induction l as [| x l IH]; simpl; [tauto |].
  destruct (Str.eqb x t) eqn:E.
  - apply str_eqb_eq in E. subst. split; [discriminate | tauto].
  - apply str_eqb_neq in E. simpl. rewrite IH. tauto.
Qed.

(** [emb] holds, for each term, its number of occurrences in [seen]. *)
Let counted (emb : Dict.dict float) (seen : list str) : Prop :=
  forall t, Dict.lookup emb t =
            match count_term t seen with
            | 0 => None
            | n => Some (fcount n)
            end.

Lemma counted_step (emb : Dict.dict float) (seen : list str) (t0 : str) :
  counted emb seen ->
  counted (Dict.set emb t0 (Dict.get emb t0 0 + 1)%float) (seen ++ [t0]).
Proof.
  intros H t. rewrite count_term_app. simpl.
  destruct (Str.eqb t0 t) eqn:E.
  - apply str_eqb_eq in E. subst t0.
    rewrite lookup_set_same. unfold Dict.get. rewrite (H t).
    replace (count_term t seen + (1 + 0)) with (S (count_term t seen)) by lia.
    destruct (count_term t seen); reflexivity.
  - apply str_eqb_neq in E. rewrite lookup_set_other by exact E.
    rewrite Nat.add_0_r. apply H.
Qed.

Lemma counted_fold (terms : list str) : forall emb seen,
  counted emb seen ->
  counted (fold_left (fun e t => Dict.set e t (Dict.get e t 0 + 1)%float)
                     terms emb)
          (seen ++ terms).
Proof.
  induction terms as [| t0 terms IH]; intros emb seen H; simpl.
  - now rewrite app_nil_r.
  - replace (seen ++ t0 :: terms) with ((seen ++ [t0]) ++ terms)
      by (now rewrite <- app_assoc).
    apply IH. now apply counted_step.
Qed.

Lemma embedding_counts (ch : str) (t : str) :
  Dict.lookup (embedding_of ch) t =
  match count_term t (terms_of ch) with
  | 0 => None
  | n => Some (fcount n)
  end.
Proof.
  unfold embedding_of.
  apply (@counted_fold (terms_of ch) [] []). intros t'. reflexivity.
Qed.

End Counting.


(* ================================================================== *)
(** * Identifiers *)
(* ================================================================== *)

Lemma ident_eqb_eq (a b : ident) : ident_eqb a b = true <-> a = b.
Proof.
  destruct a as [x | x], b as [y | y]; simpl;
    try (split; [discriminate | discriminate]).
  - rewrite N.eqb_eq. split; [intros -> | intros [= ->]]; reflexivity.
  - rewrite str_eqb_eq. split; [intros -> | intros [= ->]]; reflexivity.
Qed.

Lemma ident_eqb_refl (a : ident) : ident_eqb a a = true.
Proof. now apply ident_eqb_eq. Qed.

Module HexFacts.

Lemma hex_length (k : nat) : forall n, length (Bson.hex k n) = k.
Proof.
  induction k as [| k IH]; intros n; simpl; [reflexivity |].
  rewrite length_app, IH. simpl. lia.
Qed.

Lemma hex_value_digit (d : N) :
  (d < 16)%N -> Bson.hex_value (Bson.hex_digit d) = Some d.
Proof.
  intros Hd.
  destruct d as [| p]; [reflexivity |].
  do 4 (destruct p as [p | p |]; try reflexivity); lia.
Qed.

Lemma unhex_app (l1 : str) : forall acc l2,
  Bson.unhex acc (l1 ++ l2) =
  match Bson.unhex acc l1 with
  | Some a => Bson.unhex a l2
  | None => None
  end.
Proof.
  induction l1 as [| c l1 IH]; intros acc l2; simpl; [reflexivity |].
  destruct (Bson.hex_value c); [apply IH | reflexivity].
Qed.

Lemma unhex_hex (k : nat) : forall acc n,
  Bson.unhex acc (Bson.hex k n) =
  Some (acc * 16 ^ N.of_nat k + n mod 16 ^ N.of_nat k)%N.
Proof.
  induction k as [| k IH]; intros acc n.
  - simpl. rewrite N.mod_1_r. f_equal. lia.
  - cbn [Bson.hex]. rewrite unhex_app, IH. cbn [Bson.unhex].
    rewrite hex_value_digit by (apply N.mod_lt; lia).
    f_equal. rewrite Nat2N.inj_succ, N.pow_succ_r'.
    rewrite N.Div0.mod_mul_r. lia.
Qed.

(** Parsing the string form of an id gives the id back. *)
Lemma of_str_to_str (o : Bson.ObjectId) :
  (o < 2 ^ 96)%N -> Bson.of_str (Bson.to_str o) = Ok o.
Proof.
  intros Ho. unfold Bson.of_str, Bson.to_str.
  rewrite hex_length, unhex_hex. simpl Nat.eqb. cbv iota.
  rewrite N.mul_0_l, N.add_0_l.
  change (16 ^ N.of_nat 24)%N with (2 ^ 96)%N.
  now rewrite N.mod_small.
Qed.

End HexFacts.

(* ================================================================== *)
(** * The store operations *)
(* ================================================================== *)

Module MongoFacts.

Lemma remove_first_count (key : ident) (l : list document_record) :
  snd (Mongo.remove_first key l) <= 1
  /\ length l = length (fst (Mongo.remove_first key l))
                + snd (Mongo.remove_first key l).
Proof.
  induction l as [| d l IH]; simpl; [lia |].
  destruct (ident_eqb (_id d) key); simpl; [lia |].
  destruct (Mongo.remove_first key l) as [r n]. simpl in *. lia.
Qed.

Lemma remove_first_none (key : ident) (l : list document_record) :
  snd (Mongo.remove_first key l) = 0 <->
  forall d, In d l -> _id d <> key.
Proof.
  induction l as [| d l IH]; simpl; [tauto |].
  destruct (ident_eqb (_id d) key) eqn:E; simpl.
  - apply ident_eqb_eq in E. split; [discriminate |].
    intros H. exfalso. exact (H d (or_introl eq_refl) E).
  - destruct (Mongo.remove_first key l) as [r n]. simpl in *.
    rewrite IH. split.
    + intros H d' [<- | Hin]; [| auto].
      intros Heq. apply ident_eqb_eq in Heq. congruence.
    + intros H d' Hin. apply H. now right.
Qed.

Lemma remove_first_unchanged (key : ident) (l : list document_record) :
  snd (Mongo.remove_first key l) = 0 -> fst (Mongo.remove_first key l) = l.
Proof.
  induction l as [| d l IH]; simpl; [reflexivity |].
  destruct (ident_eqb (_id d) key); simpl; [discriminate |].
  destruct (Mongo.remove_first key l) as [r n]. simpl in *.
  intros Hn. now rewrite IH.
Qed.

(** Removing the key of the last record, when no earlier record has
    it, removes that record. *)
Lemma remove_first_last (key : ident) (l : list document_record)
      (d : document_record) :
  (forall x, In x l -> _id x <> key) -> _id d = key ->
  Mongo.remove_first key (l ++ [d]) = (l, 1).
Proof.
  intros Hl Hd. induction l as [| x l IH]; simpl.
  - rewrite Hd, ident_eqb_refl. reflexivity.
  - destruct (ident_eqb (_id x) key) eqn:E.
    + apply ident_eqb_eq in E. exfalso. exact (Hl x (or_introl eq_refl) E).
    + rewrite IH; [reflexivity |]. intros y Hy. apply Hl. now right.
Qed.

End MongoFacts.

(** The key [delete_document] removes by: the native id when the
    string converts, the raw string otherwise. *)
Lemma delete_document_run (st : database) (id : str) :
  delete_document (Some st) id =
  let key := match Bson.of_str id with
             | Ok oid => IdObject oid
             | Raise _ => IdStr id
             end in
  let st2 := Mongo.delete_many (fst (Mongo.delete_one st key)) (IdStr id) in
  (Some st2,
   if Nat.eqb (snd (Mongo.delete_one st key)) 0
   then Raise (HTTPException 404) else Ok true).
Proof.
  unfold delete_document.
  destruct (Bson.of_str id) as [oid | e]; cbv zeta;
    match goal with
    | |- context [Mongo.delete_one ?s ?k] =>
        destruct (Mongo.delete_one s k) as [st1 n]
    end; simpl; destruct (Nat.eqb n 0); reflexivity.
Qed.


(* ================================================================== *)
(** * Search: where the matches come from *)
(* ================================================================== *)

Lemma bind_ok {A B} (m : result A) (k : A -> result B) (b : B) :
  bind m k = Ok b -> exists a, m = Ok a /\ k a = Ok b.
Proof.
  destruct m as [a | e]; simpl; [eauto | discriminate].
Qed.

Ltac bind_inv H :=
  let a := fresh "a" in
  let Ha := fresh "Ha" in
  apply bind_ok in H; destruct H as (a & Ha & H).

Lemma scan_ok (q_vec : Dict.dict float) (l : list chunk_record) :
  forall ms, scan q_vec l = Ok ms ->
  forall m, In m ms ->
  exists ch s, In ch l /\ score q_vec (get_embedding ch) = Ok s
               /\ (0 <? s)%float = true /\ m = make_match ch s.
Proof.
  induction l as [| ch l IH]; intros ms H m Hm; simpl in H.
  - injection H as <-. contradiction.
  - bind_inv H. bind_inv H. injection H as <-.
    destruct (0 <? a)%float eqn:Hpos.
    + destruct Hm as [<- | Hm].
      * exists ch, a. auto using in_eq.
      * destruct (IH _ Ha0 _ Hm) as (ch' & s & Hin & Hs).
        exists ch', s. split; [now right | exact Hs].
    + destruct (IH _ Ha0 _ Hm) as (ch' & s & Hin & Hs).
      exists ch', s. split; [now right | exact Hs].
Qed.

Lemma insert_desc_perm (m : match_record) (l : list match_record) :
  Permutation (insert_desc m l) (m :: l).
Proof.
  induction l as [| x l IH]; simpl; [reflexivity |].
  destruct (m_score m <? m_score x)%float; [| reflexivity].
  rewrite IH. apply perm_swap.
Qed.

Lemma sort_desc_perm (l : list match_record) : Permutation (sort_desc l) l.
Proof.
  induction l as [| m l IH]; simpl; [reflexivity |].
  rewrite insert_desc_perm. now constructor.
Qed.

Lemma firstn_incl {A} (n : nat) : forall (l : list A) (x : A),
  In x (firstn n l) -> In x l.
Proof.
  induction n as [| n IH]; intros [| a l] x; simpl; try contradiction.
  intros [-> | H]; [now left | right; now apply IH].
Qed.

Lemma take_incl {A} (l : list A) (k : Z) (x : A) : In x (take l k) -> In x l.
Proof.
  unfold take. destruct (0 <=? k)%Z; apply firstn_incl.
Qed.

Lemma take_length_le {A} (l : list A) (k : Z) : length (take l k) <= length l.
Proof.
  unfold take. destruct (0 <=? k)%Z; rewrite length_firstn; lia.
Qed.

(** Every match of a search is made from a scanned chunk. *)
Lemma search_matches_from_chunks (st : database) (query : str) (top_k : Z)
      (r : search_response) :
  semantic_search (Some st) query top_k = Ok r ->
  forall m, In m (matches r) ->
  exists ch s, In ch (firstn 2000 (chunk st))
               /\ score (query_vector query) (get_embedding ch) = Ok s
               /\ (0 <? s)%float = true /\ m = make_match ch s.
Proof.
  unfold semantic_search. destruct (length query <? 1); [discriminate |].
  intros H m Hm. bind_inv H. injection H as <-. simpl in Hm.
  apply take_incl in Hm.
  apply (Permutation_in _ (sort_desc_perm a)) in Hm.
  exact (@scan_ok _ _ _ Ha _ Hm).
Qed.

(* ================================================================== *)
(** * Ingest, then delete *)
(* ================================================================== *)

Section RoundTrip.

Variable decode : list Byte.byte -> str.

Lemma insert_chunks_fold {A} (mk : A -> chunk_record) (l : list A) :
  forall st,
    fold_left (fun st' x => Mongo.insert_chunk st' (mk x)) l st =
    {| document := document st;
       chunk := chunk st ++ map mk l;
       next_oid := next_oid st |}.
Proof.
  induction l as [| x l IH]; intros st; simpl.
  - rewrite app_nil_r. now destruct st.
  - rewrite IH. simpl. now rewrite <- app_assoc.
Qed.

(** What one turn of the ingestion loop leaves in the store. *)
Lemma ingest_file_run (st : database) (f : UploadFile) :
  exists (d : Document) (cs : list chunk_record),
    ingest_file decode st f =
    ({| document := document st ++ [{| _id := IdObject (next_oid st);
                                      body := d |}];
        chunk := chunk st ++ cs;
        next_oid := N.succ (next_oid st) |},
     Bson.to_str (next_oid st))
    /\ title d = filename f
    /\ cs <> []
    /\ Forall (fun c => doc_id c = IdStr (Bson.to_str (next_oid st))) cs.
Proof.
  unfold ingest_file, create_document, Mongo.insert_document. cbv zeta.
  rewrite insert_chunks_fold. cbn [document chunk next_oid].
  eexists. eexists. split; [reflexivity |]. split; [reflexivity |].
  split.
  - intros H. apply (f_equal (@length chunk_record)) in H.
    rewrite length_map in H. unfold enumerate in H.
    rewrite length_combine, length_seq, Nat.min_id in H.
    pose proof (chunks_of_nonempty
                  match content f with [] => [] | _ => decode (content f) end)
      as Hlen.
    change (length (@nil chunk_record)) with 0 in H.
    pose proof (eq_ind _ (fun n => 1 <= n) Hlen _ H) as Hmax.
    cbv beta in Hmax. lia.
  - apply Forall_forall. intros c Hc. apply in_map_iff in Hc.
    destruct Hc as (x & <- & _). reflexivity.
Qed.

End RoundTrip.

(** The stores reached from the empty one keep their ids below the
    counter. *)
Lemma ids_below_empty : ids_below empty_db.
Proof. intros d o []. Qed.

Lemma ids_below_ingest (decode : list Byte.byte -> str) (st : database)
      (f : UploadFile) :
  ids_below st -> ids_below (fst (ingest_file decode st f)).
Proof.
  intros Hst.
  destruct (ingest_file_run decode st f) as (d & cs & -> & _).
  intros x o Hx Hid. cbn [fst document next_oid] in *.
  apply in_app_or in Hx. destruct Hx as [Hx | [<- | []]].
  - specialize (Hst x o Hx Hid). lia.
  - cbn in Hid. injection Hid as <-. lia.
Qed.

Lemma remove_first_incl (key : ident) (l : list document_record) :
  forall d, In d (fst (Mongo.remove_first key l)) -> In d l.
Proof.
  induction l as [| x l IH]; intros d; simpl; [auto |].
  destruct (ident_eqb (_id x) key); [now right |].
  destruct (Mongo.remove_first key l) as [r n]. simpl in *.
  intros [<- | H]; [now left | right; now apply IH].
Qed.

Lemma ids_below_delete (st st' : database) (id : str) :
  ids_below st -> fst (delete_document (Some st) id) = Some st' ->
  ids_below st'.
Proof.
  intros Hst. rewrite delete_document_run. cbv zeta. cbn [fst].
  intros [= <-] d o Hd. cbn [document next_oid Mongo.delete_many] in *.
  unfold Mongo.delete_one in *.
  match goal with
  | H : context [Mongo.remove_first ?k ?l] |- _ =>
      pose proof (remove_first_incl k l d) as Hincl;
      destruct (Mongo.remove_first k l) as [r n]
  end.
  cbn [fst document next_oid] in *. apply Hst. now apply Hincl.
Qed.

Lemma delete_many_spec (st : database) (key : ident) :
  forall c, In c (chunk (Mongo.delete_many st key)) -> doc_id c <> key.
Proof.
  intros c Hc. simpl in Hc. apply filter_In in Hc. destruct Hc as [_ Hc].
  intros E. rewrite E, ident_eqb_refl in Hc. discriminate.
Qed.

Lemma filter_drop_all {A} (p : A -> bool) (l : list A) :
  Forall (fun x => p x = false) l -> filter p l = [].
Proof.
  induction 1 as [| x l Hx _ IH]; simpl; [reflexivity |]. now rewrite Hx.
Qed.

(** C5. Ingesting a file into a store and then deleting by the
    identifier that ingestion put on the chunks succeeds, removes the
    Document record (the documents are those from before the
    ingestion) and every chunk carrying that identifier, so that no
    search over the resulting store returns a match with it. *)
Theorem ingest_delete_roundtrip
        (decode : list Byte.byte -> str) (st : database) (f : UploadFile) :
  store_ok st ->
  let st1 := fst (ingest_file decode st f) in
  let id := snd (ingest_file decode st f) in
  (exists d, In d (document st1) /\ _id d = IdObject (next_oid st)
             /\ title (body d) = filename f)
  /\ (exists c, In c (chunk st1) /\ doc_id c = IdStr id)
  /\ exists st2,
       delete_document (Some st1) id = (Some st2, Ok true)
       /\ document st2 = document st
       /\ (forall d, In d (document st2) -> _id d <> IdObject (next_oid st))
       /\ chunk st2 =
          filter (fun c => negb (ident_eqb (doc_id c) (IdStr id))) (chunk st)
       /\ (forall c, In c (chunk st2) -> doc_id c <> IdStr id)
       /\ (forall query top_k r,
             semantic_search (Some st2) query top_k = Ok r ->
             forall m, In m (matches r) -> m_doc_id m <> IdStr id).
Proof.
  intros [Hids Hbound].
  destruct (ingest_file_run decode st f) as (d & cs & Hrun & Htitle & Hne & Hcs).
  rewrite Hrun. cbn [fst snd].
  set (o := next_oid st) in *. set (id := Bson.to_str o) in *.
  assert (forall x, In x (document st) -> _id x <> IdObject o) as Hfresh.
  { intros x Hx Heq. specialize (Hids x o Hx Heq). unfold o in Hids. lia. }
  split.
  { exists {| _id := IdObject o; body := d |}. cbn.
    split; [apply in_or_app; right; now left | auto]. }
  split.
  { destruct cs as [| c cs]; [congruence |]. exists c. cbn.
    split; [apply in_or_app; right; now left | now inversion Hcs]. }
  rewrite delete_document_run.
  unfold id at 1. rewrite HexFacts.of_str_to_str by exact Hbound. fold id.
  cbv zeta. unfold Mongo.delete_one. cbn [document chunk next_oid].
  rewrite MongoFacts.remove_first_last by auto. cbn [fst snd Nat.eqb].
  eexists. split; [reflexivity |].
  assert (filter (fun c => negb (ident_eqb (doc_id c) (IdStr id)))
                 (chunk st ++ cs)
          = filter (fun c => negb (ident_eqb (doc_id c) (IdStr id))) (chunk st))
    as Hfilter.
  { rewrite filter_app, (@filter_drop_all _ _ cs), app_nil_r; [reflexivity |].
    eapply Forall_impl; [| exact Hcs]. cbn. intros c ->.
    now rewrite ident_eqb_refl. }
  cbn [document chunk Mongo.delete_many].
  split; [reflexivity |]. split; [exact Hfresh |].
  split; [exact Hfilter |].
  assert (forall c,
            In c (filter (fun c => negb (ident_eqb (doc_id c) (IdStr id)))
                         (chunk st ++ cs)) ->
            doc_id c <> IdStr id) as Hgone.
  { intros c Hc. apply filter_In in Hc. destruct Hc as [_ Hc].
    intros E. rewrite E, ident_eqb_refl in Hc. discriminate. }
  split; [exact Hgone |].
  intros query top_k r Hr m Hm.
  destruct (@search_matches_from_chunks _ _ _ _ Hr _ Hm)
    as (ch & s & Hch & _ & _ & ->).
  cbn. apply Hgone. apply firstn_incl in Hch. exact Hch.
Qed.

(** The round trip on the empty store and a one-chunk file. *)
Lemma ingest_delete_roundtrip_witness :
  store_ok empty_db
  /\ exists st2,
       delete_document
         (Some (fst (ingest_file ascii_decode empty_db cat_file)))
         (snd (ingest_file ascii_decode empty_db cat_file))
       = (Some st2, Ok true)
       /\ document st2 = [] /\ chunk st2 = [].
Proof.
  assert (store_ok empty_db) as Hok.
  { split; [intros d o [] | reflexivity]. }
  split; [exact Hok |].
  destruct (@ingest_delete_roundtrip ascii_decode empty_db cat_file Hok)
    as (_ & _ & st2 & Hdel & Hdoc & _ & Hchunk & _).
  exists st2. split; [exact Hdel |]. split; [exact Hdoc | exact Hchunk].
Defined.

(* ================================================================== *)
(** * Binary64: the order *)
(* ================================================================== *)

Module FloatOrder.

Local Open Scope Z_scope.

Lemma digits2_pos_bounds (m : positive) :
  2 ^ (Zpos (digits2_pos m) - 1) <= Zpos m < 2 ^ Zpos (digits2_pos m).
Proof.
  induction m as [m IH | m IH |]; cbn [digits2_pos].
  - rewrite Pos2Z.inj_succ.
    replace (Z.succ (Zpos (digits2_pos m)) - 1)
      with (Z.succ (Zpos (digits2_pos m) - 1)) by lia.
    rewrite !Z.pow_succ_r by lia. lia.
  - rewrite Pos2Z.inj_succ.
    replace (Z.succ (Zpos (digits2_pos m)) - 1)
      with (Z.succ (Zpos (digits2_pos m) - 1)) by lia.
    rewrite !Z.pow_succ_r by lia. lia.
  - simpl. lia.
Qed.

(** What validity says of a finite binary64 number. *)
Lemma valid_finite (s : bool) (m : positive) (e : Z) :
  valid_binary (S754_finite s m e) = true ->
  -1074 <= e <= 971
  /\ Zpos m < 9007199254740992
  /\ (-1074 < e -> Zpos (digits2_pos m) = 53).
Proof.
  unfold valid_binary, bounded, canonical_mantissa, fexp, SpecFloat.emin,
    prec, emax.
  rewrite andb_true_iff, Z.eqb_eq, Z.leb_le. intros [Hc Hb].
  pose proof (digits2_pos_bounds m) as [_ Hm].
  assert (Zpos (digits2_pos m) <= 53) as Hd by lia.
  repeat split; try lia.
  apply (Z.lt_le_trans _ _ _ Hm).
  change 9007199254740992 with (2 ^ 53).
  apply Z.pow_le_mono_r; lia.
Qed.

Ltac compare_goal :=
  first [apply Z.compare_eq_iff | apply Z.compare_lt_iff
         | apply Z.compare_gt_iff]; lia.

Lemma SFcompare_key (x y : spec_float) :
  valid_binary x = true -> valid_binary y = true ->
  SFcompare x y =
  match sf_key x, sf_key y with
  | Some a, Some b => Some (a ?= b)
  | _, _ => None
  end.
Proof.
  intros Hx Hy.
  destruct x as [sx | sx | | sx mx ex], y as [sy | sy | | sy my ey];
    try reflexivity;
    try (destruct sx; reflexivity);
    try (destruct sy; reflexivity);
    try (destruct sx, sy; reflexivity);
    try apply valid_finite in Hx; try apply valid_finite in Hy;
    cbn [SFcompare sf_key]; cbv zeta; f_equal.
  - destruct sy; symmetry; compare_goal.
  - destruct sx, sy; symmetry; compare_goal.
  - destruct sx; symmetry; compare_goal.
  - destruct sx, sy; symmetry; compare_goal.
  - rewrite Pos.compare_cont_spec. cbn [Pos.switch_Eq].
    change (Pos.compare mx my) with (Z.compare (Zpos mx) (Zpos my)).
    destruct sx, sy; symmetry;
      destruct (Z.compare_spec ex ey) as [He | He | He];
      destruct (Z.compare_spec (Zpos mx) (Zpos my)) as [Hm | Hm | Hm];
      cbn [CompOpp]; try (injection Hm as ->); subst; compare_goal.
Qed.

Local Open Scope float_scope.

Lemma ltb_key (x y : float) :
  (x <? y) = match key x, key y with
             | Some a, Some b => (a <? b)%Z
             | _, _ => false
             end.
Proof.
  rewrite ltb_spec. unfold SFltb, key.
  rewrite SFcompare_key by apply Prim2SF_valid.
  destruct (sf_key (Prim2SF x)), (sf_key (Prim2SF y)); reflexivity.
Qed.

Lemma leb_key (x y : float) :
  (x <=? y) = match key x, key y with
              | Some a, Some b => (a <=? b)%Z
              | _, _ => false
              end.
Proof.
  rewrite leb_spec. unfold SFleb, key.
  rewrite SFcompare_key by apply Prim2SF_valid.
  destruct (sf_key (Prim2SF x)) as [a |], (sf_key (Prim2SF y)) as [b |];
    reflexivity.
Qed.

Lemma eqb_key (x y : float) :
  (x =? y) = match key x, key y with
             | Some a, Some b => (a =? b)%Z
             | _, _ => false
             end.
Proof.
  rewrite eqb_spec. unfold SFeqb, key.
  rewrite SFcompare_key by apply Prim2SF_valid.
  destruct (sf_key (Prim2SF x)) as [a |], (sf_key (Prim2SF y)) as [b |];
    try reflexivity.
  rewrite Z.eqb_compare. reflexivity.
Qed.

(** Comparisons of floats become comparisons of their keys. *)
Ltac to_keys :=
  rewrite ?ltb_key, ?leb_key, ?eqb_key in *;
  repeat match goal with
         | H : context [key ?x] |- _ => destruct (key x); try discriminate
         | |- context [key ?x] => destruct (key x); try discriminate
         end;
  rewrite ?Z.ltb_lt, ?Z.leb_le, ?Z.eqb_eq, ?Z.ltb_ge, ?Z.leb_gt,
    ?Z.eqb_neq in *.

Lemma ltb_leb (x y : float) : (x <? y) = true -> (x <=? y) = true.
Proof. intros H. to_keys. lia. Qed.

Lemma ltb_irrefl (x : float) : (x <? x) = false.
Proof.
  rewrite ltb_key. destruct (key x); [apply Z.ltb_irrefl | reflexivity].
Qed.

(** A float above [0] is a number. *)
Lemma positive_key (x : float) :
  (0 <? x) = true -> exists k, key x = Some k.
Proof.
  rewrite ltb_key. destruct (key 0), (key x); try discriminate. eauto.
Qed.

Lemma not_ltb_leb (x y : float) :
  (0 <? x) = true -> (0 <? y) = true -> (x <? y) = false -> (y <=? x) = true.
Proof.
  intros Hx Hy H. apply positive_key in Hx, Hy.
  destruct Hx as [a Ha], Hy as [b Hb].
  rewrite ltb_key, Ha, Hb in H. rewrite leb_key, Ha, Hb.
  apply Z.leb_le. apply Z.ltb_ge in H. exact H.
Qed.

Lemma leb_trans (x y z : float) :
  (x <=? y) = true -> (y <=? z) = true -> (x <=? z) = true.
Proof. intros H1 H2. to_keys. lia. Qed.

Lemma ltb_eqb_apart (x y s : float) :
  (x <? y) = true -> (x =? s) = true -> (y =? s) = false.
Proof.
  intros H1 H2. rewrite ltb_key in H1. rewrite eqb_key in H2.
  rewrite eqb_key.
  destruct (key x), (key y), (key s); try discriminate; try reflexivity.
  apply Z.ltb_lt in H1. apply Z.eqb_eq in H2. apply Z.eqb_neq. lia.
Qed.

Lemma leb_antisym_eqb (x y : float) :
  (x <=? y) = true -> (y <=? x) = true -> (x =? y) = true.
Proof. intros H1 H2. to_keys. lia. Qed.

End FloatOrder.

(* ================================================================== *)
(** * Binary64: rounding *)
(* ================================================================== *)

Module FloatRound.

Import FloatOrder.
Local Open Scope Z_scope.

Lemma Zdigits2_pos (m : Z) : 0 < m -> 0 < Zdigits2 m.
Proof. destruct m; simpl; lia. Qed.

Lemma Zdigits2_bounds (m : Z) :
  0 < m -> 2 ^ (Zdigits2 m - 1) <= m < 2 ^ Zdigits2 m.
Proof.
  destruct m as [| p | p]; try lia. intros _. apply digits2_pos_bounds.
Qed.

Lemma Zdigits2_mono (a b : Z) : 0 < a -> a <= b -> Zdigits2 a <= Zdigits2 b.
Proof.
  intros Ha Hab.
  pose proof (Zdigits2_bounds a Ha) as [Hlo _].
  pose proof (Zdigits2_bounds b ltac:(lia)) as [_ Hhi].
  pose proof (Zdigits2_pos a Ha).
  assert (2 ^ (Zdigits2 a - 1) < 2 ^ Zdigits2 b) as Hlt by lia.
  apply Z.pow_lt_mono_r_iff in Hlt; try lia.
  pose proof (Zdigits2_pos b ltac:(lia)). lia.
Qed.

(** ** Shifting right *)

Lemma shr_1_m (mrs : shr_record) :
  0 <= shr_m mrs -> shr_m (shr_1 mrs) = shr_m mrs / 2.
Proof.
  destruct mrs as [m r s]. cbn [shr_m]. intros Hm.
  destruct m as [| p | p]; try lia; [reflexivity |].
  destruct p as [p | p |]; cbn [shr_1 shr_m].
  - rewrite Pos2Z.inj_xI. apply Z.div_unique with (r := 1); lia.
  - rewrite Pos2Z.inj_xO. apply Z.div_unique with (r := 0); lia.
  - reflexivity.
Qed.

Lemma iter_shr_1_m (p : positive) : forall mrs,
  0 <= shr_m mrs ->
  shr_m (iter_pos shr_1 p mrs) = shr_m mrs / 2 ^ Zpos p.
Proof.
  assert (forall m k, 0 <= m -> 0 < k -> 0 <= m / k) as Hdiv.
  { intros m k Hm Hk. apply Z.div_pos; lia. }
  induction p as [p IH | p IH |]; intros mrs Hm; cbn [iter_pos].
  - assert (0 <= shr_m (shr_1 mrs)) as H1
      by (rewrite shr_1_m by assumption; apply Hdiv; lia).
    assert (0 <= shr_m (iter_pos shr_1 p (shr_1 mrs))) as H2
      by (rewrite IH by assumption; apply Hdiv; lia).
    rewrite IH, IH, shr_1_m by assumption.
    rewrite !Z.div_div by lia. f_equal.
    replace (Zpos p~1) with (1 + Zpos p + Zpos p) by lia.
    rewrite !Z.pow_add_r by lia. rewrite Z.pow_1_r. ring.
  - assert (0 <= shr_m (iter_pos shr_1 p mrs)) as H2
      by (rewrite IH by assumption; apply Hdiv; lia).
    rewrite IH, IH by assumption.
    rewrite !Z.div_div by lia. f_equal.
    replace (Zpos p~0) with (Zpos p + Zpos p) by lia.
    rewrite !Z.pow_add_r by lia. ring.
  - rewrite shr_1_m by assumption. reflexivity.
Qed.

(** A shift keeps the mantissa non-negative and never lowers the
    exponent. *)
Lemma shr_nonneg (mrs : shr_record) (e n : Z) :
  0 <= shr_m mrs ->
  0 <= shr_m (fst (shr mrs e n)) /\ e <= snd (shr mrs e n).
Proof.
  intros Hm. destruct n as [| p | p]; cbn [shr fst snd]; try lia.
  rewrite iter_shr_1_m by assumption. split; [| lia].
  apply Z.div_pos; lia.
Qed.

Lemma shr_record_of_loc_m (m : Z) (l : location) :
  shr_m (shr_record_of_loc m l) = m.
Proof. destruct l as [| []]; reflexivity. Qed.

Lemma shr_fexp_nonneg (m e : Z) (l : location) :
  0 <= m ->
  0 <= shr_m (fst (shr_fexp prec emax m e l))
  /\ e <= snd (shr_fexp prec emax m e l).
Proof.
  intros Hm. unfold shr_fexp. apply shr_nonneg.
  now rewrite shr_record_of_loc_m.
Qed.

(** A mantissa whose leading bit lies above the least exponent keeps a
    bit through the shift. *)
Lemma shr_fexp_pos (m e : Z) (l : location) :
  0 < m -> -1074 < Zdigits2 m + e ->
  0 < shr_m (fst (shr_fexp prec emax m e l))
  /\ -1074 < Zdigits2 (shr_m (fst (shr_fexp prec emax m e l)))
             + snd (shr_fexp prec emax m e l).
Proof.
  intros Hm Hd. unfold shr_fexp, fexp, SpecFloat.emin, prec, emax.
  set (n := Z.max (Zdigits2 m + e - 53) (3 - 1024 - 53) - e).
  destruct n as [| p | p] eqn:En; cbn [shr fst snd];
    rewrite ?shr_record_of_loc_m; try (split; assumption).
  rewrite iter_shr_1_m by (rewrite shr_record_of_loc_m; lia).
  rewrite shr_record_of_loc_m.
  pose proof (Zdigits2_bounds m Hm) as [Hlo _].
  assert (0 < m / 2 ^ Zpos p) as Hpos.
  { apply Z.div_str_pos. split; [apply Z.pow_pos_nonneg; lia |].
    apply Z.le_trans with (2 ^ (Zdigits2 m - 1)); [| exact Hlo].
    apply Z.pow_le_mono_r; lia. }
  split; [exact Hpos |].
  pose proof (Zdigits2_pos _ Hpos). lia.
Qed.

Lemma round_nearest_even_ge (m : Z) (l : location) :
  m <= round_nearest_even m l <= m + 1.
Proof.
  destruct l as [| []]; cbn [round_nearest_even]; try lia.
  destruct (Z.even m); lia.
Qed.

(** ** The result of a rounding *)

(** Rounding a non-negative mantissa gives a zero, a finite number or
    an infinity of the given sign, with an exponent not below the one
    given. *)
Lemma binary_round_aux_shape (s : bool) (m e : Z) (l : location) :
  0 <= m ->
  match binary_round_aux prec emax s m e l with
  | S754_zero s' => s' = s
  | S754_infinity s' => s' = s
  | S754_finite s' _ e' => s' = s /\ e <= e'
  | S754_nan => False
  end.
Proof.
  intros Hm. unfold binary_round_aux.
  pose proof (shr_fexp_nonneg m e l Hm) as [H1 He1].
  destruct (shr_fexp prec emax m e l) as [mrs1 e1]. cbn [fst snd] in *.
  pose proof (round_nearest_even_ge (shr_m mrs1) (loc_of_shr_record mrs1))
    as Hr.
  pose proof (shr_fexp_nonneg
                (round_nearest_even (shr_m mrs1) (loc_of_shr_record mrs1))
                e1 loc_Exact ltac:(lia)) as [H2 He2].
  destruct (shr_fexp prec emax _ e1 loc_Exact) as [mrs2 e2].
  cbn [fst snd] in *.
  destruct (shr_m mrs2) as [| p | p]; try lia; [reflexivity |].
  destruct (e2 <=? emax - prec); [split; [reflexivity | lia] | reflexivity].
Qed.

(** Above the least exponent the result is not a zero. *)
Lemma binary_round_aux_nonzero (s : bool) (m e : Z) (l : location) :
  0 < m -> -1074 < Zdigits2 m + e ->
  match binary_round_aux prec emax s m e l with
  | S754_zero _ | S754_nan => False
  | _ => True
  end.
Proof.
  intros Hm Hd. unfold binary_round_aux.
  pose proof (shr_fexp_pos m e l Hm Hd) as [H1 Hd1].
  destruct (shr_fexp prec emax m e l) as [mrs1 e1]. cbn [fst snd] in *.
  pose proof (round_nearest_even_ge (shr_m mrs1) (loc_of_shr_record mrs1))
    as Hr.
  set (m2 := round_nearest_even (shr_m mrs1) (loc_of_shr_record mrs1)) in *.
  assert (0 < m2) as Hm2 by lia.
  assert (-1074 < Zdigits2 m2 + e1) as Hd2.
  { pose proof (Zdigits2_mono (shr_m mrs1) m2 H1 ltac:(lia)). lia. }
  pose proof (shr_fexp_pos m2 e1 loc_Exact Hm2 Hd2) as [H2 _].
  destruct (shr_fexp prec emax m2 e1 loc_Exact) as [mrs2 e2].
  cbn [fst snd] in *.
  destruct (shr_m mrs2) as [| p | p]; try lia.
  destruct (e2 <=? emax - prec); exact I.
Qed.

End FloatRound.

(* ================================================================== *)
(** * Binary64: the operations of [score] *)
(* ================================================================== *)

Module FloatArith.

Import FloatOrder FloatRound.
Local Open Scope Z_scope.

Lemma binary_round_aux_pos (s : bool) (m e : Z) (l : location) :
  0 <= m -> sf_pos (binary_round_aux prec emax s m e l) = negb s.
Proof.
  intros Hm. pose proof (binary_round_aux_shape s m e l Hm) as H.
  destruct (binary_round_aux prec emax s m e l) as [s' | s' | | s' m' e'];
    cbn [sf_pos]; [| | contradiction | destruct H as [H _]];
    now rewrite H.
Qed.

Lemma binary_round_shape (s : bool) (m : positive) (e : Z) :
  sf_pos (binary_round prec emax s m e) = negb s.
Proof.
  unfold binary_round.
  destruct (shl_align m e _) as [mz ez].
  apply binary_round_aux_pos. lia.
Qed.

(** ** Squares and sums *)

Lemma SFmul_self_pos (x : spec_float) :
  sf_is_nan x = false -> sf_pos (SF64mul x x) = true.
Proof.
  destruct x as [s | s | | s m e]; cbn [sf_is_nan]; try discriminate;
    intros _; unfold SF64mul, SFmul; try (destruct s; reflexivity).
  rewrite binary_round_aux_pos by lia. destruct s; reflexivity.
Qed.

Lemma SFmul_self_nonneg (x : spec_float) : sf_nonneg (SF64mul x x) = true.
Proof.
  unfold sf_nonneg. destruct (sf_is_nan x) eqn:E.
  - destruct x; try discriminate. reflexivity.
  - rewrite (SFmul_self_pos x E). apply orb_true_r.
Qed.

Lemma SFadd_pos (x y : spec_float) :
  sf_pos x = true -> sf_pos y = true -> sf_pos (SF64add x y) = true.
Proof.
  destruct x as [sx | sx | | sx mx ex], y as [sy | sy | | sy my ey];
    cbn [sf_pos]; try discriminate;
    destruct sx; try discriminate; destruct sy; try discriminate;
    intros _ _; try reflexivity.
  unfold SF64add, SFadd. cbn [cond_Zopp]. cbv zeta.
  rewrite <- Pos2Z.inj_add. cbn [binary_normalize].
  apply binary_round_shape.
Qed.

Lemma SFadd_nonneg (x y : spec_float) :
  sf_nonneg x = true -> sf_nonneg y = true -> sf_nonneg (SF64add x y) = true.
Proof.
  unfold sf_nonneg. intros Hx Hy.
  destruct (sf_is_nan x) eqn:Ex; [destruct x; try discriminate; reflexivity |].
  destruct (sf_is_nan y) eqn:Ey;
    [destruct y; try discriminate; destruct x; reflexivity |].
  cbn [orb] in Hx, Hy. rewrite (SFadd_pos _ _ Hx Hy). apply orb_true_r.
Qed.

(** ** Square roots *)

Lemma SFsqrt_core_shape (m : positive) (e : Z) :
  -1074 <= e ->
  let '(q, e', _) := SFsqrt_core_binary prec emax (Zpos m) e in
  0 <= q /\ -589 <= e'.
Proof.
  intros He. unfold SFsqrt_core_binary. cbv zeta.
  set (e' := Z.min _ _).
  set (m' := match e - 2 * e' with
             | 0 => Zpos m
             | Zpos _ => Z.shiftl (Zpos m) (e - 2 * e')
             | Zneg _ => 0
             end).
  assert (0 <= m') as Hm'.
  { unfold m'. destruct (e - 2 * e'); try lia. apply Z.shiftl_nonneg. lia. }
  pose proof (Z.sqrtrem_spec m' Hm') as Hs.
  destruct (Z.sqrtrem m') as [q r]. split; [lia |].
  unfold e', fexp, SpecFloat.emin, prec, emax.
  pose proof (Zdigits2_pos (Zpos m) ltac:(lia)) as Hd.
  rewrite !Z.div2_div.
  apply Z.min_glb.
  - apply Z.le_trans with ((Zdigits2 (Zpos m) + e + 1) / 2 - 53); [| lia].
    assert (-536 <= (Zdigits2 (Zpos m) + e + 1) / 2); [| lia].
    apply Z.div_le_lower_bound; lia.
  - apply Z.div_le_lower_bound; lia.
Qed.

(** A square root is a zero, or large. *)
Lemma SFsqrt_large (x : spec_float) :
  valid_binary x = true ->
  sf_is_zero (SF64sqrt x) = true \/ sf_large (SF64sqrt x) = true.
Proof.
  intros Hv. destruct x as [s | s | | s m e]; unfold SF64sqrt, SFsqrt.
  - now left.
  - right. destruct s; reflexivity.
  - now right.
  - destruct s; [now right |].
    apply valid_finite in Hv.
    pose proof (SFsqrt_core_shape m e ltac:(lia)) as Hc.
    destruct (SFsqrt_core_binary prec emax (Zpos m) e) as [[q e'] l].
    destruct Hc as [Hq He'].
    pose proof (binary_round_aux_shape false q e' l Hq) as H.
    destruct (binary_round_aux prec emax false q e' l);
      try contradiction; [now left | now right |].
    right. cbn [sf_large]. apply Z.leb_le. lia.
Qed.

Lemma SFsqrt_pos (x : spec_float) :
  sf_pos x = true -> sf_pos (SF64sqrt x) = true.
Proof.
  destruct x as [s | s | | s m e]; cbn [sf_pos]; try discriminate;
    destruct s; try discriminate; intros _; try reflexivity.
  unfold SF64sqrt, SFsqrt.
  pose proof (Z.sqrtrem_spec) as Hspec.
  unfold SFsqrt_core_binary. cbv zeta.
  set (m' := match _ with 0 => Zpos m | Zpos _ => _ | Zneg _ => 0 end).
  assert (0 <= m') as Hm'.
  { unfold m'. destruct (_ - _); try lia. apply Z.shiftl_nonneg. lia. }
  specialize (Hspec m' Hm').
  destruct (Z.sqrtrem m') as [q r].
  rewrite binary_round_aux_pos by lia. reflexivity.
Qed.

(** ** Products of large numbers *)

Lemma large_mantissa (s : bool) (m : positive) (e : Z) :
  valid_binary (S754_finite s m e) = true -> -589 <= e ->
  2 ^ 52 <= Zpos m.
Proof.
  intros Hv He. apply valid_finite in Hv. destruct Hv as (_ & _ & Hd).
  pose proof (digits2_pos_bounds m) as [Hlo _].
  rewrite Hd in Hlo by lia. exact Hlo.
Qed.

Lemma SFmul_large (x y : spec_float) :
  valid_binary x = true -> valid_binary y = true ->
  sf_large x = true -> sf_large y = true ->
  sf_is_zero (SF64mul x y) = false.
Proof.
  intros Hvx Hvy Hx Hy.
  destruct x as [sx | sx | | sx mx ex], y as [sy | sy | | sy my ey];
    cbn [sf_large] in Hx, Hy; try discriminate; try reflexivity.
  apply Z.leb_le in Hx, Hy.
  pose proof (large_mantissa sx mx ex Hvx Hx) as Hmx.
  pose proof (large_mantissa sy my ey Hvy Hy) as Hmy.
  unfold SF64mul, SFmul.
  assert (-1074 < Zdigits2 (Zpos (mx * my)) + (ex + ey)) as Hd.
  { pose proof (Zdigits2_bounds (Zpos (mx * my)) ltac:(lia)) as [_ Hhi].
    assert (2 ^ 104 <= Zpos (mx * my)) as Hprod.
    { rewrite Pos2Z.inj_mul. change (2 ^ 104) with (2 ^ 52 * 2 ^ 52).
      apply Z.mul_le_mono_nonneg; lia. }
    assert (2 ^ 104 < 2 ^ Zdigits2 (Zpos (mx * my))) as Hlt by lia.
    apply Z.pow_lt_mono_r_iff in Hlt; try lia.
    pose proof (Zdigits2_pos (Zpos (mx * my)) ltac:(lia)). lia. }
  pose proof (binary_round_aux_nonzero (xorb sx sy) (Zpos (mx * my))
                (ex + ey) loc_Exact ltac:(lia) Hd) as H.
  destruct (binary_round_aux prec emax _ _ _ _); try contradiction;
    reflexivity.
Qed.

Lemma SFmul_pos (x y : spec_float) :
  sf_pos x = true -> sf_pos y = true ->
  sf_is_zero x = false -> sf_is_zero y = false ->
  sf_pos (SF64mul x y) = true.
Proof.
  destruct x as [sx | sx | | sx mx ex], y as [sy | sy | | sy my ey];
    cbn [sf_pos sf_is_zero]; try discriminate;
    destruct sx; try discriminate; destruct sy; try discriminate;
    intros _ _ _ _; try reflexivity.
  unfold SF64mul, SFmul. cbn [xorb].
  rewrite binary_round_aux_pos by lia. reflexivity.
Qed.

End FloatArith.

(* ================================================================== *)
(** * The score never raises on term-weight maps *)
(* ================================================================== *)

Module ScoreFacts.

Import FloatOrder FloatRound FloatArith.
Local Open Scope float_scope.

Lemma Prim2SF_zero : Prim2SF 0 = S754_zero false.
Proof. reflexivity. Qed.

Lemma truthy_zero (x : float) :
  Num.truthy x = negb (sf_is_zero (Prim2SF x)).
Proof.
  unfold Num.truthy. rewrite eqb_spec, Prim2SF_zero. f_equal.
  destruct (Prim2SF x) as [s | s | | s m e]; try reflexivity;
    destruct s; reflexivity.
Qed.

Lemma nonneg_not_negative (x : float) :
  sf_nonneg (Prim2SF x) = true -> (x <? 0) = false.
Proof.
  rewrite ltb_spec, Prim2SF_zero.
  destruct (Prim2SF x) as [s | s | | s m e]; try reflexivity;
    destruct s; try reflexivity; discriminate.
Qed.

Lemma pos_nonneg (x : spec_float) : sf_pos x = true -> sf_nonneg x = true.
Proof. unfold sf_nonneg. intros ->. apply orb_true_r. Qed.

(** ** Sums of squares *)

Lemma sum_nonneg (l : list float) : forall acc,
  sf_nonneg (Prim2SF acc) = true ->
  Forall (fun x => sf_nonneg (Prim2SF x) = true) l ->
  sf_nonneg (Prim2SF (fold_left PrimFloat.add l acc)) = true.
Proof.
  induction l as [| x l IH]; intros acc Hacc Hl; simpl; [exact Hacc |].
  inversion Hl as [| ? ? Hx Hl']; subst.
  apply IH; [| exact Hl']. rewrite add_spec. now apply SFadd_nonneg.
Qed.

Lemma sum_pos (l : list float) : forall acc,
  sf_pos (Prim2SF acc) = true ->
  Forall (fun x => sf_pos (Prim2SF x) = true) l ->
  sf_pos (Prim2SF (fold_left PrimFloat.add l acc)) = true.
Proof.
  induction l as [| x l IH]; intros acc Hacc Hl; simpl; [exact Hacc |].
  inversion Hl as [| ? ? Hx Hl']; subst.
  apply IH; [| exact Hl']. rewrite add_spec. now apply SFadd_pos.
Qed.

Lemma norm_sq_nonneg (v : Dict.dict float) :
  sf_nonneg (Prim2SF (norm_sq v)) = true.
Proof.
  unfold norm_sq, Num.sum. apply sum_nonneg; [reflexivity |].
  apply Forall_forall. intros x Hx. apply in_map_iff in Hx.
  destruct Hx as (y & <- & _). rewrite mul_spec. apply SFmul_self_nonneg.
Qed.

Lemma math_sqrt_norm_sq (v : Dict.dict float) :
  Num.math_sqrt (norm_sq v) = Ok (norm v).
Proof.
  unfold Num.math_sqrt.
  now rewrite (nonneg_not_negative _ (norm_sq_nonneg v)).
Qed.

(** ** The divisor *)

Lemma sqrt_truthy_large (x : float) :
  Num.truthy (PrimFloat.sqrt x) = true ->
  sf_large (Prim2SF (PrimFloat.sqrt x)) = true.
Proof.
  rewrite truthy_zero, sqrt_spec. intros H.
  destruct (SFsqrt_large (Prim2SF x) (Prim2SF_valid x)) as [Hz | Hl];
    [rewrite Hz in H; discriminate | exact Hl].
Qed.

(** The product of two non-zero square roots is not zero: the guard
    [if qn and dn] keeps the division from a zero divisor. *)
Lemma sqrt_mul_nonzero (x y : float) :
  Num.truthy (PrimFloat.sqrt x) = true ->
  Num.truthy (PrimFloat.sqrt y) = true ->
  (PrimFloat.sqrt x * PrimFloat.sqrt y =? 0) = false.
Proof.
  intros Hx Hy. apply sqrt_truthy_large in Hx, Hy.
  assert (Num.truthy (PrimFloat.sqrt x * PrimFloat.sqrt y) = true) as H.
  { rewrite truthy_zero, mul_spec.
    rewrite SFmul_large; auto using Prim2SF_valid. }
  unfold Num.truthy in H. now apply negb_true_iff in H.
Qed.

Lemma div_norms (q d : Dict.dict float) (x : float) :
  Num.truthy (norm q) = true -> Num.truthy (norm d) = true ->
  Num.div x (norm q * norm d) = Ok (x / (norm q * norm d)).
Proof.
  intros Hq Hd. unfold Num.div, norm in *.
  now rewrite sqrt_mul_nonzero.
Qed.

(** ** [score] on a term-weight map *)

Lemma mapM_ok {A B} (f : A -> result B) (g : A -> B) (l : list A) :
  (forall a, In a l -> f a = Ok (g a)) -> mapM f l = Ok (map g l).
Proof.
  induction l as [| a l IH]; intros H; simpl; [reflexivity |].
  rewrite (H a (or_introl eq_refl)). simpl.
  rewrite IH by (intros x Hx; apply H; now right). reflexivity.
Qed.

Lemma lookup_of_vec (d : Dict.dict float) (t : str) :
  Dict.lookup (map (fun kv => (fst kv, PFloat (snd kv))) d) t =
  option_map PFloat (Dict.lookup d t).
Proof.
  induction d as [| [k v] d IH]; simpl; [reflexivity |].
  destruct (Str.eqb k t); [reflexivity | exact IH].
Qed.

Lemma get_of_vec (d : Dict.dict float) (t : str) :
  Val.get (Val.of_vec d) t (PFloat 0) = Ok (PFloat (Dict.get d t 0)).
Proof.
  unfold Val.get, Val.of_vec, Dict.get. rewrite lookup_of_vec.
  destruct (Dict.lookup d t); reflexivity.
Qed.

Lemma truthy_of_vec (d : Dict.dict float) :
  Val.truthy (Val.of_vec d) = negb (Dict.is_empty d).
Proof. destruct d; reflexivity. Qed.

(** On term-weight maps [score] returns, and returns [cosine]. *)
Lemma score_of_vec (q d : Dict.dict float) :
  score q (Val.of_vec d) = Ok (cosine q d).
Proof.
  unfold score, cosine. rewrite truthy_of_vec, negb_involutive.
  destruct (Dict.is_empty q || Dict.is_empty d); [reflexivity |].
  rewrite (mapM_ok _ (fun t => Dict.get q t 0 * Dict.get d t 0)).
  2:{ intros t _. rewrite get_of_vec. reflexivity. }
  cbn [bind]. fold (dot_of q d). fold (norm_sq q).
  rewrite math_sqrt_norm_sq. cbn [bind Val.values Val.of_vec].
  rewrite (mapM_ok _ (fun v => match v with
                               | PFloat y => y * y
                               | _ => 0
                               end)).
  2:{ intros v Hv. unfold Dict.values in Hv. rewrite map_map in Hv.
      apply in_map_iff in Hv. destruct Hv as (kv & <- & _). reflexivity. }
  cbn [bind]. unfold Dict.values. rewrite !map_map. cbn [snd].
  replace (Num.sum (map (fun x : str * float => snd x * snd x) d))
    with (norm_sq d)
    by (unfold norm_sq, Dict.values; now rewrite map_map).
  rewrite math_sqrt_norm_sq. cbn [bind].
  destruct (Num.truthy (norm q)) eqn:Hq; [| reflexivity].
  destruct (Num.truthy (norm d)) eqn:Hd; [| reflexivity].
  cbn [andb]. now apply div_norms.
Qed.

(** The chunks search can score are scored without an exception. *)
Lemma score_embedding_ok (q : Dict.dict float) (ch : chunk_record) :
  embedding_ok ch -> exists s, score q (get_embedding ch) = Ok s.
Proof.
  unfold embedding_ok, get_embedding.
  destruct (embedding ch) as [v |].
  - intros [Hfalsy | [d ->]].
    + exists 0. unfold score. rewrite Hfalsy. cbn [negb].
      now rewrite orb_true_r.
    + exists (cosine q d). apply score_of_vec.
  - intros _. exists 0. unfold score. cbn. now rewrite orb_true_r.
Qed.

Lemma scan_total (q : Dict.dict float) (l : list chunk_record) :
  Forall embedding_ok l -> exists ms, scan q l = Ok ms.
Proof.
  induction 1 as [| ch l Hch _ [ms IH]]; cbn [scan]; [eauto |].
  destruct (score_embedding_ok q ch Hch) as [s ->]. rewrite IH.
  cbn [bind]. eauto.
Qed.

(** When the scan returns, it returns the candidates of the chunks in
    order. *)
Lemma scan_candidates (q : Dict.dict float) (l : list chunk_record) :
  forall ms, scan q l = Ok ms -> ms = flat_map (candidate q) l.
Proof.
  induction l as [| ch l IH]; intros ms H; cbn [scan] in H.
  - now injection H as <-.
  - bind_inv H. bind_inv H. injection H as <-.
    cbn [flat_map]. unfold candidate at 1. rewrite Ha.
    rewrite <- (IH _ Ha0). destruct (0 <? a); reflexivity.
Qed.

End ScoreFacts.

(* ================================================================== *)
(** * Ranking *)
(* ================================================================== *)

Section Ranking.

Import FloatOrder.
Local Open Scope float_scope.

Let positive (m : match_record) : Prop := (0 <? m_score m) = true.

Lemma insert_desc_sorted (m : match_record) (l : list match_record) :
  positive m -> Forall positive l ->
  StronglySorted score_ge l -> StronglySorted score_ge (insert_desc m l).
Proof.
  intros Hm Hl Hs. induction l as [| x l IH]; cbn [insert_desc].
  - repeat constructor.
  - inversion Hl as [| ? ? Hx Hl']; subst.
    inversion Hs as [| ? ? Hs' Hxl]; subst.
    destruct (m_score m <? m_score x) eqn:E.
    + constructor; [now apply IH |].
      apply (Permutation_Forall (Permutation_sym (insert_desc_perm m l))).
      constructor; [apply ltb_leb; exact E | exact Hxl].
    + constructor; [exact Hs |].
      assert (score_ge m x) as Hmx by (now apply not_ltb_leb).
      constructor; [exact Hmx |].
      eapply Forall_impl; [| exact Hxl]. intros y Hy.
      unfold score_ge in *. eapply leb_trans; eassumption.
Qed.

Lemma sort_desc_sorted (l : list match_record) :
  Forall positive l -> StronglySorted score_ge (sort_desc l).
Proof.
  induction 1 as [| m l Hm Hl IH]; cbn [sort_desc fold_right];
    [constructor |].
  apply insert_desc_sorted; [exact Hm | | exact IH].
  apply (Permutation_Forall (Permutation_sym (sort_desc_perm l))). exact Hl.
Qed.

(** An entry is inserted ahead of entries with a smaller score only:
    those with its own score stay behind it. *)
Lemma insert_desc_with_score (s : float) (m : match_record)
      (l : list match_record) :
  with_score s (insert_desc m l) = with_score s (m :: l).
Proof.
  induction l as [| x l IH]; cbn [insert_desc]; [reflexivity |].
  destruct (m_score m <? m_score x) eqn:E; [| reflexivity].
  unfold with_score in *. cbn [filter] in *. rewrite IH.
  destruct (m_score m =? s) eqn:Em; [| reflexivity].
  now rewrite (ltb_eqb_apart _ _ _ E Em).
Qed.

Lemma sort_desc_with_score (s : float) (l : list match_record) :
  with_score s (sort_desc l) = with_score s l.
Proof.
  induction l as [| m l IH]; cbn [sort_desc fold_right]; [reflexivity |].
  fold (sort_desc l). rewrite insert_desc_with_score.
  unfold with_score in *. cbn [filter]. now rewrite IH.
Qed.

Lemma firstn_sorted {A} (R : A -> A -> Prop) (n : nat) : forall l,
  StronglySorted R l -> StronglySorted R (firstn n l).
Proof.
  induction n as [| n IH]; intros l Hs; [constructor |].
  destruct l as [| a l]; [constructor |].
  inversion Hs as [| ? ? Hs' Ha]; subst. cbn [firstn].
  constructor; [now apply IH |].
  apply Forall_forall. intros x Hx. apply firstn_incl in Hx.
  rewrite Forall_forall in Ha. now apply Ha.
Qed.

Lemma candidate_positive (q : Dict.dict float) (l : list chunk_record) :
  Forall positive (flat_map (candidate q) l).
Proof.
  apply Forall_forall. intros m Hm. apply in_flat_map in Hm.
  destruct Hm as (ch & _ & Hm). unfold candidate in Hm.
  destruct (score q (get_embedding ch)) as [s | e]; [| contradiction].
  destruct (0 <? s) eqn:E; [| contradiction].
  destruct Hm as [<- | []]. exact E.
Qed.

Lemma positive_leb_refl (m : match_record) : positive m -> score_ge m m.
Proof.
  intros Hm. apply positive_key in Hm. destruct Hm as [k Hk].
  unfold score_ge. rewrite leb_key, Hk. apply Z.leb_refl.
Qed.

Lemma sorted_head_ge (a : match_record) (l : list match_record)
      (x : match_record) :
  positive a -> StronglySorted score_ge (a :: l) -> In x (a :: l) ->
  score_ge a x.
Proof.
  intros Ha Hs [<- | Hx]; [now apply positive_leb_refl |].
  inversion Hs as [| ? ? _ Hall]; subst.
  rewrite Forall_forall in Hall. now apply Hall.
Qed.

(** Two descending arrangements of the same entries that keep the
    entries of each score in the same order are the same list: a stable
    descending sort has one possible result. *)
Lemma ranking_unique (l1 : list match_record) : forall l2,
  Forall positive l1 -> Permutation l1 l2 ->
  StronglySorted score_ge l1 -> StronglySorted score_ge l2 ->
  (forall s, with_score s l1 = with_score s l2) ->
  l1 = l2.
Proof.
  induction l1 as [| a t1 IH]; intros l2 Hpos Hperm Hs1 Hs2 Hst.
  - now apply Permutation_nil in Hperm.
  - destruct l2 as [| b t2];
      [apply Permutation_sym, Permutation_nil in Hperm; discriminate |].
    inversion Hpos as [| ? ? Ha Hpos1]; subst.
    assert (positive b) as Hb.
    { assert (Forall positive (b :: t2)) as H
        by exact (Permutation_Forall Hperm Hpos).
      now inversion H. }
    assert (score_ge a b) as Hab.
    { apply (sorted_head_ge a t1 b Ha Hs1).
      apply (Permutation_in _ (Permutation_sym Hperm)). now left. }
    assert (score_ge b a) as Hba.
    { apply (sorted_head_ge b t2 a Hb Hs2).
      apply (Permutation_in _ Hperm). now left. }
    assert (a = b) as <-.
    { pose proof (Hst (m_score a)) as H. unfold with_score in H.
      cbn [filter] in H.
      rewrite (leb_antisym_eqb _ _ (positive_leb_refl a Ha)
                               (positive_leb_refl a Ha)) in H.
      rewrite (leb_antisym_eqb _ _ Hab Hba) in H. now injection H. }
    f_equal. apply IH.
    + exact Hpos1.
    + exact (Permutation_cons_inv Hperm).
    + now inversion Hs1.
    + now inversion Hs2.
    + intros s. specialize (Hst s). unfold with_score in *.
      cbn [filter] in Hst. destruct (m_score a =? s); [now injection Hst |].
      exact Hst.
Qed.

Lemma sort_desc_unique (l l' : list match_record) :
  Forall positive l -> Permutation l' l ->
  StronglySorted score_ge l' ->
  (forall s, with_score s l' = with_score s l) ->
  l' = sort_desc l.
Proof.
  intros Hpos Hperm Hs Hst. apply ranking_unique.
  - exact (Permutation_Forall (Permutation_sym Hperm) Hpos).
  - rewrite Hperm. apply Permutation_sym, sort_desc_perm.
  - exact Hs.
  - now apply sort_desc_sorted.
  - intros s. rewrite Hst. symmetry. apply sort_desc_with_score.
Qed.

End Ranking.

(** What [semantic_search] returns when it returns. *)
Lemma semantic_search_run (st : database) (query : str) (top_k : Z)
      (r : search_response) :
  semantic_search (Some st) query top_k = Ok r ->
  1 <= length query
  /\ scan (query_vector query) (firstn 2000 (chunk st))
     = Ok (flat_map (candidate (query_vector query))
                    (firstn 2000 (chunk st)))
  /\ matches r =
     take (sort_desc (flat_map (candidate (query_vector query))
                               (firstn 2000 (chunk st)))) top_k
  /\ answer r = firstn 800 (Str.join_space (map m_text (matches r))).
Proof.
  unfold semantic_search.
  destruct (Nat.ltb_spec (length query) 1) as [Hq | Hq]; [discriminate |].
  intros H. bind_inv H. injection H as <-. cbn [matches answer].
  unfold Mongo.find_limit in Ha.
  pose proof (ScoreFacts.scan_candidates _ _ _ Ha) as ->.
  auto.
Qed.

Lemma semantic_search_total (st : database) (query : str) (top_k : Z) :
  1 <= length query ->
  Forall embedding_ok (firstn 2000 (chunk st)) ->
  exists r, semantic_search (Some st) query top_k = Ok r.
Proof.
  intros Hq Hok. unfold semantic_search.
  destruct (Nat.ltb_spec (length query) 1) as [Hlt | _]; [lia |].
  destruct (ScoreFacts.scan_total (query_vector query) _ Hok) as [ms Hms].
  unfold Mongo.find_limit. rewrite Hms. cbn [bind]. eauto.
Qed.

(** C1. When search returns with a [top_k] that is not negative: a
    candidate is made from a scanned chunk only if its score is above
    [0.0]; the candidates are put in descending order of score, entries
    of equal score keeping the order of retrieval, which determines the
    ranking; and the result is the first [top_k] of them, hence empty
    for [top_k = 0]. It does return whenever the scanned embeddings are
    term-weight maps. *)
Theorem search_ranking (st : database) (query : str) (top_k : Z) :
  (0 <= top_k)%Z ->
  (forall r, semantic_search (Some st) query top_k = Ok r ->
     let cands := flat_map (candidate (query_vector query))
                           (firstn 2000 (chunk st)) in
     (forall m, In m (matches r) ->
        exists ch, In ch (firstn 2000 (chunk st))
                   /\ score (query_vector query) (get_embedding ch)
                      = Ok (m_score m)
                   /\ (0 <? m_score m)%float = true)
     /\ Permutation (sort_desc cands) cands
     /\ StronglySorted score_ge (sort_desc cands)
     /\ (forall s, with_score s (sort_desc cands) = with_score s cands)
     /\ (forall l, Permutation l cands -> StronglySorted score_ge l ->
                   (forall s, with_score s l = with_score s cands) ->
                   l = sort_desc cands)
     /\ matches r = firstn (Z.to_nat top_k) (sort_desc cands)
     /\ StronglySorted score_ge (matches r)
     /\ (Z.of_nat (length (matches r)) <= top_k)%Z
     /\ (top_k = 0%Z -> matches r = []))
  /\ (1 <= length query ->
      Forall embedding_ok (firstn 2000 (chunk st)) ->
      exists r, semantic_search (Some st) query top_k = Ok r).
Proof.
  intros Hk. split; [| apply semantic_search_total].
  intros r Hr cands.
  pose proof (search_matches_from_chunks _ _ _ _ Hr) as Hfrom.
  apply semantic_search_run in Hr. destruct Hr as (_ & _ & Hm & _).
  fold cands in Hm.
  assert (matches r = firstn (Z.to_nat top_k) (sort_desc cands)) as Hfirst.
  { rewrite Hm. unfold take.
    destruct (Z.leb_spec 0 top_k); [reflexivity | lia]. }
  assert (StronglySorted score_ge (sort_desc cands)) as Hsorted
    by (apply sort_desc_sorted, candidate_positive).
  split.
  { intros m Hin. destruct (Hfrom m Hin) as (ch & s & Hch & Hs & Hpos & ->).
    exists ch. auto. }
  split; [apply sort_desc_perm |].
  split; [exact Hsorted |].
  split; [intros s; apply sort_desc_with_score |].
  split; [intros l; apply sort_desc_unique, candidate_positive |].
  split; [exact Hfirst |].
  split; [rewrite Hfirst; now apply firstn_sorted |].
  split.
  - rewrite Hfirst, length_firstn. lia.
  - intros ->. now rewrite Hfirst.
Qed.

(** The ranking of the one-chunk store for the query "cat". *)
Lemma search_ranking_witness :
  (0 <= 5)%Z
  /\ exists r, semantic_search (Some one_cat) (Str.lit "cat") 5 = Ok r
               /\ length (matches r) = 1.
Proof.
  assert (0 <= 5)%Z as Hk by lia.
  split; [exact Hk |].
  destruct (search_ranking one_cat (Str.lit "cat") 5 Hk) as [Hprops Htotal].
  destruct Htotal as [r Hr].
  - simpl. lia.
  - vm_compute. apply Forall_cons; [| apply Forall_nil]. right.
    exists [(Str.lit "cat", 2%float); (Str.lit "dog", 1%float)].
    reflexivity.
  - exists r. split; [exact Hr |].
    destruct (Hprops r Hr) as (_ & _ & _ & _ & _ & Hfirst & _).
    rewrite Hfirst. vm_compute. reflexivity.
Defined.

(* ================================================================== *)
(** * A negative [top_k] *)
(* ================================================================== *)

(** C10. A negative [top_k] raises nothing of its own and does not
    empty the result: search returns the ranked candidates without the
    last [|top_k|] of them, and returns for a negative [top_k] exactly
    when it returns for any other. *)
Theorem search_negative_top_k (st : database) (query : str) (top_k : Z) :
  (top_k < 0)%Z ->
  (forall r, semantic_search (Some st) query top_k = Ok r ->
     let cands := flat_map (candidate (query_vector query))
                           (firstn 2000 (chunk st)) in
     matches r = firstn (length cands - Z.to_nat (- top_k)) (sort_desc cands)
     /\ length (matches r) = length cands - Z.to_nat (- top_k))
  /\ (forall k, (exists r, semantic_search (Some st) query top_k = Ok r)
                <-> (exists r, semantic_search (Some st) query k = Ok r)).
Proof.
  intros Hk. split.
  - intros r Hr cands. apply semantic_search_run in Hr.
    destruct Hr as (_ & _ & Hm & _). fold cands in Hm.
    assert (length (sort_desc cands) = length cands) as Hlen
      by apply Permutation_length, sort_desc_perm.
    assert (matches r
            = firstn (length cands - Z.to_nat (- top_k)) (sort_desc cands))
      as Hfirst.
    { rewrite Hm. unfold take.
      destruct (Z.leb_spec 0 top_k); [lia | now rewrite Hlen]. }
    split; [exact Hfirst |].
    rewrite Hfirst, length_firstn, Hlen. lia.
  - assert (forall k k',
              (exists r, semantic_search (Some st) query k = Ok r) ->
              exists r, semantic_search (Some st) query k' = Ok r) as Hany.
    { intros k k' [r Hr]. unfold semantic_search in *.
      destruct (length query <? 1); [discriminate |].
      bind_inv Hr. rewrite Ha. cbn [bind]. eauto. }
    intros k. split; apply Hany.
Qed.

(** With two matching chunks, [top_k = -1] returns one match. *)
Lemma search_negative_top_k_witness :
  (-1 < 0)%Z
  /\ exists r, semantic_search (Some two_cats) (Str.lit "cat") (-1) = Ok r
               /\ length (matches r) = 1.
Proof.
  assert (-1 < 0)%Z as Hk by lia.
  split; [exact Hk |].
  destruct (search_negative_top_k two_cats (Str.lit "cat") (-1) Hk)
    as [Hprops Hiff].
  assert (exists r, semantic_search (Some two_cats) (Str.lit "cat") (-1) = Ok r)
    as [r Hr].
  { apply (Hiff 5%Z). vm_compute. eauto. }
  exists r. split; [exact Hr |].
  destruct (Hprops r Hr) as [_ Hlen]. rewrite Hlen. vm_compute. reflexivity.
Defined.

(* ================================================================== *)
(** * Chunks without a usable embedding *)
(* ================================================================== *)







(* ================================================================== *)
(** * When the score is zero *)
(* ================================================================== *)

Module ZeroScore.

Import FloatOrder FloatRound FloatArith ScoreFacts.
Local Open Scope float_scope.

Lemma finite_not_nan (x : float) :
  is_finite x = true -> sf_is_nan (Prim2SF x) = false.
Proof.
  unfold is_finite. destruct (Prim2SF x); [reflexivity | | | reflexivity];
    discriminate.
Qed.

Lemma finite_mul_zero (x : float) :
  is_finite x = true -> sf_is_zero (Prim2SF (x * 0)) = true.
Proof.
  unfold is_finite. rewrite mul_spec, Prim2SF_zero.
  destruct (Prim2SF x); try discriminate; reflexivity.
Qed.

Lemma sum_zeros (l : list float) : forall acc,
  Prim2SF acc = S754_zero false ->
  Forall (fun x => sf_is_zero (Prim2SF x) = true) l ->
  Prim2SF (fold_left PrimFloat.add l acc) = S754_zero false.
Proof.
  induction l as [| x l IH]; intros acc Hacc Hl; simpl; [exact Hacc |].
  inversion Hl as [| ? ? Hx Hl']; subst.
  apply IH; [| exact Hl']. rewrite add_spec, Hacc.
  destruct (Prim2SF x) as [[] | | |]; try discriminate; reflexivity.
Qed.

Lemma lookup_in {V} (d : Dict.dict V) (t : str) (v : V) :
  Dict.lookup d t = Some v -> exists k, In (k, v) d.
Proof.
  induction d as [| [k x] d IH]; simpl; [discriminate |].
  destruct (Str.eqb k t).
  - intros [= ->]. eauto.
  - intros H. destruct (IH H) as [k' Hk']. eauto.
Qed.

Lemma get_finite (q : Dict.dict float) (t : str) :
  finite_weights q -> is_finite (Dict.get q t 0) = true.
Proof.
  intros Hq. unfold Dict.get.
  destruct (Dict.lookup q t) as [x |] eqn:E; [| reflexivity].
  destruct (lookup_in q t x E) as [k Hk].
  unfold finite_weights in Hq. rewrite Forall_forall in Hq.
  exact (Hq _ Hk).
Qed.

(** Without a common term the dot product is [0.0]. *)
Lemma dot_of_disjoint (q d : Dict.dict float) :
  finite_weights q ->
  (forall t, In t (Dict.keys q) -> Dict.lookup d t = None) ->
  dot_of q d = 0.
Proof.
  intros Hq Hdis. apply Prim2SF_inj. rewrite Prim2SF_zero.
  unfold dot_of, Num.sum. apply sum_zeros; [reflexivity |].
  apply Forall_forall. intros x Hx. apply in_map_iff in Hx.
  destruct Hx as (t & <- & Ht).
  unfold Dict.get at 2. rewrite (Hdis t Ht).
  apply finite_mul_zero, get_finite, Hq.
Qed.

Lemma norm_pos (v : Dict.dict float) :
  finite_weights v -> sf_pos (Prim2SF (norm v)) = true.
Proof.
  intros Hv. unfold norm. rewrite sqrt_spec. apply SFsqrt_pos.
  unfold norm_sq, Num.sum. apply sum_pos; [reflexivity |].
  apply Forall_forall. intros x Hx. apply in_map_iff in Hx.
  destruct Hx as (y & <- & Hy). rewrite mul_spec.
  apply SFmul_self_pos, finite_not_nan.
  unfold Dict.values in Hy. apply in_map_iff in Hy.
  destruct Hy as (kv & <- & Hkv).
  unfold finite_weights in Hv. rewrite Forall_forall in Hv. exact (Hv _ Hkv).
Qed.

(** [0.0] over a positive number is [0.0]. *)
Lemma zero_div_pos (y : float) :
  sf_pos (Prim2SF y) = true -> sf_is_zero (Prim2SF y) = false -> 0 / y = 0.
Proof.
  intros Hp Hz. apply Prim2SF_inj. rewrite div_spec, Prim2SF_zero.
  destruct (Prim2SF y) as [s | s | | s m e]; try discriminate;
    destruct s; try discriminate; reflexivity.
Qed.

Lemma cosine_disjoint (q d : Dict.dict float) :
  finite_weights q -> finite_weights d ->
  (forall t, In t (Dict.keys q) -> Dict.lookup d t = None) ->
  cosine q d = 0.
Proof.
  intros Hq Hd Hdis. unfold cosine.
  destruct (Dict.is_empty q || Dict.is_empty d); [reflexivity |].
  destruct (Num.truthy (norm q)) eqn:Tq; [| reflexivity].
  destruct (Num.truthy (norm d)) eqn:Td; [| reflexivity].
  cbn [andb]. rewrite (dot_of_disjoint q d Hq Hdis).
  rewrite truthy_zero in Tq, Td. apply negb_true_iff in Tq, Td.
  apply zero_div_pos.
  - rewrite mul_spec. apply SFmul_pos; auto using norm_pos.
  - pose proof (sqrt_mul_nonzero (norm_sq q) (norm_sq d)) as H.
    fold (norm q) (norm d) in H.
    rewrite !truthy_zero, Tq, Td in H. specialize (H eq_refl eq_refl).
    assert (Num.truthy (norm q * norm d) = true) as Ht
      by (unfold Num.truthy; now rewrite H).
    rewrite truthy_zero in Ht. now apply negb_true_iff in Ht.
Qed.

End ZeroScore.

(** C4. On term-weight maps [score] returns a value and raises
    nothing; the value is [0.0] when [Q] is empty, when [D] is empty,
    when either norm is zero, and, the weights being finite, when no
    key of [Q] is a key of [D]; the quotient is taken only with both
    norms non-zero, and then its divisor is not zero. *)
Theorem score_zero_cases (Q D : Dict.dict float) :
  (exists s, score Q (Val.of_vec D) = Ok s)
  /\ (Q = [] -> score Q (Val.of_vec D) = Ok 0%float)
  /\ (D = [] -> score Q (Val.of_vec D) = Ok 0%float)
  /\ ((norm Q =? 0)%float = true \/ (norm D =? 0)%float = true ->
      score Q (Val.of_vec D) = Ok 0%float)
  /\ (finite_weights Q -> finite_weights D ->
      (forall t, In t (Dict.keys Q) -> Dict.lookup D t = None) ->
      score Q (Val.of_vec D) = Ok 0%float)
  /\ (Q <> [] -> D <> [] ->
      (norm Q =? 0)%float = false -> (norm D =? 0)%float = false ->
      (norm Q * norm D =? 0)%float = false
      /\ score Q (Val.of_vec D) = Ok (dot_of Q D / (norm Q * norm D))%float).
Proof.
  rewrite ScoreFacts.score_of_vec.
  split; [eauto |].
  split; [intros ->; reflexivity |].
  split; [intros ->; unfold cosine; now rewrite orb_true_r |].
  split.
  { intros H. unfold cosine, Num.truthy.
    destruct (Dict.is_empty Q || Dict.is_empty D); [reflexivity |].
    destruct H as [-> | ->]; cbn [negb andb]; [reflexivity |].
    now rewrite andb_false_r. }
  split; [intros HQ HD Hdis; f_equal; now apply ZeroScore.cosine_disjoint |].
  intros HQ HD Hq Hd. split.
  - apply ScoreFacts.sqrt_mul_nonzero; unfold Num.truthy;
      [fold (norm Q); now rewrite Hq | fold (norm D); now rewrite Hd].
  - unfold cosine, Num.truthy. rewrite Hq, Hd.
    destruct Q; [congruence |]. destruct D; [congruence |]. reflexivity.
Qed.

(** Disjoint one-term vectors: the score is [0.0]. *)
Lemma score_zero_cases_witness :
  finite_weights [(Str.lit "cat", 1%float)]
  /\ score [(Str.lit "cat", 1%float)] (Val.of_vec [(Str.lit "dog", 1%float)])
     = Ok 0%float.
Proof.
  assert (forall t, finite_weights [(t, 1%float)]) as Hfin.
  { intros t. apply Forall_cons; [reflexivity | apply Forall_nil]. }
  split; [apply Hfin |].
  destruct (score_zero_cases [(Str.lit "cat", 1%float)]
                             [(Str.lit "dog", 1%float)])
    as (_ & _ & _ & _ & Hdis & _).
  apply Hdis; [apply Hfin | apply Hfin |].
  intros t [<- | []]. reflexivity.
Defined.

(* ================================================================== *)
(** * Self-similarity *)
(* ================================================================== *)

Module SelfScore.

Local Open Scope float_scope.









End SelfScore.




(* ================================================================== *)
(** * Counts as floats *)
(* ================================================================== *)

Module Counts.

Local Open Scope float_scope.






End Counts.

(* ================================================================== *)
(** * The vectorizer *)
(* ================================================================== *)

Lemma Tokens_length (s : str) (l : list str) :
  Tokens s l -> length l <= length s.
Proof.
  induction 1 as [| c s l _ _ IH | t s l Hne _ _ _ IH]; simpl; try lia.
  rewrite length_app. destruct t; [congruence | simpl; lia].
Qed.

Lemma count_term_le (t : str) (l : list str) : count_term t l <= length l.
Proof.
  induction l as [| x l IH]; simpl; [lia |].
  destruct (Str.eqb x t); lia.
Qed.

(** A slice has no more terms than characters. *)
Lemma terms_of_length (ch : str) : length (terms_of ch) <= length ch.
Proof.
  unfold terms_of.
  apply Nat.le_trans with (length (Str.split (Str.lower ch)));
    [apply filter_length_le |].
  pose proof (Tokens_length _ _ (split_tokens (Str.lower ch))) as H.
  unfold Str.lower in H at 2. now rewrite length_map in H.
Qed.


(** C7. The vector search builds from a query string is the vector
    ingestion builds from the same string as a slice. *)
Theorem query_vector_embedding_of (s : str) : query_vector s = embedding_of s.
Proof.
  unfold query_vector, embedding_of, terms_of. reflexivity.
Qed.

(* ================================================================== *)
(** * What ingestion writes *)
(* ================================================================== *)

Lemma windows_le (w fuel : nat) : forall i text,
  Forall (fun c => length c <= w) (windows w fuel i text).
Proof.
  induction fuel as [| fuel IH]; intros i text; unfold windows; simpl;
    [constructor |].
  destruct (i <? length text); [| constructor].
  constructor; [| apply IH].
  unfold Str.slice. rewrite length_firstn. lia.
Qed.

Lemma chunks_of_le (text : str) :
  Forall (fun c => length c <= step) (chunks_of text).
Proof.
  rewrite chunks_of_windows.
  pose proof (windows_le step (length text) 0 text) as H.
  destruct (windows step (length text) 0 text); [| exact H].
  apply Forall_cons; [apply Nat.le_0_l | apply Forall_nil].
Qed.

Lemma enumerate_fst {A} (l : list A) :
  map fst (enumerate l) = seq 0 (length l).
Proof.
  unfold enumerate. generalize 0.
  induction l as [| a l IH]; intros n; simpl; [reflexivity |].
  now rewrite IH.
Qed.

Lemma enumerate_snd {A} (l : list A) : map snd (enumerate l) = l.
Proof.
  unfold enumerate. generalize 0.
  induction l as [| a l IH]; intros n; simpl; [reflexivity |].
  now rewrite IH.
Qed.

Section IngestFacts.

Variable decode : list Byte.byte -> str.

(** The text [ingest] chunks for a file. *)
Let text_of (f : UploadFile) : str :=
  match content f with [] => [] | _ => decode (content f) end.

(** The chunk records one turn of the loop writes. *)
Let chunks_for (id : str) (f : UploadFile) : list chunk_record :=
  map (fun ic => {| doc_id := IdStr id;
                    text := snd ic;
                    page := None;
                    embedding := Some (Val.of_vec (embedding_of (snd ic)));
                    metadata_title := filename f;
                    metadata_chunk := fst ic |})
      (enumerate (chunks_of (text_of f))).

Lemma ingest_file_eq (st : database) (f : UploadFile) :
  ingest_file decode st f =
  ({| document :=
        document st
        ++ [{| _id := IdObject (next_oid st);
               body := {| title := filename f; pages := None;
                          table_count := Some 0%Z;
                          metadata_size := length (content f) |} |}];
      chunk := chunk st ++ chunks_for (Bson.to_str (next_oid st)) f;
      next_oid := N.succ (next_oid st) |},
   Bson.to_str (next_oid st)).
Proof.
  unfold ingest_file, create_document, Mongo.insert_document. cbv zeta.
  rewrite insert_chunks_fold. reflexivity.
Qed.

(** The chunks one turn of the loop adds, record by record. *)
Lemma ingest_file_new_chunks (st : database) (f : UploadFile) :
  exists cs,
    chunk (fst (ingest_file decode st f)) = chunk st ++ cs
    /\ map text cs = chunks_of (text_of f)
    /\ map metadata_chunk cs = seq 0 (length cs)
    /\ Forall (fun c =>
                 length (text c) <= 500
                 /\ doc_id c = IdStr (snd (ingest_file decode st f))
                 /\ metadata_title c = filename f
                 /\ page c = None
                 /\ embedding c = Some (Val.of_vec (embedding_of (text c))))
              cs.
Proof.
  rewrite ingest_file_eq. cbn [fst snd chunk].
  exists (chunks_for (Bson.to_str (next_oid st)) f).
  assert (map text (chunks_for (Bson.to_str (next_oid st)) f)
          = chunks_of (text_of f)) as Htexts.
  { unfold chunks_for. rewrite map_map. cbn [text]. apply enumerate_snd. }
  assert (length (chunks_for (Bson.to_str (next_oid st)) f)
          = length (chunks_of (text_of f))) as Hlen'.
  { rewrite <- Htexts. now rewrite length_map. }
  split; [reflexivity |]. split; [exact Htexts |].
  split.
  { rewrite Hlen'. unfold chunks_for. rewrite map_map. cbn [metadata_chunk].
    apply enumerate_fst. }
  apply Forall_forall. intros c Hc.
  assert (In (text c) (chunks_of (text_of f))) as Hin.
  { rewrite <- Htexts. now apply in_map. }
  pose proof (chunks_of_le (text_of f)) as Hle.
  rewrite Forall_forall in Hle. specialize (Hle _ Hin).
  unfold chunks_for in Hc. apply in_map_iff in Hc.
  destruct Hc as (ic & <- & _). cbn in *. auto.
Qed.

(** X1. One turn of the ingestion loop appends, after the chunks
    already stored, the slices of the file's text in order: their texts
    concatenated are the text, each has at most 500 characters, their
    indexes count from 0, and each carries the new identifier, the file
    name, no page and the vector of its own text. *)
Theorem ingest_file_chunks (st : database) (f : UploadFile) :
  exists cs,
    chunk (fst (ingest_file decode st f)) = chunk st ++ cs
    /\ map text cs = chunks_of (text_of f)
    /\ concat (map text cs) = text_of f
    /\ length cs = Nat.max 1 (ceil_div (length (text_of f)) 500)
    /\ map metadata_chunk cs = seq 0 (length cs)
    /\ Forall (fun c =>
                 length (text c) <= 500
                 /\ doc_id c = IdStr (snd (ingest_file decode st f))
                 /\ metadata_title c = filename f
                 /\ page c = None
                 /\ embedding c = Some (Val.of_vec (embedding_of (text c))))
              cs.
Proof.
  destruct (ingest_file_new_chunks st f) as (cs & Hcs & Htexts & Hidx & Hall).
  destruct (chunks_of_facts (text_of f)) as (Hlen & _ & Hcat).
  exists cs. split; [exact Hcs |]. split; [exact Htexts |].
  split; [now rewrite Htexts |].
  split; [| split; [exact Hidx | exact Hall]].
  rewrite <- (length_map text cs), Htexts. exact Hlen.
Qed.



End IngestFacts.

(* ================================================================== *)
(** * What every request keeps *)
(* ================================================================== *)

Lemma NoDup_snoc {A} (l : list A) (a : A) :
  NoDup l -> ~ In a l -> NoDup (l ++ [a]).
Proof.
  induction 1 as [| x l Hx Hl IH]; intros Ha; simpl.
  - constructor; [intros [] | constructor].
  - constructor.
    + intros Hin. apply in_app_or in Hin. destruct Hin as [Hin | [<- | []]].
      * contradiction.
      * apply Ha. now left.
    + apply IH. intros Hin. apply Ha. now right.
Qed.

Lemma is_weight_map_of_vec (d : Dict.dict float) :
  Schema.is_weight_map (Val.of_vec d) = true.
Proof.
  unfold Val.of_vec, Schema.is_weight_map. apply forallb_forall.
  intros kv Hkv. apply in_map_iff in Hkv. now destruct Hkv as (x & <- & _).
Qed.

Lemma NoDup_remove_first (key : ident) (l : list document_record) :
  NoDup (map _id l) -> NoDup (map _id (fst (Mongo.remove_first key l))).
Proof.
  induction l as [| d l IH]; intros Hnd; simpl; [constructor |].
  inversion Hnd as [| ? ? Hd Hl]; subst.
  destruct (ident_eqb (_id d) key); [exact Hl |].
  pose proof (remove_first_incl key l) as Hincl.
  destruct (Mongo.remove_first key l) as [r n]. simpl in *.
  constructor; [| now apply IH].
  intros Hin. apply Hd. apply in_map_iff in Hin.
  destruct Hin as (x & Hx & Hxr). apply in_map_iff. eauto.
Qed.

Lemma Forall_remove_first (P : document_record -> Prop) (key : ident)
      (l : list document_record) :
  Forall P l -> Forall P (fst (Mongo.remove_first key l)).
Proof.
  rewrite !Forall_forall. intros H d Hd.
  apply H. exact (remove_first_incl key l d Hd).
Qed.

Lemma Forall_filter {A} (P : A -> Prop) (p : A -> bool) (l : list A) :
  Forall P l -> Forall P (filter p l).
Proof.
  rewrite !Forall_forall. intros H x Hx. apply H.
  apply filter_In in Hx. tauto.
Qed.

Section Invariant.

Variable decode : list Byte.byte -> str.

Lemma store_inv_empty : store_inv empty_db.
Proof.
  split; [exact ids_below_empty |]. repeat split; constructor.
Qed.

Lemma store_inv_ingest_file (st : database) (f : UploadFile) :
  store_inv st -> store_inv (fst (ingest_file decode st f)).
Proof.
  intros (Hb & Hnd & Hdocs & Hchunks).
  split; [now apply ids_below_ingest |].
  destruct (ingest_file_new_chunks decode st f) as (cs & Hcs & _ & _ & Hall).
  rewrite Hcs. rewrite ingest_file_eq in *. cbn [fst snd document chunk] in *.
  split; [| split].
  - rewrite map_app. cbn [map _id]. apply NoDup_snoc; [exact Hnd |].
    intros Hin. apply in_map_iff in Hin. destruct Hin as (d & Hd & Hin).
    specialize (Hb d (next_oid st) Hin Hd). lia.
  - apply Forall_app. split; [exact Hdocs |].
    constructor; [| constructor]. cbn. split; [reflexivity | eauto].
  - apply Forall_app. split; [exact Hchunks |].
    eapply Forall_impl; [| exact Hall].
    intros c (Hlen & Hid & _ & Hpage & Hemb). split; [| split; [| split]].
    + unfold Schema.Chunk_ok. rewrite Hid, Hpage, Hemb.
      cbn. apply is_weight_map_of_vec.
    + exact Hlen.
    + unfold embedding_ok. rewrite Hemb. right. eauto.
    + exact Hemb.
Qed.

Lemma store_inv_ingest_loop (files : list UploadFile) : forall st n,
  store_inv st ->
  store_inv
    (fst (fold_left
            (fun acc f => (fst (ingest_file decode (fst acc) f), snd acc + 1))
            files (st, n))).
Proof.
  induction files as [| f files IH]; intros st n Hst; cbn [fold_left];
    [exact Hst |].
  apply IH. cbn [fst]. now apply store_inv_ingest_file.
Qed.

Lemma store_inv_delete (st : database) (id : str) :
  store_inv st ->
  forall st', fst (delete_document (Some st) id) = Some st' -> store_inv st'.
Proof.
  intros Hst st' Hdel.
  split; [exact (ids_below_delete st st' id (proj1 Hst) Hdel) |].
  destruct Hst as (_ & Hnd & Hdocs & Hchunks).
  rewrite delete_document_run in Hdel. cbv zeta in Hdel. cbn [fst] in Hdel.
  injection Hdel as <-. unfold Mongo.delete_one.
  match goal with
  | |- context [Mongo.remove_first ?k ?l] =>
      pose proof (NoDup_remove_first k l Hnd) as Hnd';
      pose proof (Forall_remove_first _ k l Hdocs) as Hdocs';
      destruct (Mongo.remove_first k l) as [r n]
  end.
  cbn [fst document chunk Mongo.delete_many] in *.
  split; [exact Hnd' |]. split; [exact Hdocs' |].
  now apply Forall_filter.
Qed.

Lemma store_inv_serve (st : database) (rq : request) :
  store_inv st -> store_inv (serve decode st rq).
Proof.
  intros Hst. destruct rq as [files | id]; cbn [serve].
  - unfold ingest. cbn [fst]. now apply store_inv_ingest_loop.
  - destruct (fst (delete_document (Some st) id)) as [st' |] eqn:E;
      [| exact Hst].
    exact (store_inv_delete st id Hst st' E).
Qed.

Lemma store_inv_serve_all (rqs : list request) : forall st,
  store_inv st -> store_inv (serve_all decode st rqs).
Proof.
  induction rqs as [| rq rqs IH]; intros st Hst; [exact Hst |].
  apply IH. now apply store_inv_serve.
Qed.


(** X4. Whatever ingestions and deletions are served from the empty
    store, every stored document meets the constraints of
    [schemas.Document] and every stored chunk those of [schemas.Chunk]
    (a string [doc_id], no page or a page of at least 1, a map from
    terms to floats), with a text of at most 500 characters. *)
Theorem served_records_conform (rqs : list request) :
  let st := serve_all decode empty_db rqs in
  Forall (fun d => Schema.Document_ok (body d) = true) (document st)
  /\ Forall (fun c => Schema.Chunk_ok c = true /\ length (text c) <= 500)
            (chunk st).
Proof.
  destruct (store_inv_serve_all rqs empty_db store_inv_empty)
    as (_ & _ & Hdocs & Hchunks).
  split; (eapply Forall_impl; [| eassumption]); cbn; tauto.
Qed.

(** X5. Whatever ingestions and deletions are served from the empty
    store, a search with a non-empty query returns: it raises nothing
    on the chunks that ingestion wrote. *)
Theorem served_store_searchable (rqs : list request) (query : str)
        (top_k : Z) :
  1 <= length query ->
  exists r,
    semantic_search (Some (serve_all decode empty_db rqs)) query top_k = Ok r.
Proof.
  intros Hq. apply semantic_search_total; [exact Hq |].
  destruct (store_inv_serve_all rqs empty_db store_inv_empty)
    as (_ & _ & _ & Hchunks).
  apply Forall_forall. intros c Hc. apply firstn_incl in Hc.
  rewrite Forall_forall in Hchunks. now apply Hchunks.
Qed.

End Invariant.

(** A search after two ingestions and a deletion. *)
Lemma served_store_searchable_witness :
  1 <= length (Str.lit "cat")
  /\ exists r,
       semantic_search
         (Some (serve_all ascii_decode empty_db
                          [Ingest [cat_file]; Ingest [cat_file; cat_file];
                           Delete (Bson.to_str 0%N)]))
         (Str.lit "cat") 5
       = Ok r.
Proof.
  assert (1 <= length (Str.lit "cat")) as Hq by (simpl; lia).
  split; [exact Hq |].
  exact (served_store_searchable ascii_decode
           [Ingest [cat_file]; Ingest [cat_file; cat_file];
            Delete (Bson.to_str 0%N)]
           (Str.lit "cat") 5 Hq).
Defined.

(* ================================================================== *)
(** * Deleting again, and deleting by another spelling *)
(* ================================================================== *)

Lemma remove_first_gone (key : ident) (l : list document_record) :
  NoDup (map _id l) ->
  forall d, In d (fst (Mongo.remove_first key l)) -> _id d <> key.
Proof.
  induction l as [| x l IH]; intros Hnd d; simpl; [contradiction |].
  inversion Hnd as [| ? ? Hx Hl]; subst.
  destruct (ident_eqb (_id x) key) eqn:E.
  - apply ident_eqb_eq in E. subst key. cbn [fst]. intros Hd Heq.
    apply Hx. rewrite <- Heq. now apply in_map.
  - specialize (IH Hl). destruct (Mongo.remove_first key l) as [r n].
    cbn [fst] in *. intros [<- | Hd]; [| now apply IH].
    intros Heq. rewrite Heq, ident_eqb_refl in E. discriminate.
Qed.

Lemma remove_first_keeps (key : ident) (l : list document_record) :
  forall d, In d l -> _id d <> key -> In d (fst (Mongo.remove_first key l)).
Proof.
  induction l as [| x l IH]; intros d; simpl; [contradiction |].
  destruct (ident_eqb (_id x) key) eqn:E.
  - apply ident_eqb_eq in E. intros [<- | Hd] Hne; [congruence | exact Hd].
  - specialize (IH d). destruct (Mongo.remove_first key l) as [r n].
    cbn [fst] in *. intros [<- | Hd] Hne; [now left | right; auto].
Qed.

Lemma filter_idem {A} (p : A -> bool) (l : list A) :
  filter p (filter p l) = filter p l.
Proof.
  induction l as [| a l IH]; simpl; [reflexivity |].
  destruct (p a) eqn:E; simpl; [rewrite E |]; now rewrite ?IH.
Qed.

(** X6. In a store whose documents have distinct ids, deleting by an
    identifier a second time answers not-found and leaves the store as
    the first deletion left it. *)
Theorem delete_twice (st st1 : database) (id : str) :
  NoDup (map _id (document st)) ->
  fst (delete_document (Some st) id) = Some st1 ->
  delete_document (Some st1) id = (Some st1, Raise (HTTPException 404)).
Proof.
  intros Hnd H1. rewrite delete_document_run in H1. cbv zeta in H1.
  cbn [fst] in H1. injection H1 as <-.
  rewrite delete_document_run. cbv zeta.
  set (key := match Bson.of_str id with
              | Ok oid => IdObject oid
              | Raise _ => IdStr id
              end).
  unfold Mongo.delete_one.
  pose proof (remove_first_gone key (document st) Hnd) as Hgone.
  destruct (Mongo.remove_first key (document st)) as [r n].
  cbn [fst snd document chunk next_oid Mongo.delete_many] in *.
  apply MongoFacts.remove_first_none in Hgone.
  pose proof (MongoFacts.remove_first_unchanged key r Hgone) as Hsame.
  destruct (Mongo.remove_first key r) as [r' n'].
  cbn [fst snd document chunk next_oid] in *. subst r' n'.
  unfold Mongo.delete_many. cbn [document chunk next_oid Nat.eqb].
  now rewrite filter_idem.
Qed.

(** Deleting the document of [one_cat] twice. *)
Lemma delete_twice_witness :
  NoDup (map _id (document one_cat))
  /\ exists st1,
       fst (delete_document (Some one_cat) (Bson.to_str 0%N)) = Some st1
       /\ delete_document (Some st1) (Bson.to_str 0%N)
          = (Some st1, Raise (HTTPException 404)).
Proof.
  assert (NoDup (map _id (document one_cat))) as Hnd.
  { vm_compute. constructor; [intros [] | constructor]. }
  split; [exact Hnd |].
  exists {| document := []; chunk := []; next_oid := 1 |}.
  assert (fst (delete_document (Some one_cat) (Bson.to_str 0%N))
          = Some {| document := []; chunk := []; next_oid := 1 |}) as E
    by (vm_compute; reflexivity).
  split; [exact E |].
  exact (delete_twice one_cat _ (Bson.to_str 0%N) Hnd E).
Defined.

Lemma canonical_to_str (o : Bson.ObjectId) :
  (o < 2 ^ 96)%N -> canonical (Bson.to_str o).
Proof.
  intros Ho o' H. rewrite HexFacts.of_str_to_str in H by exact Ho.
  now injection H as <-.
Qed.

Section References.

Variable decode : list Byte.byte -> str.

Lemma refs_ok_ingest_file (st : database) (f : UploadFile) :
  refs_ok st -> refs_ok (fst (ingest_file decode st f)).
Proof.
  intros Hst c Hc.
  destruct (ingest_file_new_chunks decode st f) as (cs & Hcs & _ & _ & Hall).
  rewrite Hcs in Hc. rewrite ingest_file_eq in *.
  cbn [fst snd document chunk] in *.
  apply in_app_or in Hc. destruct Hc as [Hc | Hc].
  - destruct (Hst c Hc) as (d & o & Hd & Hid & Href).
    exists d, o. split; [apply in_or_app; now left | auto].
  - rewrite Forall_forall in Hall. destruct (Hall c Hc) as (_ & Hid & _).
    eexists. exists (next_oid st).
    split; [apply in_or_app; right; left; reflexivity |].
    split; [reflexivity | exact Hid].
Qed.

Lemma refs_ok_ingest_loop (files : list UploadFile) : forall st n,
  refs_ok st ->
  refs_ok
    (fst (fold_left
            (fun acc f => (fst (ingest_file decode (fst acc) f), snd acc + 1))
            files (st, n))).
Proof.
  induction files as [| f files IH]; intros st n Hst; cbn [fold_left];
    [exact Hst |].
  apply IH. cbn [fst]. now apply refs_ok_ingest_file.
Qed.

Lemma refs_ok_delete (st st' : database) (id : str) :
  canonical id -> refs_ok st ->
  fst (delete_document (Some st) id) = Some st' -> refs_ok st'.
Proof.
  intros Hcan Hst Hdel c Hc.
  rewrite delete_document_run in Hdel. cbv zeta in Hdel. cbn [fst] in Hdel.
  injection Hdel as <-. cbn [chunk document Mongo.delete_many] in *.
  apply filter_In in Hc. destruct Hc as [Hc Hne].
  unfold Mongo.delete_one in *.
  match goal with
  | H : context [Mongo.remove_first ?k ?l] |- _ =>
      pose proof (remove_first_keeps k l) as Hkeep;
      destruct (Mongo.remove_first k l) as [r n]
  end.
  cbn [fst chunk document] in *.
  destruct (Hst c Hc) as (d & o & Hd & Hid & Href).
  exists d, o. split; [| auto].
  apply Hkeep; [exact Hd |].
  rewrite Hid. rewrite Href in Hne.
  destruct (Bson.of_str id) as [o' | e] eqn:E; [| discriminate].
  intros [= ->]. rewrite <- (Hcan o' E), ident_eqb_refl in Hne.
  discriminate.
Qed.

(** X7. Served from the empty store, ingestions and deletions by
    canonical identifiers (the string form of the id they convert to,
    or strings that do not convert) keep every chunk attached to a
    stored document. *)
Theorem canonical_requests_keep_references (rqs : list request) :
  Forall (fun rq => match rq with
                    | Delete id => canonical id
                    | Ingest _ => True
                    end) rqs ->
  refs_ok (serve_all decode empty_db rqs).
Proof.
  assert (refs_ok empty_db) as H0 by (intros c []).
  revert H0. generalize empty_db.
  induction rqs as [| rq rqs IH]; intros st Hst Hrqs; [exact Hst |].
  inversion Hrqs as [| ? ? Hrq Hrest]; subst.
  apply IH; [| exact Hrest].
  destruct rq as [files | id]; cbn [serve].
  - unfold ingest. cbn [fst]. now apply refs_ok_ingest_loop.
  - destruct (fst (delete_document (Some st) id)) as [st' |] eqn:E;
      [| exact Hst].
    exact (refs_ok_delete st st' id Hrq Hst E).
Qed.

(** X8. A deletion by another spelling of a document's id (an
    identifier that converts to the id without being its string form,
    as with capital digits) succeeds and removes the document, but
    removes none of its chunks: they stay in the store attached to no
    document. *)
Theorem delete_by_other_spelling (st : database) (f : UploadFile)
        (id' : str) :
  store_ok st ->
  Bson.of_str id' = Ok (next_oid st) ->
  id' <> snd (ingest_file decode st f) ->
  exists st2,
    delete_document (Some (fst (ingest_file decode st f))) id'
    = (Some st2, Ok true)
    /\ document st2 = document st
    /\ (forall c, In c (chunk (fst (ingest_file decode st f))) ->
                  doc_id c = IdStr (snd (ingest_file decode st f)) ->
                  In c (chunk st2))
    /\ (exists c, In c (chunk st2)
                  /\ doc_id c = IdStr (snd (ingest_file decode st f)))
    /\ ~ refs_ok st2.
Proof.
  intros [Hids Hbound] Hconv Hne.
  destruct (ingest_file_run decode st f) as (d & cs & Hrun & _ & Hcs & Hall).
  rewrite Hrun in *. cbn [fst snd] in *.
  set (o := next_oid st) in *. set (id := Bson.to_str o) in *.
  assert (forall x, In x (document st) -> _id x <> IdObject o) as Hfresh.
  { intros x Hx Heq. specialize (Hids x o Hx Heq). unfold o in Hids. lia. }
  rewrite delete_document_run, Hconv. cbv zeta.
  unfold Mongo.delete_one. cbn [document chunk next_oid].
  rewrite MongoFacts.remove_first_last by auto. cbn [fst snd Nat.eqb].
  eexists. split; [reflexivity |].
  cbn [document chunk Mongo.delete_many].
  assert (forall c, In c (chunk st ++ cs) -> doc_id c = IdStr id ->
                    In c (filter (fun c0 => negb (ident_eqb (doc_id c0)
                                                            (IdStr id')))
                                 (chunk st ++ cs))) as Hstay.
  { intros c Hc Hid. apply filter_In. split; [exact Hc |].
    rewrite Hid. cbn [ident_eqb]. apply negb_true_iff.
    apply str_eqb_neq. congruence. }
  split; [reflexivity |]. split; [exact Hstay |].
  destruct cs as [| c0 cs]; [congruence |].
  assert (In c0 (chunk st ++ c0 :: cs)) as Hc0
    by (apply in_or_app; right; now left).
  assert (doc_id c0 = IdStr id) as Hid0 by (now inversion Hall).
  split; [exists c0; auto |].
  intros Hrefs.
  destruct (Hrefs c0 (Hstay c0 Hc0 Hid0)) as (x & o2 & Hx & Hxid & Href).
  cbn [document] in Hx. rewrite Hid0 in Href.
  apply (f_equal (fun i => match i with IdStr s => s | IdObject _ => [] end))
    in Href.
  assert (id = Bson.to_str o2) as Hstr by exact Href.
  pose proof (Hids x o2 Hx Hxid) as Hlt. fold o in Hlt.
  assert (Bson.of_str (Bson.to_str o2) = Ok o2) as Hparse
    by (apply HexFacts.of_str_to_str; lia).
  rewrite <- Hstr in Hparse. unfold id in Hparse.
  rewrite HexFacts.of_str_to_str in Hparse by exact Hbound.
  injection Hparse as Heq. lia.
Qed.

End References.

(** Ingesting and deleting by the id's string form. *)
Lemma canonical_requests_keep_references_witness :
  Forall (fun rq => match rq with
                    | Delete id => canonical id
                    | Ingest _ => True
                    end)
         [Ingest [cat_file; cat_file]; Delete (Bson.to_str 0%N)]
  /\ refs_ok (serve_all ascii_decode empty_db
                        [Ingest [cat_file; cat_file]; Delete (Bson.to_str 0%N)]).
Proof.
  assert (Forall (fun rq => match rq with
                            | Delete id => canonical id
                            | Ingest _ => True
                            end)
                 [Ingest [cat_file; cat_file]; Delete (Bson.to_str 0%N)]) as H.
  { apply Forall_cons; [exact I |]. apply Forall_cons; [| apply Forall_nil].
    apply canonical_to_str. reflexivity. }
  split; [exact H |].
  exact (canonical_requests_keep_references ascii_decode _ H).
Defined.

(** The document of id 10, deleted by the spelling with a capital A. *)
Lemma delete_by_other_spelling_witness :
  store_ok store_at_ten
  /\ exists st2,
       delete_document
         (Some (fst (ingest_file ascii_decode store_at_ten cat_file)))
         (Str.lit "00000000000000000000000A")
       = (Some st2, Ok true)
       /\ ~ refs_ok st2.
Proof.
  assert (store_ok store_at_ten) as Hok.
  { split; [intros d o [] | reflexivity]. }
  split; [exact Hok |].
  destruct (delete_by_other_spelling ascii_decode store_at_ten cat_file
              (Str.lit "00000000000000000000000A") Hok eq_refl)
    as (st2 & Hdel & _ & _ & _ & Hrefs).
  - vm_compute. discriminate.
  - exists st2. split; [exact Hdel | exact Hrefs].
Defined.

(* ================================================================== *)
(** * More of search *)
(* ================================================================== *)

(** The search depends on the store through the scanned chunks only. *)
Lemma semantic_search_scanned (st st' : database) (query : str) (top_k : Z) :
  firstn 2000 (chunk st) = firstn 2000 (chunk st') ->
  semantic_search (Some st) query top_k
  = semantic_search (Some st') query top_k.
Proof.
  intros H. unfold semantic_search, Mongo.find_limit. now rewrite H.
Qed.

(** X9. The scan stops at 2000 chunks: whatever is stored after the
    first 2000, well-formed or not, changes neither the matches, nor
    the answer, nor whether the search raises. *)
Theorem search_pool_cap (st : database) (l extra : list chunk_record)
        (query : str) (top_k : Z) :
  2000 <= length l ->
  semantic_search (Some (with_chunks st (l ++ extra))) query top_k
  = semantic_search (Some (with_chunks st l)) query top_k.
Proof.
  intros Hl. apply semantic_search_scanned. cbn [chunk with_chunks].
  rewrite firstn_app.
  replace (2000 - length l) with 0 by lia.
  cbn [firstn]. apply app_nil_r.
Qed.

(** A string chunk after 2000 chunks without an embedding. *)
Lemma search_pool_cap_witness :
  2000 <= length (repeat (chunk_with None) 2000)
  /\ semantic_search
       (Some (with_chunks empty_db
                (repeat (chunk_with None) 2000
                 ++ [chunk_with (Some (PStr (Str.lit "oops")))])))
       (Str.lit "cat") 5
     = semantic_search
         (Some (with_chunks empty_db (repeat (chunk_with None) 2000)))
         (Str.lit "cat") 5.
Proof.
  assert (2000 <= length (repeat (chunk_with None) 2000)) as H
    by (rewrite repeat_length; apply le_n).
  split; [exact H |].
  exact (search_pool_cap empty_db _ _ (Str.lit "cat") 5 H).
Defined.

Lemma lower_char_idem (c : ascii) :
  Str.lower_char (Str.lower_char c) = Str.lower_char c.
Proof.
  destruct c as [[] [] [] [] [] [] [] []]; reflexivity.
Qed.

Lemma lower_idem (s : str) : Str.lower (Str.lower s) = Str.lower s.
Proof.
  unfold Str.lower. rewrite map_map. apply map_ext, lower_char_idem.
Qed.

(** X10. Letter case is ignored: a slice and its lowercase form have
    the same vector, and a query and its lowercase form give the same
    search response. *)
Theorem case_insensitive (s : str) :
  embedding_of (Str.lower s) = embedding_of s
  /\ query_vector (Str.lower s) = query_vector s
  /\ forall db top_k,
       semantic_search db (Str.lower s) top_k = semantic_search db s top_k.
Proof.
  assert (embedding_of (Str.lower s) = embedding_of s) as He
    by (unfold embedding_of, terms_of; now rewrite lower_idem).
  assert (query_vector (Str.lower s) = query_vector s) as Hq
    by (unfold query_vector; now rewrite lower_idem).
  split; [exact He |]. split; [exact Hq |].
  intros db top_k. unfold semantic_search. rewrite Hq.
  unfold Str.lower at 1. now rewrite length_map.
Qed.

Lemma take_nonneg {A} (l : list A) (k : Z) :
  (0 <= k)%Z -> take l k = firstn (Z.to_nat k) l.
Proof.
  intros Hk. unfold take. destruct (Z.leb_spec 0 k); [reflexivity | lia].
Qed.

(** X11. Raising [top_k] only appends: for [0 <= k <= k'] the matches
    for [k] are the first [k] of the matches for [k'], and when fewer
    than [k'] matches come back they are all the candidates. *)
Theorem search_top_k_prefix (st : database) (query : str) (k k' : Z)
        (r r' : search_response) :
  (0 <= k <= k')%Z ->
  semantic_search (Some st) query k = Ok r ->
  semantic_search (Some st) query k' = Ok r' ->
  matches r = firstn (Z.to_nat k) (matches r')
  /\ ((Z.of_nat (length (matches r')) < k')%Z ->
      Permutation (matches r')
                  (flat_map (candidate (query_vector query))
                            (firstn 2000 (chunk st)))).
Proof.
  intros Hk Hr Hr'.
  apply semantic_search_run in Hr, Hr'.
  destruct Hr as (_ & _ & Hm & _), Hr' as (_ & _ & Hm' & _).
  rewrite Hm, Hm', !take_nonneg by lia. split.
  - rewrite firstn_firstn. f_equal. lia.
  - rewrite length_firstn. intros Hlt.
    rewrite firstn_all2 by lia. apply sort_desc_perm.
Qed.

(** The store with two matching chunks, searched with 1 and with 5. *)
Lemma search_top_k_prefix_witness :
  (0 <= 1 <= 5)%Z
  /\ exists r r',
       semantic_search (Some two_cats) (Str.lit "cat") 1 = Ok r
       /\ semantic_search (Some two_cats) (Str.lit "cat") 5 = Ok r'
       /\ matches r = firstn 1 (matches r')
       /\ length (matches r') = 2.
Proof.
  assert (0 <= 1 <= 5)%Z as Hk by lia.
  split; [exact Hk |].
  destruct (semantic_search (Some two_cats) (Str.lit "cat") 1) as [r | e] eqn:E1;
    [| vm_compute in E1; discriminate].
  destruct (semantic_search (Some two_cats) (Str.lit "cat") 5) as [r' | e] eqn:E5;
    [| vm_compute in E5; discriminate].
  exists r, r'. split; [reflexivity |]. split; [reflexivity |].
  destruct (search_top_k_prefix two_cats (Str.lit "cat") 1 5 r r' Hk E1 E5)
    as [Hpre _].
  split; [exact Hpre |].
  vm_compute in E5. injection E5 as <-. reflexivity.
Defined.

Lemma scan_no_terms (l : list chunk_record) : scan [] l = Ok [].
Proof.
  induction l as [| ch l IH]; cbn [scan]; [reflexivity |].
  rewrite IH. reflexivity.
Qed.

(** X12. A query without a single alphanumeric token, or a store
    without chunks, gives no match and the empty answer, and raises
    nothing, whatever the stored embeddings are. *)
Theorem search_nothing_to_match (st : database) (query : str) (top_k : Z) :
  1 <= length query ->
  terms_of query = [] \/ chunk st = [] ->
  semantic_search (Some st) query top_k
  = Ok {| matches := []; answer := [] |}.
Proof.
  intros Hq H. unfold semantic_search, Mongo.find_limit.
  destruct (Nat.ltb_spec (length query) 1) as [Hlt | _]; [lia |].
  assert (scan (query_vector query) (firstn 2000 (chunk st)) = Ok []) as ->.
  { destruct H as [Hterms | ->].
    - unfold query_vector. unfold terms_of in Hterms. rewrite Hterms.
      apply scan_no_terms.
    - reflexivity. }
  cbn [bind sort_desc fold_right].
  assert (take (@nil match_record) top_k = []) as ->
    by (unfold take; destruct (0 <=? top_k)%Z; apply firstn_nil).
  reflexivity.
Qed.

(** The malformed embedding is never looked at when the query has no
    token. *)
Lemma search_nothing_to_match_witness :
  semantic_search
    (Some (with_chunks empty_db [chunk_with (Some (PStr (Str.lit "oops")))]))
    (Str.lit "!!! ???") 5
  = Ok {| matches := []; answer := [] |}.
Proof.
  apply (search_nothing_to_match
           (with_chunks empty_db [chunk_with (Some (PStr (Str.lit "oops")))])
           (Str.lit "!!! ???") 5).
  - vm_compute. lia.
  - left. vm_compute. reflexivity.
Defined.

Lemma join_space_cons (t : str) (l : list str) :
  exists tl, Str.join_space (t :: l) = t ++ tl.
Proof.
  destruct l as [| u l]; cbn [Str.join_space].
  - exists []. now rewrite app_nil_r.
  - eexists. reflexivity.
Qed.

Lemma join_space_length (l : list str) :
  length (Str.join_space l)
  = list_sum (map (@length ascii) l) + Nat.pred (length l).
Proof.
  induction l as [| t l IH]; [reflexivity |].
  destruct l as [| u l].
  - cbn. rewrite Nat.add_0_r. lia.
  - change (Str.join_space (t :: u :: l))
      with (t ++ " "%char :: Str.join_space (u :: l)).
    rewrite length_app. cbn [length]. rewrite IH.
    cbn [map list_sum fold_right length Nat.pred]. lia.
Qed.

(** X13. The shape of a search response: every match text has at most
    500 characters; the answer has as many characters as the match
    texts joined by single spaces, capped at 800; and the text of the
    best match opens the answer in full. *)
Theorem search_answer_shape (st : database) (query : str) (top_k : Z)
        (r : search_response) :
  semantic_search (Some st) query top_k = Ok r ->
  Forall (fun m => length (m_text m) <= 500) (matches r)
  /\ length (answer r)
     = Nat.min 800 (list_sum (map (fun m => length (m_text m)) (matches r))
                    + Nat.pred (length (matches r)))
  /\ forall m rest, matches r = m :: rest ->
       exists tl, answer r = m_text m ++ tl.
Proof.
  intros H.
  assert (Forall (fun m => length (m_text m) <= 500) (matches r)) as Hlen.
  { apply Forall_forall. intros m Hm.
    destruct (search_matches_from_chunks st query top_k r H m Hm)
      as (ch & s & _ & _ & _ & ->).
    cbn [make_match m_text]. rewrite length_firstn. lia. }
  apply semantic_search_run in H. destruct H as (_ & _ & _ & Ha).
  split; [exact Hlen |]. split.
  - rewrite Ha, length_firstn, join_space_length, map_map, length_map.
    reflexivity.
  - intros m rest Hm. rewrite Hm in Ha, Hlen. rewrite Ha.
    cbn [map]. destruct (join_space_cons (m_text m) (map m_text rest))
      as [tl ->].
    apply Forall_inv in Hlen. cbv beta in Hlen.
    rewrite firstn_app.
    rewrite firstn_all2 by lia. eexists. reflexivity.
Qed.

Lemma search_answer_shape_witness :
  exists r,
    semantic_search (Some two_cats) (Str.lit "cat") 5 = Ok r
    /\ length (answer r) = 23
    /\ length (matches r) = 2.
Proof.
  destruct (semantic_search (Some two_cats) (Str.lit "cat") 5)
    as [r | e] eqn:E; [| vm_compute in E; discriminate].
  exists r. split; [reflexivity |].
  destruct (search_answer_shape two_cats (Str.lit "cat") 5 r E)
    as (_ & Hl & _).
  assert (length (matches r) = 2) as Hn
    by (vm_compute in E; injection E as <-; reflexivity).
  split; [| exact Hn].
  rewrite Hl. vm_compute in E. injection E as <-. reflexivity.
Defined.

(* ================================================================== *)
(** * Listing documents *)
(* ================================================================== *)

Module EncoderFacts.

Import MongoJSONEncoder.

Lemma set_new {V} (d : Dict.dict V) (k : str) (v : V) :
  ~ In k (Dict.keys d) -> Dict.set d k v = d ++ [(k, v)].
Proof.
  induction d as [| [k' v'] d IH]; cbn [Dict.set Dict.keys map fst app In];
    [reflexivity |].
  intros Hk. destruct (Str.eqb k' k) eqn:E.
  - apply str_eqb_eq in E. tauto.
  - rewrite IH by tauto. reflexivity.
Qed.

(** The loop of [encode], started on what it has built so far. *)
Lemma encode_loop (doc : Dict.dict mval) : forall out,
  NoDup (Dict.keys out ++ Dict.keys doc) ->
  fold_left (fun out kv => Dict.set out (fst kv) (encode_value (snd kv)))
            doc out
  = out ++ map (fun kv => (fst kv, encode_value (snd kv))) doc.
Proof.
  induction doc as [| [k v] doc IH]; intros out Hnd; cbn [fold_left map].
  - now rewrite app_nil_r.
  - cbn [fst snd]. cbn [Dict.keys map fst] in Hnd.
    fold (Dict.keys doc) in Hnd.
    assert (~ In k (Dict.keys out)) as Hk.
    { apply NoDup_remove_2 in Hnd. intros H. apply Hnd.
      apply in_or_app. now left. }
    rewrite set_new by exact Hk. rewrite IH.
    + now rewrite <- app_assoc.
    + unfold Dict.keys. rewrite map_app. cbn [map fst].
      rewrite <- app_assoc. exact Hnd.
Qed.

Lemma encode_map (doc : Dict.dict mval) :
  NoDup (Dict.keys doc) ->
  encode doc = map (fun kv => (fst kv, encode_value (snd kv))) doc.
Proof.
  intros Hnd. unfold encode. destruct doc as [| kv doc]; [reflexivity |].
  cbn [Dict.is_empty]. now rewrite encode_loop.
Qed.

Lemma keys_encode (doc : Dict.dict mval) :
  NoDup (Dict.keys doc) -> Dict.keys (encode doc) = Dict.keys doc.
Proof.
  intros Hnd. rewrite encode_map by exact Hnd.
  unfold Dict.keys. rewrite map_map. reflexivity.
Qed.

Lemma lookup_map {V W} (f : V -> W) (d : Dict.dict V) (k : str) :
  Dict.lookup (map (fun kv => (fst kv, f (snd kv))) d) k
  = option_map f (Dict.lookup d k).
Proof.
  induction d as [| [k' v] d IH]; cbn [map Dict.lookup fst snd];
    [reflexivity |].
  destruct (Str.eqb k' k); [reflexivity | exact IH].
Qed.

Lemma lookup_encode (doc : Dict.dict mval) (k : str) :
  NoDup (Dict.keys doc) ->
  Dict.lookup (encode doc) k = option_map encode_value (Dict.lookup doc k).
Proof.
  intros Hnd. rewrite encode_map by exact Hnd. apply lookup_map.
Qed.

Lemma encode_value_idem (v : mval) :
  encode_value (encode_value v) = encode_value v.
Proof. destruct v; reflexivity. Qed.

End EncoderFacts.

(** X14. On a record with pairwise distinct keys the encoder keeps the
    keys and their order, replaces a native id by its string and keeps
    every other value; no native id is left, and encoding again changes
    nothing. *)
Theorem encode_record (doc : Dict.dict mval) :
  NoDup (Dict.keys doc) ->
  Dict.keys (MongoJSONEncoder.encode doc) = Dict.keys doc
  /\ (forall k,
        Dict.lookup (MongoJSONEncoder.encode doc) k
        = match Dict.lookup doc k with
          | Some (MOid o) => Some (MVal (PStr (Bson.to_str o)))
          | other => other
          end)
  /\ (forall k o, Dict.lookup (MongoJSONEncoder.encode doc) k <> Some (MOid o))
  /\ MongoJSONEncoder.encode (MongoJSONEncoder.encode doc)
     = MongoJSONEncoder.encode doc.
Proof.
  intros Hnd.
  assert (forall k,
            Dict.lookup (MongoJSONEncoder.encode doc) k
            = match Dict.lookup doc k with
              | Some (MOid o) => Some (MVal (PStr (Bson.to_str o)))
              | other => other
              end) as Hlook.
  { intros k. rewrite EncoderFacts.lookup_encode by exact Hnd.
    destruct (Dict.lookup doc k) as [[o | v] |]; reflexivity. }
  split; [now apply EncoderFacts.keys_encode |].
  split; [exact Hlook |]. split.
  - intros k o. rewrite Hlook.
    destruct (Dict.lookup doc k) as [[o' | v] |]; discriminate.
  - rewrite (EncoderFacts.encode_map (MongoJSONEncoder.encode doc))
      by (now rewrite EncoderFacts.keys_encode).
    rewrite (EncoderFacts.encode_map doc Hnd), map_map. cbn [fst snd].
    apply map_ext. intros [k v]. cbn [fst snd].
    now rewrite EncoderFacts.encode_value_idem.
Qed.

(** The record of a document with the native id 10. *)
Lemma encode_record_witness :
  Dict.lookup
    (MongoJSONEncoder.encode
       [(Str.lit "_id", MOid 10%N);
        (Str.lit "title", MVal (PStr (Str.lit "pets.txt")))])
    (Str.lit "_id")
  = Some (MVal (PStr (Str.lit "00000000000000000000000a"))).
Proof.
  assert (NoDup (Dict.keys [(Str.lit "_id", MOid 10%N);
                            (Str.lit "title",
                             MVal (PStr (Str.lit "pets.txt")))])) as Hnd.
  { cbn [Dict.keys map fst]. apply NoDup_cons.
    - intros [H | []]. discriminate H.
    - apply NoDup_cons; [intros [] | apply NoDup_nil]. }
  destruct (encode_record _ Hnd) as (_ & Hlook & _).
  rewrite Hlook. reflexivity.
Defined.

Section Listing.

(** [get_documents] of the module [database]. *)
Variable get_documents : database -> list (Dict.dict mval).

(** X15. When the records [get_documents] returns have distinct keys
    and carry the stored ids under ["_id"], the string that
    [GET /documents] shows under ["_id"] is one that
    [DELETE /documents/{doc_id}] accepts: the deletion answers success
    and one document less is stored. *)
Theorem listed_id_deletes (st : database) (recs : list (Dict.dict mval))
        (rec : Dict.dict mval) (s : str) :
  store_ok st ->
  Forall (fun d => exists o, _id d = IdObject o) (document st) ->
  (forall r, In r (get_documents st) ->
     NoDup (Dict.keys r)
     /\ exists d, In d (document st)
                  /\ Dict.lookup r (Str.lit "_id")
                     = Some (mval_of_ident (_id d))) ->
  list_documents get_documents (Some st) = Ok recs ->
  In rec recs ->
  Dict.lookup rec (Str.lit "_id") = Some (MVal (PStr s)) ->
  exists st',
    delete_document (Some st) s = (Some st', Ok true)
    /\ S (length (document st')) = length (document st).
Proof.
  intros [Hbelow Hnext] Hids Hget Hlist Hrec Hs.
  cbn [list_documents] in Hlist. injection Hlist as <-.
  apply in_map_iff in Hrec. destruct Hrec as (r & <- & Hr).
  destruct (Hget r Hr) as (Hnd & d & Hd & Hlook).
  rewrite (EncoderFacts.lookup_encode r _ Hnd), Hlook in Hs.
  rewrite Forall_forall in Hids. destruct (Hids d Hd) as [o Ho].
  rewrite Ho in Hs.
  cbn [option_map mval_of_ident MongoJSONEncoder.encode_value] in Hs.
  assert (s = Bson.to_str o) as -> by congruence.
  assert (o < 2 ^ 96)%N as Hlt by (specialize (Hbelow d o Hd Ho); lia).
  rewrite delete_document_run, (HexFacts.of_str_to_str o Hlt). cbv zeta.
  pose proof (MongoFacts.remove_first_count (IdObject o) (document st))
    as [Hle Hlen].
  assert (snd (Mongo.remove_first (IdObject o) (document st)) <> 0) as Hfound.
  { intros H0.
    pose proof (proj1 (MongoFacts.remove_first_none _ _) H0) as Hnone.
    exact (Hnone d Hd Ho). }
  unfold Mongo.delete_one.
  destruct (Mongo.remove_first (IdObject o) (document st)) as [l n].
  cbn [fst snd] in *.
  destruct n as [| n]; [congruence |]. cbn [Nat.eqb].
  eexists. split; [reflexivity |]. cbn [Mongo.delete_many document]. lia.
Qed.

End Listing.

Lemma listed_id_deletes_witness :
  exists st',
    delete_document (Some one_cat) (Bson.to_str 0%N) = (Some st', Ok true)
    /\ S (length (document st')) = length (document one_cat).
Proof.
  assert (store_ok one_cat) as Hok.
  { split; [| vm_compute; reflexivity].
    intros d o [<- | []] [= <-]. vm_compute. reflexivity. }
  assert (Forall (fun d => exists o, _id d = IdObject o) (document one_cat))
    as Hids.
  { apply Forall_cons; [exists 0%N; reflexivity | apply Forall_nil]. }
  assert (forall r, In r (records_of one_cat) ->
            NoDup (Dict.keys r)
            /\ exists d, In d (document one_cat)
                         /\ Dict.lookup r (Str.lit "_id")
                            = Some (mval_of_ident (_id d))) as Hget.
  { intros r [<- | []]. split.
    - cbn [Dict.keys map fst]. apply NoDup_cons.
      + intros [H | []]. discriminate H.
      + apply NoDup_cons; [intros [] | apply NoDup_nil].
    - eexists. split; [left; reflexivity | reflexivity]. }
  exact (listed_id_deletes records_of one_cat _
           (MongoJSONEncoder.encode
              [(Str.lit "_id", MOid 0%N);
               (Str.lit "title", MVal (PStr (Str.lit "pets.txt")))])
           (Bson.to_str 0%N) Hok Hids Hget eq_refl
           (or_introl eq_refl) eq_refl).
Defined.

(* ================================================================== *)
(** * The store missing *)
(* ================================================================== *)






(* ================================================================== *)
(** * Binary64: integer-valued weights *)
(* ================================================================== *)

Module FloatExact.

Import FloatOrder FloatRound FloatArith.
Local Open Scope Z_scope.

Lemma Zdigits2_unique (m d : Z) :
  0 < m -> 2 ^ (d - 1) <= m < 2 ^ d -> Zdigits2 m = d.
Proof.
  intros Hm [Hlo Hhi].
  pose proof (Zdigits2_bounds m Hm) as [Hlo' Hhi'].
  pose proof (Zdigits2_pos m Hm) as Hd.
  assert (0 < d) as Hdpos.
  { destruct (Z.lt_ge_cases 0 d) as [H | H]; [exact H |].
    rewrite (Z.pow_neg_r 2 (d - 1)) in Hlo by lia.
    assert (2 ^ d <= 1); [| lia].
    destruct (Z.eq_dec d 0) as [-> | Hne]; [simpl; lia |].
    rewrite Z.pow_neg_r by lia. lia. }
  assert (2 ^ (d - 1) < 2 ^ Zdigits2 m) as H1 by lia.
  assert (2 ^ (Zdigits2 m - 1) < 2 ^ d) as H2 by lia.
  apply Z.pow_lt_mono_r_iff in H1; try lia.
  apply Z.pow_lt_mono_r_iff in H2; lia.
Qed.

Lemma Zdigits2_shift (m p : Z) :
  0 < m -> 0 <= p -> Zdigits2 (m * 2 ^ p) = Zdigits2 m + p.
Proof.
  intros Hm Hp.
  pose proof (Zdigits2_bounds m Hm) as [Hlo Hhi].
  pose proof (Zdigits2_pos m Hm) as Hd.
  assert (0 < 2 ^ p) as Hpow by (apply Z.pow_pos_nonneg; lia).
  apply Zdigits2_unique; [nia |].
  replace (Zdigits2 m + p - 1) with (Zdigits2 m - 1 + p) by lia.
  rewrite !Z.pow_add_r by lia. split; nia.
Qed.

(** ** Shifts that lose nothing *)

Lemma shr_1_exact (m : Z) :
  0 <= m ->
  shr_1 {| shr_m := 2 * m; shr_r := false; shr_s := false |}
  = {| shr_m := m; shr_r := false; shr_s := false |}.
Proof. destruct m as [| p | p]; try lia; reflexivity. Qed.

Lemma iter_shr_1_exact (p : positive) : forall m,
  0 <= m ->
  iter_pos shr_1 p
    {| shr_m := m * 2 ^ Zpos p; shr_r := false; shr_s := false |}
  = {| shr_m := m; shr_r := false; shr_s := false |}.
Proof.
  induction p as [p IH | p IH |]; intros m Hm; cbn [iter_pos].
  - replace (m * 2 ^ Zpos p~1) with (2 * (m * 2 ^ Zpos p * 2 ^ Zpos p)).
    + assert (0 <= m * 2 ^ Zpos p) as H1 by (apply Z.mul_nonneg_nonneg; lia).
      rewrite shr_1_exact by (apply Z.mul_nonneg_nonneg; lia).
      now rewrite (IH _ H1), (IH _ Hm).
    + replace (Zpos p~1) with (1 + Zpos p + Zpos p) by lia.
      rewrite !Z.pow_add_r by lia. rewrite Z.pow_1_r. ring.
  - replace (m * 2 ^ Zpos p~0) with (m * 2 ^ Zpos p * 2 ^ Zpos p).
    + assert (0 <= m * 2 ^ Zpos p) as H1 by (apply Z.mul_nonneg_nonneg; lia).
      now rewrite (IH _ H1), (IH _ Hm).
    + replace (Zpos p~0) with (Zpos p + Zpos p) by lia.
      rewrite !Z.pow_add_r by lia. ring.
  - rewrite Z.pow_1_r, Z.mul_comm. now apply shr_1_exact.
Qed.

Lemma fexp_normal (k : Z) : -1021 <= k -> fexp prec emax k = k - 53.
Proof. unfold fexp, SpecFloat.emin, prec, emax. lia. Qed.

(** A mantissa of 53 digits followed by [p] zero bits rounds to that
    mantissa. *)
Lemma round_exact (s : bool) (m0 : positive) (p e0 : Z) :
  Zpos (digits2_pos m0) = 53 -> 0 <= p -> -1074 <= e0 <= 971 ->
  binary_round_aux prec emax s (Zpos m0 * 2 ^ p) (e0 - p) loc_Exact
  = S754_finite s m0 e0.
Proof.
  intros Hd Hp He.
  assert (fexp prec emax (53 + e0) = e0) as Hf
    by (unfold fexp, SpecFloat.emin, prec, emax; lia).
  assert (shr_fexp prec emax (Zpos m0 * 2 ^ p) (e0 - p) loc_Exact
          = ({| shr_m := Zpos m0; shr_r := false; shr_s := false |}, e0))
    as H1.
  { unfold shr_fexp. rewrite Zdigits2_shift by lia.
    cbn [Zdigits2]. rewrite Hd.
    replace (53 + p + (e0 - p)) with (53 + e0) by lia. rewrite Hf.
    replace (e0 - (e0 - p)) with p by lia.
    cbn [shr_record_of_loc].
    destruct p as [| q | q]; try lia; cbn [shr].
    - rewrite Z.mul_1_r. f_equal. lia.
    - rewrite iter_shr_1_exact by lia. f_equal. lia. }
  assert (shr_fexp prec emax (Zpos m0) e0 loc_Exact
          = ({| shr_m := Zpos m0; shr_r := false; shr_s := false |}, e0))
    as H2.
  { unfold shr_fexp. cbn [Zdigits2]. rewrite Hd, Hf, Z.sub_diag.
    reflexivity. }
  unfold binary_round_aux. rewrite H1.
  cbn [shr_m loc_of_shr_record round_nearest_even]. rewrite H2.
  cbn [shr_m].
  destruct (Z.leb_spec e0 (emax - prec)) as [_ | Hgt]; [reflexivity |].
  unfold emax, prec in Hgt. lia.
Qed.

Lemma pos_iter_xO (m k : positive) :
  Zpos (Pos.iter xO m k) = Zpos m * 2 ^ Zpos k.
Proof.
  induction k as [| k IH] using Pos.peano_ind.
  - cbn [Pos.iter]. lia.
  - rewrite Pos.iter_succ, Pos2Z.inj_xO, IH, Pos2Z.inj_succ.
    rewrite Z.pow_succ_r by lia. ring.
Qed.

Lemma shl_align_fst (m : positive) (e e' : Z) :
  e' <= e -> Zpos (fst (shl_align m e e')) = Zpos m * 2 ^ (e - e').
Proof.
  intros He. unfold shl_align.
  destruct (e' - e) as [| k | k] eqn:E; cbn [fst]; try lia.
  - replace (e - e') with 0 by lia. lia.
  - rewrite pos_iter_xO. f_equal. f_equal. lia.
Qed.

(** ** The float of an integer below [2^53] *)

(** Rounding [n * 2^-ez] at the exponent [ez] gives the float of
    [n]. *)
Lemma round_int (M : positive) (ez n : Z) :
  ez <= 0 -> Zpos M = n * 2 ^ (- ez) -> 0 < n < 2 ^ 53 ->
  exists mc,
    binary_round prec emax false M ez
    = S754_finite false mc (Zdigits2 n - 53)
    /\ Zpos mc = n * 2 ^ (53 - Zdigits2 n)
    /\ Zpos (digits2_pos mc) = 53.
Proof.
  intros Hez HM Hn.
  pose proof (Zdigits2_pos n ltac:(lia)) as HD.
  assert (Zdigits2 n <= 53) as HD53.
  { pose proof (Zdigits2_bounds n ltac:(lia)) as [Hlo _].
    assert (2 ^ (Zdigits2 n - 1) < 2 ^ 53) as H by lia.
    apply Z.pow_lt_mono_r_iff in H; lia. }
  set (D := Zdigits2 n) in *.
  assert (0 < n * 2 ^ (53 - D)) as Hpos.
  { apply Z.mul_pos_pos; [lia | apply Z.pow_pos_nonneg; lia]. }
  destruct (n * 2 ^ (53 - D)) as [| mc | mc] eqn:Emc; try lia.
  assert (Zpos (digits2_pos mc) = 53) as Hdc.
  { change (Zpos (digits2_pos mc)) with (Zdigits2 (Zpos mc)).
    rewrite <- Emc, Zdigits2_shift by lia. fold D. lia. }
  exists mc. split; [| split; [reflexivity | exact Hdc]].
  unfold binary_round.
  assert (Zpos (digits2_pos M) = D - ez) as HdM.
  { change (Zpos (digits2_pos M)) with (Zdigits2 (Zpos M)).
    rewrite HM, Zdigits2_shift by lia. fold D. lia. }
  rewrite HdM. replace (D - ez + ez) with D by lia.
  rewrite fexp_normal by lia.
  unfold shl_align.
  destruct (D - 53 - ez) as [| k | k] eqn:Ek.
  - replace (Zpos M) with (Zpos mc * 2 ^ 0).
    + replace ez with (D - 53 - 0) at 1 by lia.
      apply round_exact; lia.
    + rewrite <- Emc, HM. replace (- ez) with (53 - D) by lia. ring.
  - replace (Zpos M) with (Zpos mc * 2 ^ Zpos k).
    + replace ez with (D - 53 - Zpos k) at 1 by lia.
      apply round_exact; lia.
    + rewrite <- Emc, HM, <- Z.mul_assoc, <- Z.pow_add_r by lia.
      f_equal. f_equal. lia.
  - assert (Pos.iter xO M k = mc) as ->.
    { apply Pos2Z.inj. rewrite pos_iter_xO, <- Emc, HM.
      rewrite <- Z.mul_assoc, <- Z.pow_add_r by lia.
      f_equal. f_equal. lia. }
    replace (Zpos mc) with (Zpos mc * 2 ^ 0) by lia.
    replace (D - 53) with (D - 53 - 0) at 1 by lia.
    apply round_exact; lia.
Qed.

Lemma sf_of_Z_pos (n : Z) :
  0 < n < 2 ^ 53 ->
  exists mc,
    sf_of_Z n = S754_finite false mc (Zdigits2 n - 53)
    /\ Zpos mc = n * 2 ^ (53 - Zdigits2 n)
    /\ Zpos (digits2_pos mc) = 53.
Proof.
  intros Hn. unfold sf_of_Z.
  destruct n as [| p | p]; try lia. cbn [binary_normalize].
  apply round_int; [lia | cbn; lia | exact Hn].
Qed.

Lemma Zdigits2_le53 (n : Z) : 0 < n < 2 ^ 53 -> 1 <= Zdigits2 n <= 53.
Proof.
  intros Hn. pose proof (Zdigits2_pos n ltac:(lia)).
  pose proof (Zdigits2_bounds n ltac:(lia)) as [Hlo _].
  assert (2 ^ (Zdigits2 n - 1) < 2 ^ 53) as H' by lia.
  apply Z.pow_lt_mono_r_iff in H'; lia.
Qed.

(** ** Sums and products without rounding *)

Lemma add_exact (a b : Z) :
  0 <= a -> 0 <= b -> a + b < 2 ^ 53 ->
  SF64add (sf_of_Z a) (sf_of_Z b) = sf_of_Z (a + b).
Proof.
  intros Ha Hb Hab.
  destruct (Z.eq_dec a 0) as [-> | Ha0].
  { rewrite Z.add_0_l. change (sf_of_Z 0) with (S754_zero false).
    destruct (Z.eq_dec b 0) as [-> | Hb0]; [reflexivity |].
    destruct (sf_of_Z_pos b ltac:(lia)) as (mb & -> & _). reflexivity. }
  destruct (Z.eq_dec b 0) as [-> | Hb0].
  { rewrite Z.add_0_r. change (sf_of_Z 0) with (S754_zero false).
    destruct (sf_of_Z_pos a ltac:(lia)) as (ma & -> & _). reflexivity. }
  destruct (sf_of_Z_pos a ltac:(lia)) as (ma & -> & Hma & Hda).
  destruct (sf_of_Z_pos b ltac:(lia)) as (mb & -> & Hmb & Hdb).
  pose proof (Zdigits2_le53 a ltac:(lia)) as Hra.
  pose proof (Zdigits2_le53 b ltac:(lia)) as Hrb.
  set (ea := Zdigits2 a - 53) in *. set (eb := Zdigits2 b - 53) in *.
  unfold SF64add, SFadd. cbv zeta. cbn [cond_Zopp].
  set (ez := Z.min ea eb).
  assert (ez <= ea /\ ez <= eb /\ ez <= 0) as (Hza & Hzb & Hz0)
    by (unfold ez, ea, eb; lia).
  rewrite <- Pos2Z.inj_add. cbn [binary_normalize].
  destruct (round_int (fst (shl_align ma ea ez) + fst (shl_align mb eb ez))
                      ez (a + b) Hz0) as (mc & -> & Hmc & Hdc); [| lia |].
  - rewrite Pos2Z.inj_add, !shl_align_fst, Hma, Hmb by lia.
    rewrite <- !Z.mul_assoc, <- !Z.pow_add_r by (unfold ea, eb; lia).
    replace (53 - Zdigits2 a + (ea - ez)) with (- ez) by (unfold ea; lia).
    replace (53 - Zdigits2 b + (eb - ez)) with (- ez) by (unfold eb; lia).
    ring.
  - destruct (sf_of_Z_pos (a + b) ltac:(lia)) as (mc' & -> & Hmc' & _).
    f_equal. apply Pos2Z.inj. congruence.
Qed.

Lemma Zdigits2_mul_lower (a b : Z) :
  0 < a -> 0 < b -> Zdigits2 a + Zdigits2 b - 1 <= Zdigits2 (a * b).
Proof.
  intros Ha Hb.
  pose proof (Zdigits2_bounds a Ha) as [Hla _].
  pose proof (Zdigits2_bounds b Hb) as [Hlb _].
  pose proof (Zdigits2_bounds (a * b) ltac:(nia)) as [_ Hh].
  pose proof (Zdigits2_pos a Ha). pose proof (Zdigits2_pos b Hb).
  pose proof (Zdigits2_pos (a * b) ltac:(nia)).
  assert (2 ^ (Zdigits2 a - 1 + (Zdigits2 b - 1)) < 2 ^ Zdigits2 (a * b)) as H'.
  { rewrite Z.pow_add_r by lia.
    assert (0 < 2 ^ (Zdigits2 a - 1)) by (apply Z.pow_pos_nonneg; lia).
    assert (0 < 2 ^ (Zdigits2 b - 1)) by (apply Z.pow_pos_nonneg; lia).
    nia. }
  apply Z.pow_lt_mono_r_iff in H'; lia.
Qed.

Lemma mul_exact (a b : Z) :
  0 <= a < 2 ^ 53 -> 0 <= b < 2 ^ 53 -> a * b < 2 ^ 53 ->
  SF64mul (sf_of_Z a) (sf_of_Z b) = sf_of_Z (a * b).
Proof.
  intros [Ha Ha53] [Hb Hb53] Hab.
  destruct (Z.eq_dec a 0) as [-> | Ha0].
  { rewrite Z.mul_0_l. change (sf_of_Z 0) with (S754_zero false).
    destruct (Z.eq_dec b 0) as [-> | Hb0]; [reflexivity |].
    destruct (sf_of_Z_pos b ltac:(lia)) as (mb & -> & _). reflexivity. }
  destruct (Z.eq_dec b 0) as [-> | Hb0].
  { rewrite Z.mul_0_r. change (sf_of_Z 0) with (S754_zero false).
    destruct (sf_of_Z_pos a ltac:(lia)) as (ma & -> & _). reflexivity. }
  destruct (sf_of_Z_pos a ltac:(lia)) as (ma & -> & Hma & Hda).
  destruct (sf_of_Z_pos b ltac:(lia)) as (mb & -> & Hmb & Hdb).
  destruct (sf_of_Z_pos (a * b) ltac:(nia)) as (mc & -> & Hmc & Hdc).
  pose proof (Zdigits2_le53 a ltac:(lia)) as Hra.
  pose proof (Zdigits2_le53 b ltac:(lia)) as Hrb.
  pose proof (Zdigits2_le53 (a * b) ltac:(nia)) as Hrc.
  pose proof (Zdigits2_mul_lower a b ltac:(lia) ltac:(lia)) as Hlow.
  unfold SF64mul, SFmul. cbn [xorb].
  set (p := Zdigits2 (a * b) + 53 - Zdigits2 a - Zdigits2 b).
  replace (Zpos (ma * mb)) with (Zpos mc * 2 ^ p).
  - replace (Zdigits2 a - 53 + (Zdigits2 b - 53))
      with (Zdigits2 (a * b) - 53 - p) by (unfold p; lia).
    apply round_exact; unfold p; lia.
  - rewrite Pos2Z.inj_mul, Hma, Hmb, Hmc.
    rewrite <- Z.mul_assoc, <- Z.pow_add_r by (unfold p; lia).
    replace (53 - Zdigits2 (a * b) + p)
      with (53 - Zdigits2 a + (53 - Zdigits2 b)) by (unfold p; lia).
    rewrite Z.pow_add_r by lia. ring.
Qed.

(** ** Results that stay in range *)

Lemma shr_fexp_m (m e : Z) (l : location) :
  0 <= m ->
  shr_m (fst (shr_fexp prec emax m e l))
  = m / 2 ^ (snd (shr_fexp prec emax m e l) - e)
  /\ snd (shr_fexp prec emax m e l)
     = Z.max e (fexp prec emax (Zdigits2 m + e)).
Proof.
  intros Hm. unfold shr_fexp.
  destruct (fexp prec emax (Zdigits2 m + e) - e) as [| p | p] eqn:E;
    cbn [shr fst snd].
  - rewrite shr_record_of_loc_m, Z.sub_diag, Z.div_1_r. split; lia.
  - rewrite iter_shr_1_m by (rewrite shr_record_of_loc_m; lia).
    rewrite shr_record_of_loc_m. split; [f_equal; f_equal; lia | lia].
  - rewrite shr_record_of_loc_m, Z.sub_diag, Z.div_1_r. split; lia.
Qed.

(** After the shift to the format's exponent at most 53 digits are
    left. *)
Lemma shr_fexp_small (m e : Z) (l : location) :
  0 < m -> shr_m (fst (shr_fexp prec emax m e l)) < 2 ^ 53.
Proof.
  intros Hm.
  destruct (shr_fexp_m m e l ltac:(lia)) as [-> He1].
  pose proof (Zdigits2_bounds m Hm) as [_ Hhi].
  pose proof (Zdigits2_pos m Hm) as Hd.
  set (e1 := snd (shr_fexp prec emax m e l)) in *.
  assert (e <= e1 /\ Zdigits2 m + e - 53 <= e1) as [H1 H2]
    by (unfold fexp, SpecFloat.emin, prec, emax in He1; lia).
  apply Z.div_lt_upper_bound; [apply Z.pow_pos_nonneg; lia |].
  rewrite <- Z.pow_add_r by lia.
  apply Z.lt_le_trans with (2 ^ Zdigits2 m); [exact Hhi |].
  apply Z.pow_le_mono_r; lia.
Qed.

(** Rounding a mantissa that is neither too small nor too large gives
    a finite number, with an exponent in the range expected. *)
Lemma round_range (s : bool) (m e H : Z) (l : location) :
  0 < m -> -1074 < Zdigits2 m + e ->
  e <= H -> Zdigits2 m + e - 53 <= H -> -1074 <= H < 971 ->
  exists m' e',
    binary_round_aux prec emax s m e l = S754_finite s m' e'
    /\ e <= e' <= H + 1.
Proof.
  intros Hm Hd He HdH HH. unfold binary_round_aux.
  pose proof (shr_fexp_pos m e l Hm Hd) as [H1 Hd1].
  pose proof (shr_fexp_small m e l Hm) as Hsmall.
  destruct (shr_fexp_m m e l ltac:(lia)) as [_ He1].
  destruct (shr_fexp prec emax m e l) as [mrs1 e1]. cbn [fst snd] in *.
  pose proof (round_nearest_even_ge (shr_m mrs1) (loc_of_shr_record mrs1))
    as Hr.
  set (m2 := round_nearest_even (shr_m mrs1) (loc_of_shr_record mrs1)) in *.
  assert (0 < m2) as Hm2 by lia.
  assert (-1074 < Zdigits2 m2 + e1) as Hd2.
  { pose proof (Zdigits2_mono (shr_m mrs1) m2 H1 ltac:(lia)). lia. }
  assert (Zdigits2 m2 <= 54) as Hd54.
  { pose proof (Zdigits2_bounds m2 Hm2) as [Hlo _].
    pose proof (Zdigits2_pos m2 Hm2).
    assert (2 ^ (Zdigits2 m2 - 1) < 2 ^ 54) as H'.
    { apply Z.le_lt_trans with m2; [exact Hlo |].
      change (2 ^ 54) with (2 * 2 ^ 53). lia. }
    apply Z.pow_lt_mono_r_iff in H'; lia. }
  pose proof (shr_fexp_pos m2 e1 loc_Exact Hm2 Hd2) as [H2 _].
  destruct (shr_fexp_m m2 e1 loc_Exact ltac:(lia)) as [_ He2].
  destruct (shr_fexp prec emax m2 e1 loc_Exact) as [mrs2 e2].
  cbn [fst snd] in *.
  assert (e <= e1 <= H) as Hr1
    by (unfold fexp, SpecFloat.emin, prec, emax in He1; lia).
  assert (e1 <= e2 <= e1 + 1) as Hr2
    by (unfold fexp, SpecFloat.emin, prec, emax in He1, He2; lia).
  destruct (shr_m mrs2) as [| q | q]; try lia.
  destruct (Z.leb_spec e2 (emax - prec)) as [_ | Hgt];
    [| unfold emax, prec in Hgt; lia].
  exists q, e2. split; [reflexivity | lia].
Qed.

Lemma sf_mid_inv (lo hi : Z) (x : spec_float) :
  sf_mid lo hi x = true ->
  exists m e, x = S754_finite false m e /\ lo <= e <= hi.
Proof.
  destruct x as [| | | [] m e]; cbn [sf_mid]; try discriminate.
  rewrite andb_true_iff, !Z.leb_le. eauto.
Qed.

Lemma sf_mid_intro (lo hi : Z) (m : positive) (e : Z) :
  lo <= e <= hi -> sf_mid lo hi (S754_finite false m e) = true.
Proof.
  intros He. cbn [sf_mid]. rewrite andb_true_iff, !Z.leb_le. exact He.
Qed.

Lemma sf_of_Z_mid (n : Z) :
  0 < n < 2 ^ 53 -> sf_mid (-52) 0 (sf_of_Z n) = true.
Proof.
  intros Hn. destruct (sf_of_Z_pos n Hn) as (m & -> & _).
  pose proof (Zdigits2_le53 n Hn). apply sf_mid_intro. lia.
Qed.

(** The square root of a positive integer below [2^53]. *)
Lemma sqrt_int_range (n : Z) :
  0 < n < 2 ^ 53 -> sf_mid (-52) (-25) (SF64sqrt (sf_of_Z n)) = true.
Proof.
  intros Hn. destruct (sf_of_Z_pos n Hn) as (m & -> & Hm & Hdm).
  pose proof (Zdigits2_le53 n Hn) as HD.
  set (e := Zdigits2 n - 53) in *.
  unfold SF64sqrt, SFsqrt, SFsqrt_core_binary. cbv zeta.
  cbn [Zdigits2]. rewrite Hdm.
  rewrite !Z.div2_div.
  assert (1 <= (53 + e + 1) / 2 <= 27) as Hh.
  { split; [apply Z.div_le_lower_bound; lia |].
    apply Z.div_le_upper_bound; lia. }
  assert (-26 <= e / 2 <= 0) as He2.
  { split; [apply Z.div_le_lower_bound; lia |].
    apply Z.div_le_upper_bound; lia. }
  rewrite fexp_normal by lia.
  set (h := (53 + e + 1) / 2) in *.
  replace (Z.min (h - 53) (e / 2)) with (h - 53) by lia.
  assert (52 <= e - 2 * (h - 53) <= 53) as Hs.
  { pose proof (Z.div_mod (53 + e + 1) 2 ltac:(lia)) as Hdm2.
    pose proof (Z.mod_pos_bound (53 + e + 1) 2 ltac:(lia)).
    fold h in Hdm2. lia. }
  destruct (e - 2 * (h - 53)) as [| sp | sp] eqn:Es; try lia.
  rewrite Z.shiftl_mul_pow2 by lia.
  set (m' := Zpos m * 2 ^ Zpos sp).
  assert (0 < 2 ^ Zpos sp) as Hpow by (apply Z.pow_pos_nonneg; lia).
  assert (1 <= m') as Hm'1 by (unfold m'; nia).
  assert (m' < 2 ^ 106) as Hm'h.
  { unfold m'. pose proof (digits2_pos_bounds m) as [_ Hhi].
    rewrite Hdm in Hhi.
    apply Z.lt_le_trans with (2 ^ 53 * 2 ^ Zpos sp); [nia |].
    rewrite <- Z.pow_add_r by lia. apply Z.pow_le_mono_r; lia. }
  pose proof (Z.sqrtrem_spec m' ltac:(lia)) as Hspec.
  destruct (Z.sqrtrem m') as [q r].
  destruct Hspec as [Hq Hr].
  assert (0 < q) as Hq0 by nia.
  assert (q < 2 ^ 53) as Hq53.
  { assert (q * q < 2 ^ 53 * 2 ^ 53) as H'
      by (change (2 ^ 53 * 2 ^ 53) with (2 ^ 106); lia).
    nia. }
  assert (1 <= Zdigits2 q <= 53) as Hdq.
  { pose proof (Zdigits2_pos q Hq0).
    pose proof (Zdigits2_bounds q Hq0) as [Hlo _].
    assert (2 ^ (Zdigits2 q - 1) < 2 ^ 53) as H' by lia.
    apply Z.pow_lt_mono_r_iff in H'; lia. }
  match goal with
  | |- context [binary_round_aux _ _ _ _ _ ?l] =>
      destruct (round_range false q (h - 53) (-26) l)
        as (mr & er & -> & Her); try lia
  end.
  apply sf_mid_intro. lia.
Qed.

(** The product of two positive numbers in range. *)
Lemma mul_range (x y : spec_float) (l1 h1 l2 h2 : Z) :
  valid_binary x = true -> valid_binary y = true ->
  sf_mid l1 h1 x = true -> sf_mid l2 h2 y = true ->
  -1074 <= l1 + l2 -> h1 + h2 + 53 < 971 ->
  sf_mid (l1 + l2) (h1 + h2 + 54) (SF64mul x y) = true.
Proof.
  intros Hvx Hvy Hx Hy Hlo Hhi.
  apply sf_mid_inv in Hx, Hy.
  destruct Hx as (mx & ex & -> & Hex), Hy as (my & ey & -> & Hey).
  apply valid_finite in Hvx, Hvy.
  destruct Hvx as (_ & Hmx & _), Hvy as (_ & Hmy & _).
  unfold SF64mul, SFmul. cbn [xorb].
  assert (1 <= Zdigits2 (Zpos (mx * my)) <= 106) as Hd.
  { pose proof (Zdigits2_pos (Zpos (mx * my)) ltac:(lia)).
    pose proof (Zdigits2_bounds (Zpos (mx * my)) ltac:(lia)) as [Hl _].
    assert (2 ^ (Zdigits2 (Zpos (mx * my)) - 1) < 2 ^ 106) as H'.
    { apply Z.le_lt_trans with (Zpos (mx * my)); [exact Hl |].
      rewrite Pos2Z.inj_mul. change (2 ^ 106) with (2 ^ 53 * 2 ^ 53).
      change 9007199254740992 with (2 ^ 53) in Hmx, Hmy. nia. }
    apply Z.pow_lt_mono_r_iff in H'; lia. }
  destruct (round_range false (Zpos (mx * my)) (ex + ey) (h1 + h2 + 53)
                        loc_Exact) as (mr & er & -> & Her); try lia.
  apply sf_mid_intro. lia.
Qed.

(** A positive normal number over a positive normal number, the
    exponents not too far apart, is above zero. *)
Lemma div_positive (x y : spec_float) (l1 h1 l2 h2 : Z) :
  valid_binary x = true -> valid_binary y = true ->
  sf_mid l1 h1 x = true -> sf_mid l2 h2 y = true ->
  -1074 < l1 -> -1074 < l2 -> -1021 <= l1 - h2 ->
  sf_pos (SF64div x y) = true /\ sf_is_zero (SF64div x y) = false.
Proof.
  intros Hvx Hvy Hx Hy Hl1 Hl2 Hlo.
  apply sf_mid_inv in Hx, Hy.
  destruct Hx as (mx & ex & -> & Hex), Hy as (my & ey & -> & Hey).
  apply valid_finite in Hvx, Hvy.
  destruct Hvx as (_ & Hmx & Hdx), Hvy as (_ & Hmy & Hdy).
  specialize (Hdx ltac:(lia)). specialize (Hdy ltac:(lia)).
  unfold SF64div, SFdiv, SFdiv_core_binary. cbv zeta. cbn [xorb Zdigits2].
  rewrite Hdx, Hdy.
  replace (53 + ex - (53 + ey)) with (ex - ey) by lia.
  rewrite fexp_normal by lia.
  replace (Z.min (ex - ey - 53) (ex - ey)) with (ex - ey - 53) by lia.
  replace (ex - ey - (ex - ey - 53)) with 53 by lia.
  rewrite Z.shiftl_mul_pow2 by lia.
  pose proof (Z.div_eucl_eq (Zpos mx * 2 ^ 53) (Zpos my) ltac:(lia)) as Heq.
  pose proof (Z.mod_pos_bound (Zpos mx * 2 ^ 53) (Zpos my) ltac:(lia)) as Hmod.
  unfold Z.modulo in Hmod.
  destruct (Z.div_eucl (Zpos mx * 2 ^ 53) (Zpos my)) as [q r].
  pose proof (digits2_pos_bounds mx) as [Hlx _]. rewrite Hdx in Hlx.
  change (2 ^ (53 - 1)) with (2 ^ 52) in Hlx.
  change 9007199254740992 with (2 ^ 53) in Hmy.
  assert (2 ^ 52 <= q) as Hq by nia.
  assert (53 <= Zdigits2 q) as Hdq.
  { change 53 with (Zdigits2 (2 ^ 52)). apply Zdigits2_mono; lia. }
  match goal with
  | |- context [binary_round_aux _ _ _ _ _ ?l] =>
      pose proof (binary_round_aux_nonzero false q (ex - ey - 53) l
                    ltac:(lia) ltac:(lia)) as Hnz;
      pose proof (binary_round_aux_pos false q (ex - ey - 53) l
                    ltac:(lia)) as Hp
  end.
  split; [exact Hp |].
  match goal with
  | |- sf_is_zero ?t = false => destruct t; try contradiction; reflexivity
  end.
Qed.

End FloatExact.

(* ================================================================== *)
(** * Term counts as vectors *)
(* ================================================================== *)

Module VectorFacts.

Import FloatOrder FloatExact ScoreFacts.
Local Open Scope Z_scope.

(** The count kept by increments of [1.0] is the float of the number
    of occurrences, below [2^53]. *)
Lemma fcount_int (n : nat) :
  Z.of_nat n < 2 ^ 53 -> Prim2SF (fcount n) = sf_of_Z (Z.of_nat n).
Proof.
  induction n as [| n IH]; intros Hn; [reflexivity |].
  cbn [fcount]. rewrite add_spec, IH by lia.
  assert (Prim2SF 1 = sf_of_Z 1) as -> by reflexivity.
  rewrite add_exact by lia. f_equal. lia.
Qed.

(** ** Keys *)

Lemma keys_set_in {V} (d : Dict.dict V) (k : str) (v : V) (x : str) :
  In x (Dict.keys (Dict.set d k v)) <-> x = k \/ In x (Dict.keys d).
Proof.
  induction d as [| [k' v'] d IH]; cbn [Dict.set Dict.keys map fst In].
  - intuition congruence.
  - destruct (Str.eqb k' k) eqn:E; cbn [map fst In].
    + apply str_eqb_eq in E. subst k'. intuition congruence.
    + fold (Dict.keys (Dict.set d k v)). fold (Dict.keys d).
      rewrite IH. tauto.
Qed.

Lemma keys_set_nodup {V} (d : Dict.dict V) (k : str) (v : V) :
  NoDup (Dict.keys d) -> NoDup (Dict.keys (Dict.set d k v)).
Proof.
  induction d as [| [k' v'] d IH]; cbn [Dict.set Dict.keys map fst].
  - intros _. apply NoDup_cons; [intros [] | apply NoDup_nil].
  - intros Hnd. inversion Hnd as [| ? ? Hk' Hd]; subst.
    destruct (Str.eqb k' k) eqn:E; cbn [map fst]; [exact Hnd |].
    apply NoDup_cons; [| exact (IH Hd)].
    fold (Dict.keys (Dict.set d k v)). rewrite keys_set_in.
    apply str_eqb_neq in E. intros [-> | H]; [congruence | exact (Hk' H)].
Qed.

Lemma embedding_keys_nodup (s : str) : NoDup (Dict.keys (embedding_of s)).
Proof.
  unfold embedding_of.
  assert (forall l emb,
            NoDup (Dict.keys emb) ->
            NoDup (Dict.keys
                     (fold_left
                        (fun emb t =>
                           Dict.set emb t (Dict.get emb t 0 + 1)%float)
                        l emb))) as H.
  { induction l as [| t l IH]; intros emb Hnd; cbn [fold_left];
      [exact Hnd |].
    apply IH. now apply keys_set_nodup. }
  apply H. apply NoDup_nil.
Qed.

Lemma lookup_keys {V} (d : Dict.dict V) (k : str) :
  Dict.lookup d k = None <-> ~ In k (Dict.keys d).
Proof.
  induction d as [| [k' v'] d IH]; cbn [Dict.lookup Dict.keys map fst In];
    [tauto |].
  fold (Dict.keys d).
  destruct (Str.eqb k' k) eqn:E.
  - apply str_eqb_eq in E. split; [discriminate | tauto].
  - apply str_eqb_neq in E. rewrite IH. tauto.
Qed.

Lemma lookup_in_nodup {V} (d : Dict.dict V) (k : str) (w : V) :
  NoDup (Dict.keys d) -> In (k, w) d -> Dict.lookup d k = Some w.
Proof.
  induction d as [| [k' v'] d IH]; cbn [Dict.lookup Dict.keys map fst In];
    [contradiction |].
  intros Hnd Hin. inversion Hnd as [| ? ? Hk' Hd]; subst.
  destruct Hin as [[= -> ->] | Hin]; [now rewrite str_eqb_refl |].
  destruct (Str.eqb k' k) eqn:E; [| exact (IH Hd Hin)].
  apply str_eqb_eq in E. subst k'. exfalso. apply Hk'.
  apply in_map_iff. exists (k, w). split; [reflexivity | exact Hin].
Qed.

Lemma embedding_keys (s t : str) :
  In t (Dict.keys (embedding_of s)) <-> In t (terms_of s).
Proof.
  pose proof (lookup_keys (embedding_of s) t) as Hk.
  pose proof (count_term_zero t (terms_of s)) as Hc.
  rewrite embedding_counts in Hk.
  destruct (count_term t (terms_of s)) as [| n].
  - split; intros H; [| tauto]. exfalso. now apply (proj1 Hk).
  - split; intros H.
    + destruct (in_dec (list_eq_dec Ascii.ascii_dec) t (terms_of s))
        as [Hin | Hout]; [exact Hin |].
      apply Hc in Hout. discriminate.
    + destruct (in_dec (list_eq_dec Ascii.ascii_dec) t
                       (Dict.keys (embedding_of s))) as [Hin | Hout];
        [exact Hin |].
      apply Hk in Hout. discriminate.
Qed.

(** ** Weights *)

Lemma occurrences_bounds (s t : str) :
  0 <= occurrences s t <= Z.of_nat (length s).
Proof.
  unfold occurrences.
  pose proof (count_term_le t (terms_of s)).
  pose proof (terms_of_length s). lia.
Qed.

Lemma weight_get (s t : str) :
  Dict.get (embedding_of s) t 0%float = fcount (count_term t (terms_of s)).
Proof.
  unfold Dict.get. rewrite embedding_counts.
  destruct (count_term t (terms_of s)); reflexivity.
Qed.

Lemma weight_in (s k : str) (w : float) :
  In (k, w) (embedding_of s) -> w = fcount (count_term k (terms_of s)).
Proof.
  intros Hin.
  pose proof (lookup_in_nodup _ _ _ (embedding_keys_nodup s) Hin) as H.
  rewrite embedding_counts in H.
  destruct (count_term k (terms_of s)); congruence.
Qed.

Lemma weight_int (s t : str) :
  Z.of_nat (length s) < 2 ^ 53 ->
  Prim2SF (Dict.get (embedding_of s) t 0%float) = sf_of_Z (occurrences s t).
Proof.
  intros Hs. rewrite weight_get. apply fcount_int.
  pose proof (occurrences_bounds s t). unfold occurrences in *. lia.
Qed.

(** ** Sums of integers *)

Lemma zsum_nonneg {A} (g : A -> Z) (l : list A) :
  (forall a, 0 <= g a) -> 0 <= zsum g l.
Proof.
  intros Hg. induction l as [| a l IH]; cbn [zsum fold_right]; [lia |].
  fold (zsum g l). specialize (Hg a). lia.
Qed.

Lemma zsum_ge {A} (g : A -> Z) (l : list A) (a : A) :
  (forall x, 0 <= g x) -> In a l -> g a <= zsum g l.
Proof.
  intros Hg. induction l as [| x l IH]; cbn [zsum fold_right In];
    [contradiction |].
  fold (zsum g l). pose proof (zsum_nonneg g l Hg).
  intros [-> | Hin]; [lia |]. specialize (IH Hin). specialize (Hg x). lia.
Qed.

Lemma zsum_mul_le {A} (g h : A -> Z) (c : Z) (l : list A) :
  (forall x, 0 <= g x) -> (forall x, 0 <= h x <= c) ->
  zsum (fun x => g x * h x) l <= zsum g l * c.
Proof.
  intros Hg Hh. induction l as [| x l IH]; cbn [zsum fold_right]; [lia |].
  fold (zsum (fun x => g x * h x) l). fold (zsum g l).
  specialize (Hg x). specialize (Hh x). nia.
Qed.

Lemma zsum_indicator (x : str) (K : list str) :
  NoDup K -> 0 <= zsum (fun k => if Str.eqb x k then 1 else 0) K <= 1
             /\ (~ In x K ->
                 zsum (fun k => if Str.eqb x k then 1 else 0) K = 0).
Proof.
  induction K as [| k K IH]; intros Hnd; cbn [zsum fold_right];
    [split; [lia | reflexivity] |].
  fold (zsum (fun k => if Str.eqb x k then 1 else 0) K).
  inversion Hnd as [| ? ? Hk HK]; subst.
  destruct (IH HK) as [Hr Hz].
  destruct (Str.eqb x k) eqn:E.
  - apply str_eqb_eq in E. subst k. rewrite (Hz Hk).
    split; [lia |]. cbn [In]. tauto.
  - split; [lia |]. cbn [In]. intros H. rewrite Hz by tauto. lia.
Qed.

Lemma zsum_counts (l : list str) (K : list str) :
  NoDup K ->
  zsum (fun k => Z.of_nat (count_term k l)) K <= Z.of_nat (length l).
Proof.
  intros Hnd. induction l as [| x l IH].
  - cbn [count_term length]. induction K as [| k K IHK];
      cbn [zsum fold_right]; [lia |].
    inversion Hnd; subst.
    fold (zsum (fun _ : str => Z.of_nat 0) K). specialize (IHK H2). lia.
  - assert (forall K',
              zsum (fun k => Z.of_nat (count_term k (x :: l))) K'
              = zsum (fun k => if Str.eqb x k then 1 else 0) K'
                + zsum (fun k => Z.of_nat (count_term k l)) K') as Hsplit.
    { induction K' as [| k K' IHK]; cbn [zsum fold_right]; [reflexivity |].
      fold (zsum (fun k => Z.of_nat (count_term k (x :: l))) K').
      fold (zsum (fun k => if Str.eqb x k then 1 else 0) K').
      fold (zsum (fun k => Z.of_nat (count_term k l)) K').
      rewrite IHK. cbn [count_term]. destruct (Str.eqb x k); lia. }
    rewrite Hsplit. destruct (zsum_indicator x K Hnd) as [Hr _].
    cbn [length]. lia.
Qed.

Lemma occurrences_sum (s : str) :
  zsum (occurrences s) (Dict.keys (embedding_of s)) <= Z.of_nat (length s).
Proof.
  unfold occurrences.
  pose proof (zsum_counts (terms_of s) _ (embedding_keys_nodup s)).
  pose proof (terms_of_length s). lia.
Qed.

(** ** Sums of floats *)

Lemma sum_exact (F : str -> float) (g : str -> Z) (K : list str) :
  forall acc a,
    (forall t, In t K -> 0 <= g t /\ Prim2SF (F t) = sf_of_Z (g t)) ->
    0 <= a -> Prim2SF acc = sf_of_Z a -> a + zsum g K < 2 ^ 53 ->
    Prim2SF (fold_left PrimFloat.add (map F K) acc) = sf_of_Z (a + zsum g K).
Proof.
  induction K as [| t K IH]; intros acc a HF Ha Hacc Hlt;
    cbn [map fold_left zsum fold_right].
  - now rewrite Z.add_0_r.
  - fold (zsum g K). cbn [zsum fold_right] in Hlt. fold (zsum g K) in Hlt.
    destruct (HF t (or_introl eq_refl)) as [Hgt HFt].
    assert (0 <= zsum g K) as Hrest.
    { clear - HF. induction K as [| k K IHK]; cbn [zsum fold_right]; [lia |].
      fold (zsum g K).
      destruct (HF k (or_intror (or_introl eq_refl))) as [Hk _].
      assert (0 <= zsum g K); [| lia].
      apply IHK. intros u [<- | Hu]; apply HF; cbn [In]; tauto. }
    rewrite (IH (acc + F t)%float (a + g t)).
    + f_equal. lia.
    + intros u Hu. apply HF. now right.
    + lia.
    + rewrite add_spec, Hacc, HFt. apply add_exact; lia.
    + lia.
Qed.

End VectorFacts.

(* ================================================================== *)
(** * The score of two term-count vectors *)
(* ================================================================== *)

Module SharedTerms.

Import FloatOrder FloatExact ScoreFacts VectorFacts.
Local Open Scope Z_scope.

Lemma product_bound (a b n m : Z) :
  0 <= a <= n -> 0 <= b <= m -> n <= 1000000 -> m <= 1000000 ->
  0 <= a * b /\ a * b < 2 ^ 53 /\ a < 2 ^ 53 /\ b < 2 ^ 53.
Proof.
  intros Ha Hb Hn Hm. change (2 ^ 53) with 9007199254740992.
  assert (a * b <= 1000000 * 1000000) by (apply Z.mul_le_mono_nonneg; lia).
  repeat split; nia.
Qed.

Lemma dot_sum_bound (q d : str) :
  0 <= zsum (fun t => occurrences q t * occurrences d t)
            (Dict.keys (embedding_of q))
  <= Z.of_nat (length q) * Z.of_nat (length d).
Proof.
  split.
  - apply zsum_nonneg. intros t.
    pose proof (occurrences_bounds q t). pose proof (occurrences_bounds d t).
    nia.
  - apply Z.le_trans
      with (zsum (occurrences q) (Dict.keys (embedding_of q))
            * Z.of_nat (length d)).
    + apply zsum_mul_le; intros t; [apply occurrences_bounds |].
      apply occurrences_bounds.
    + apply Z.mul_le_mono_nonneg_r; [lia | apply occurrences_sum].
Qed.

(** The dot product is computed without rounding. *)
Lemma dot_exact (q d : str) :
  Z.of_nat (length q) <= 1000000 -> Z.of_nat (length d) <= 1000000 ->
  Prim2SF (dot_of (embedding_of q) (embedding_of d))
  = sf_of_Z (zsum (fun t => occurrences q t * occurrences d t)
                  (Dict.keys (embedding_of q))).
Proof.
  intros Hq Hd. unfold dot_of, Num.sum.
  pose proof (dot_sum_bound q d) as [Hlo Hhi].
  rewrite <- (Z.add_0_l (zsum _ _)).
  apply sum_exact; [| lia | reflexivity |].
  - intros t _.
    pose proof (occurrences_bounds q t) as Ha.
    pose proof (occurrences_bounds d t) as Hb.
    destruct (product_bound _ _ _ _ Ha Hb Hq Hd) as (H0 & H1 & H2 & H3).
    split; [exact H0 |].
    change (2 ^ 53) with 9007199254740992 in *.
    rewrite mul_spec, !weight_int by lia.
    apply mul_exact; lia.
  - change (2 ^ 53) with 9007199254740992.
    assert (Z.of_nat (length q) * Z.of_nat (length d) <= 1000000 * 1000000)
      by (apply Z.mul_le_mono_nonneg; lia).
    lia.
Qed.

(** The sum of squares of a vector is its dot product with itself. *)
Lemma norm_sq_dot (s : str) :
  norm_sq (embedding_of s) = dot_of (embedding_of s) (embedding_of s).
Proof.
  unfold norm_sq, dot_of, Dict.values, Dict.keys. f_equal.
  rewrite !map_map. apply map_ext_in. intros [k w] Hin. cbn [fst snd].
  rewrite weight_get. now rewrite <- (weight_in s k w Hin).
Qed.

Lemma shared_sum_pos (q d : str) :
  shares_term q d ->
  1 <= zsum (fun t => occurrences q t * occurrences d t)
            (Dict.keys (embedding_of q)).
Proof.
  intros (t & Hq & Hd).
  assert (forall s, In t (terms_of s) -> 1 <= occurrences s t) as Hocc.
  { intros s Hs. unfold occurrences.
    pose proof (count_term_zero t (terms_of s)) as Hz.
    destruct (count_term t (terms_of s)); [tauto | lia]. }
  pose proof (Hocc q Hq). pose proof (Hocc d Hd).
  apply Z.le_trans with (occurrences q t * occurrences d t); [nia |].
  apply (zsum_ge (fun t => occurrences q t * occurrences d t)).
  - intros x. pose proof (occurrences_bounds q x).
    pose proof (occurrences_bounds d x). nia.
  - now apply embedding_keys.
Qed.

Lemma shares_self (s t : str) : In t (terms_of s) -> shares_term s s.
Proof. intros H. exists t. tauto. Qed.

Lemma shares_term_dec (q d : str) :
  shares_term q d \/ forall t, In t (terms_of q) -> ~ In t (terms_of d).
Proof.
  unfold shares_term.
  induction (terms_of q) as [| x l IH].
  - right. intros t [].
  - destruct (in_dec (list_eq_dec Ascii.ascii_dec) x (terms_of d))
      as [Hin | Hout].
    + left. exists x. split; [now left | exact Hin].
    + destruct IH as [(t & Ht & Htd) | Hnone].
      * left. exists t. split; [now right | exact Htd].
      * right. intros t [<- | Ht]; [exact Hout | now apply Hnone].
Qed.

(** The norm of the vector of a string with a term. *)
Lemma norm_mid (s t : str) :
  Z.of_nat (length s) <= 1000000 -> In t (terms_of s) ->
  sf_mid (-52) (-25) (Prim2SF (norm (embedding_of s))) = true.
Proof.
  intros Hs Ht. unfold norm.
  rewrite sqrt_spec, norm_sq_dot, dot_exact by exact Hs.
  apply sqrt_int_range.
  pose proof (shared_sum_pos s s (shares_self s t Ht)).
  pose proof (dot_sum_bound s s) as [_ Hhi].
  change (2 ^ 53) with 9007199254740992.
  assert (Z.of_nat (length s) * Z.of_nat (length s) <= 1000000 * 1000000)
    by (apply Z.mul_le_mono_nonneg; lia).
  lia.
Qed.

Lemma mid_truthy (lo hi : Z) (x : float) :
  sf_mid lo hi (Prim2SF x) = true -> Num.truthy x = true.
Proof.
  intros H. rewrite truthy_zero. apply sf_mid_inv in H.
  destruct H as (m & e & -> & _). reflexivity.
Qed.

Lemma pos_ltb (x : float) :
  sf_pos (Prim2SF x) = true -> sf_is_zero (Prim2SF x) = false ->
  (0 <? x)%float = true.
Proof.
  rewrite ltb_spec, Prim2SF_zero.
  destruct (Prim2SF x) as [s | s | | s m e]; cbn [sf_pos sf_is_zero];
    try discriminate; destruct s; try discriminate; reflexivity.
Qed.

Lemma nonempty_keys {V} (d : Dict.dict V) (t : str) :
  In t (Dict.keys d) -> Dict.is_empty d = false.
Proof. destruct d; [intros [] | reflexivity]. Qed.

(** Two strings with a common term: the score is above zero. *)
Lemma cosine_shared (q d : str) :
  Z.of_nat (length q) <= 1000000 -> Z.of_nat (length d) <= 1000000 ->
  shares_term q d ->
  (0 <? cosine (embedding_of q) (embedding_of d))%float = true.
Proof.
  intros Hq Hd Hsh. pose proof Hsh as (t & Htq & Htd).
  unfold cosine.
  rewrite (nonempty_keys _ t (proj2 (embedding_keys q t) Htq)).
  rewrite (nonempty_keys _ t (proj2 (embedding_keys d t) Htd)).
  cbn [orb].
  pose proof (norm_mid q t Hq Htq) as Hnq.
  pose proof (norm_mid d t Hd Htd) as Hnd.
  rewrite (mid_truthy _ _ _ Hnq), (mid_truthy _ _ _ Hnd). cbn [andb].
  assert (sf_mid (-52) 0
                 (Prim2SF (dot_of (embedding_of q) (embedding_of d))) = true)
    as Hdot.
  { rewrite dot_exact by assumption. apply sf_of_Z_mid.
    pose proof (shared_sum_pos q d Hsh).
    pose proof (dot_sum_bound q d) as [_ Hhi].
    change (2 ^ 53) with 9007199254740992.
    assert (Z.of_nat (length q) * Z.of_nat (length d) <= 1000000 * 1000000)
      by (apply Z.mul_le_mono_nonneg; lia).
    lia. }
  assert (sf_mid (-52 + -52) (-25 + -25 + 54)
                 (Prim2SF (norm (embedding_of q) * norm (embedding_of d)))
          = true) as Hprod.
  { rewrite mul_spec.
    apply mul_range; try apply Prim2SF_valid; try assumption; lia. }
  destruct (div_positive
              (Prim2SF (dot_of (embedding_of q) (embedding_of d)))
              (Prim2SF (norm (embedding_of q) * norm (embedding_of d)))
              (-52) 0 (-52 + -52) (-25 + -25 + 54))
    as [Hp Hz]; try apply Prim2SF_valid; try assumption; try lia.
  apply pos_ltb; rewrite div_spec; assumption.
Qed.

Lemma embedding_finite (s : str) :
  Z.of_nat (length s) <= 1000000 -> finite_weights (embedding_of s).
Proof.
  intros Hs. apply Forall_forall. intros [k w] Hin. cbn [snd].
  rewrite (weight_in s k w Hin). unfold is_finite.
  pose proof (occurrences_bounds s k) as Hb. unfold occurrences in Hb.
  rewrite fcount_int by (change (2 ^ 53) with 9007199254740992; lia).
  destruct (Z.eq_dec (Z.of_nat (count_term k (terms_of s))) 0) as [-> | Hne];
    [reflexivity |].
  destruct (sf_of_Z_pos (Z.of_nat (count_term k (terms_of s))))
    as (m & -> & _); [| reflexivity].
  change (2 ^ 53) with 9007199254740992. lia.
Qed.

Lemma cosine_unshared (q d : str) :
  Z.of_nat (length q) <= 1000000 -> Z.of_nat (length d) <= 1000000 ->
  (forall t, In t (terms_of q) -> ~ In t (terms_of d)) ->
  cosine (embedding_of q) (embedding_of d) = 0%float.
Proof.
  intros Hq Hd Hnone.
  apply ZeroScore.cosine_disjoint; try now apply embedding_finite.
  intros t Ht. apply lookup_keys. rewrite embedding_keys.
  apply Hnone. now apply embedding_keys.
Qed.

End SharedTerms.

(** X17. On the vectors of two strings of at most a million characters
    [score] adds and multiplies without rounding: the keys of a vector
    are the distinct terms of its string, the dot product is the float
    of the sum, over the terms of the first string, of the products of
    the numbers of occurrences, and a sum of squares is the float of
    the sum of the squared numbers of occurrences. *)
Theorem score_sums_exact (q d : str) :
  (Z.of_nat (length q) <= 1000000)%Z ->
  (Z.of_nat (length d) <= 1000000)%Z ->
  NoDup (Dict.keys (embedding_of q))
  /\ (forall t, In t (Dict.keys (embedding_of q)) <-> In t (terms_of q))
  /\ score (query_vector q) (Val.of_vec (embedding_of d))
     = Ok (cosine (embedding_of q) (embedding_of d))
  /\ Prim2SF (dot_of (embedding_of q) (embedding_of d))
     = sf_of_Z (zsum (fun t => occurrences q t * occurrences d t)%Z
                     (Dict.keys (embedding_of q)))
  /\ Prim2SF (norm_sq (embedding_of q))
     = sf_of_Z (zsum (fun t => occurrences q t * occurrences q t)%Z
                     (Dict.keys (embedding_of q))).
Proof.
  intros Hq Hd.
  split; [apply VectorFacts.embedding_keys_nodup |].
  split; [intros t; apply VectorFacts.embedding_keys |].
  split; [apply ScoreFacts.score_of_vec |].
  split; [now apply SharedTerms.dot_exact |].
  rewrite SharedTerms.norm_sq_dot. now apply SharedTerms.dot_exact.
Qed.

(** "cat dog cat" against "cat": the dot product is 2, the sum of
    squares 5. *)
Lemma score_sums_exact_witness :
  Prim2SF (dot_of (embedding_of (Str.lit "cat dog cat"))
                  (embedding_of (Str.lit "cat")))
  = sf_of_Z 2
  /\ Prim2SF (norm_sq (embedding_of (Str.lit "cat dog cat"))) = sf_of_Z 5.
Proof.
  assert (Z.of_nat (length (Str.lit "cat dog cat")) <= 1000000)%Z as Hq
    by (cbn; lia).
  assert (Z.of_nat (length (Str.lit "cat")) <= 1000000)%Z as Hd
    by (cbn; lia).
  destruct (score_sums_exact (Str.lit "cat dog cat") (Str.lit "cat") Hq Hd)
    as (_ & _ & _ & Hdot & Hsq).
  split; [rewrite Hdot | rewrite Hsq]; vm_compute; reflexivity.
Defined.

(** X18. For a query and a slice of at most a million characters each,
    [score] returns a value, and the value is above zero exactly when
    the two have a term in common. *)
Theorem score_positive_iff_shared (query ch : str) :
  (Z.of_nat (length query) <= 1000000)%Z ->
  (Z.of_nat (length ch) <= 1000000)%Z ->
  exists s,
    score (query_vector query) (Val.of_vec (embedding_of ch)) = Ok s
    /\ ((0 <? s)%float = true <-> shares_term query ch).
Proof.
  intros Hq Hd. exists (cosine (embedding_of query) (embedding_of ch)).
  split; [apply ScoreFacts.score_of_vec |].
  split.
  - intros Hpos.
    destruct (SharedTerms.shares_term_dec query ch) as [Hsh | Hnone];
      [exact Hsh |].
    rewrite (SharedTerms.cosine_unshared query ch Hq Hd Hnone) in Hpos.
    discriminate Hpos.
  - now apply SharedTerms.cosine_shared.
Qed.

Lemma score_positive_iff_shared_witness :
  exists s,
    score (query_vector (Str.lit "Cat food"))
          (Val.of_vec (embedding_of (Str.lit "cat dog cat"))) = Ok s
    /\ ((0 <? s)%float = true
        <-> shares_term (Str.lit "Cat food") (Str.lit "cat dog cat")).
Proof.
  apply (score_positive_iff_shared (Str.lit "Cat food")
                                   (Str.lit "cat dog cat")); cbn; lia.
Defined.

(* ================================================================== *)
(** * What search finds *)
(* ================================================================== *)

Lemma take_all {A} (l : list A) (k : Z) :
  (Z.of_nat (length l) <= k)%Z -> take l k = l.
Proof.
  intros Hk. unfold take.
  destruct (Z.leb_spec 0 k) as [_ | Hneg]; [| lia].
  apply firstn_all2. lia.
Qed.

Lemma candidates_length (q : Dict.dict float) (l : list chunk_record) :
  length (flat_map (candidate q) l) <= length l.
Proof.
  induction l as [| c l IH]; cbn [flat_map length]; [lia |].
  rewrite length_app. unfold candidate at 1.
  destruct (score q (get_embedding c)) as [s | e]; [| cbn [length]; lia].
  destruct (0 <? s)%float; cbn [length]; lia.
Qed.

(** The candidate of a chunk that holds the vector of its text. *)
Lemma candidate_vectorized (query : str) (c : chunk_record) :
  (Z.of_nat (length query) <= 1000000)%Z ->
  length (text c) <= 500 ->
  embedding c = Some (Val.of_vec (embedding_of (text c))) ->
  (shares_term query (text c) ->
   exists s, candidate (query_vector query) c = [make_match c s])
  /\ (~ shares_term query (text c) -> candidate (query_vector query) c = []).
Proof.
  intros Hq Hlen Hemb.
  assert (Z.of_nat (length (text c)) <= 1000000)%Z as Hc by lia.
  unfold candidate, get_embedding. rewrite Hemb.
  change (query_vector query) with (embedding_of query).
  rewrite ScoreFacts.score_of_vec. split.
  - intros Hsh. rewrite (SharedTerms.cosine_shared _ _ Hq Hc Hsh). eauto.
  - intros Hno.
    destruct (SharedTerms.shares_term_dec query (text c)) as [Hsh | Hnone];
      [contradiction |].
    rewrite (SharedTerms.cosine_unshared _ _ Hq Hc Hnone). reflexivity.
Qed.

Section Retrieval.

Variable decode : list Byte.byte -> str.

(** X19. Whatever ingestions and deletions are served from the empty
    store, a search with a query of at most a million characters and a
    [top_k] of at least 2000 returns, and among the first 2000 stored
    chunks it matches exactly those whose text has a term in common
    with the query. *)
Theorem served_search_complete (rqs : list request) (query : str)
        (top_k : Z) :
  (1 <= Z.of_nat (length query) <= 1000000)%Z ->
  (2000 <= top_k)%Z ->
  let st := serve_all decode empty_db rqs in
  exists r,
    semantic_search (Some st) query top_k = Ok r
    /\ forall c, In c (firstn 2000 (chunk st)) ->
         ((exists s, In (make_match c s) (matches r))
          <-> shares_term query (text c)).
Proof.
  intros Hq Hk st.
  destruct (store_inv_serve_all decode rqs empty_db store_inv_empty)
    as (_ & _ & _ & Hchunks).
  fold st in Hchunks. rewrite Forall_forall in Hchunks.
  assert (forall c, In c (firstn 2000 (chunk st)) ->
            length (text c) <= 500
            /\ embedding c = Some (Val.of_vec (embedding_of (text c))))
    as Hvec.
  { intros c Hc. apply firstn_incl in Hc.
    destruct (Hchunks c Hc) as (_ & Hlen & _ & Hemb). auto. }
  destruct (semantic_search_total st query top_k) as [r Hr]; [lia | |].
  { apply Forall_forall. intros c Hc. apply firstn_incl in Hc.
    now apply Hchunks. }
  exists r. split; [exact Hr |].
  apply semantic_search_run in Hr. destruct Hr as (_ & _ & Hm & _).
  set (cands := flat_map (candidate (query_vector query))
                         (firstn 2000 (chunk st))) in *.
  assert (matches r = sort_desc cands) as Hall.
  { rewrite Hm. apply take_all.
    rewrite (Permutation_length (sort_desc_perm cands)).
    pose proof (candidates_length (query_vector query)
                                  (firstn 2000 (chunk st))) as H1.
    fold cands in H1.
    pose proof (firstn_le_length 2000 (chunk st)). lia. }
  assert (forall m, In m (matches r) <-> In m cands) as Hin.
  { intros m. rewrite Hall. split; apply Permutation_in;
      [apply sort_desc_perm | apply Permutation_sym, sort_desc_perm]. }
  intros c Hc. destruct (Hvec c Hc) as [Hlen Hemb].
  destruct (candidate_vectorized query c ltac:(lia) Hlen Hemb)
    as [Hyes Hno].
  split.
  - intros [s Hs]. apply Hin in Hs. unfold cands in Hs.
    apply in_flat_map in Hs. destruct Hs as (ch & Hch & Hs).
    destruct (Hvec ch Hch) as [Hlen' Hemb'].
    destruct (candidate_vectorized query ch ltac:(lia) Hlen' Hemb')
      as [_ Hno'].
    destruct (SharedTerms.shares_term_dec query (text ch)) as [Hsh | Hnone].
    + assert (text c = text ch) as ->; [| exact Hsh].
      destruct (proj1 (candidate_vectorized query ch ltac:(lia) Hlen' Hemb')
                      Hsh) as [s' Hs'].
      rewrite Hs' in Hs. destruct Hs as [Hs | []].
      apply (f_equal m_text) in Hs. cbn [make_match m_text] in Hs.
      rewrite !firstn_all2 in Hs by lia. congruence.
    + rewrite Hno' in Hs; [destruct Hs |].
      intros (t & Ht & Htd). exact (Hnone t Ht Htd).
  - intros Hsh. destruct (Hyes Hsh) as [s Hs]. exists s.
    apply Hin. unfold cands. apply in_flat_map.
    exists c. split; [exact Hc |]. rewrite Hs. now left.
Qed.

End Retrieval.

(** After one ingestion of "cat dog cat", the query "Cat food" matches
    the chunk. *)
Lemma served_search_complete_witness :
  exists r,
    semantic_search (Some (serve_all ascii_decode empty_db [Ingest [cat_file]]))
                    (Str.lit "Cat food") 2000
    = Ok r
    /\ length (matches r) = 1.
Proof.
  assert (1 <= Z.of_nat (length (Str.lit "Cat food")) <= 1000000)%Z as Hq
    by (cbn; lia).
  assert (2000 <= 2000)%Z as Hk by lia.
  destruct (served_search_complete ascii_decode [Ingest [cat_file]]
              (Str.lit "Cat food") 2000 Hq Hk) as (r & Hr & _).
  exists r. split; [exact Hr |].
  vm_compute in Hr. injection Hr as <-. reflexivity.
Defined.

(** X20. After a deletion request for [id], whether it answered success
    or not-found, no search returns a match whose [doc_id] is the
    string [id]. *)
Theorem deleted_not_found_by_search (st st' : database) (id query : str)
        (top_k : Z) (r : search_response) :
  fst (delete_document (Some st) id) = Some st' ->
  semantic_search (Some st') query top_k = Ok r ->
  forall m, In m (matches r) -> m_doc_id m <> IdStr id.
Proof.
  intros Hdel Hr m Hm.
  destruct (search_matches_from_chunks st' query top_k r Hr m Hm)
    as (ch & s & Hch & _ & _ & ->).
  apply firstn_incl in Hch. cbn [make_match m_doc_id].
  rewrite delete_document_run in Hdel. cbv zeta in Hdel. cbn [fst] in Hdel.
  injection Hdel as <-.
  exact (delete_many_spec _ _ ch Hch).
Qed.

(** Two ingestions of the same file, the first document deleted: the
    search returns the chunk of the second only. *)
Lemma deleted_not_found_by_search_witness :
  exists st' r,
    fst (delete_document (Some two_cats) (Bson.to_str 0%N)) = Some st'
    /\ semantic_search (Some st') (Str.lit "cat") 5 = Ok r
    /\ (forall m, In m (matches r) -> m_doc_id m <> IdStr (Bson.to_str 0%N))
    /\ map m_doc_id (matches r) = [IdStr (Bson.to_str 1%N)].
Proof.
  destruct (fst (delete_document (Some two_cats) (Bson.to_str 0%N)))
    as [st' |] eqn:Hdel; [| vm_compute in Hdel; discriminate].
  destruct (semantic_search (Some st') (Str.lit "cat") 5) as [r | e] eqn:Hr.
  - exists st', r. split; [reflexivity |]. split; [exact Hr |].
    split.
    + exact (deleted_not_found_by_search two_cats st' (Bson.to_str 0%N)
               (Str.lit "cat") 5 r Hdel Hr).
    + vm_compute in Hdel. injection Hdel as <-.
      vm_compute in Hr. injection Hr as <-. reflexivity.
  - exfalso. vm_compute in Hdel. injection Hdel as <-.
    vm_compute in Hr. discriminate.
Defined.
